(** * wash: managed commands, pod exec sessions and cached volume listings

    A shallow embedding of three Go sources of the repository:
    - [plugin/internal/command.go]: the [command] wrapper around [exec.Cmd];
    - the kubernetes [pod] entry and its [Exec] method;
    - the kubernetes [pvc] entry: [Find], [List], [Name], [Attr], [Open],
      [waitForPod], [cachedAttributes], [cachedContent] and [createPod].

    Go code runs in goroutines over shared memory. A method is embedded as a
    program of atomic steps over a world (module [Prog]): a step either
    transforms the world or is blocked (a held mutex, an empty channel).
    A single call is run to its end with [exec]; goroutines are interleaved
    by a schedule with [run_pool]. Collaborators that are not part of the
    sources (the operating system, the cluster API, gob, the stat parser) are
    oracles collected in a record. *)

From Stdlib Require Import ZArith NArith Lia Strings.Byte.
From stdpp Require Import base option list strings gmap.

Open Scope Z_scope.
Open Scope string_scope.
Open Scope list_scope.
Open Scope nat_scope.

(** ** Programs of atomic steps *)

Module Prog.

Section Prog.
Context {W : Type}.

(** [Ret r] has returned [r]. [Act f k] performs one atomic step [f]: in
    world [w] it is blocked when [f w = None]; otherwise [f w] gives the value
    the step yields and the next world, and the program goes on as [k]. *)
Inductive prog (R : Type) : Type :=
| Ret (r : R)
| Act {A : Type} (f : W -> option (A * W)) (k : A -> prog R).

Arguments Ret {R} r.
Arguments Act {R A} f k.

Fixpoint bind {A B : Type} (p : prog A) (k : A -> prog B) : prog B :=
  match p with
  | Ret a => k a
  | Act f k' => Act f (fun x => bind (k' x) k)
  end.

(** One statement that reads and updates the world. *)
Definition atomic {A : Type} (f : W -> A * W) : prog A :=
  Act (fun w => Some (f w)) Ret.

Definition read {A : Type} (f : W -> A) : prog A :=
  atomic (fun w => (f w, w)).

Definition write (f : W -> W) : prog unit :=
  atomic (fun w => (tt, f w)).

(** A statement that blocks until [ready] holds and then runs [f]. *)
Definition await {A : Type} (ready : W -> bool) (f : W -> A * W) : prog A :=
  Act (fun w => if ready w then Some (f w) else None) Ret.

(** A goroutine that is blocked for ever. *)
Definition halt {A : Type} : prog A :=
  Act (fun _ => @None (A * W)) Ret.

(** A goroutine that panics: it runs [f] and never returns. *)
Definition stuck {A : Type} (f : W -> W) : prog A :=
  Act (fun w => Some (tt, f w)) (fun _ => halt).

Definition is_act {R : Type} (p : prog R) : Prop :=
  match p with
  | Ret _ => False
  | Act _ _ => True
  end.

(** The next step of a program. *)
Definition pstep {R : Type} (p : prog R) (w : W) : option (W * prog R) :=
  match p with
  | Ret _ => None
  | Act f k =>
      match f w with
      | Some (a, w') => Some (w', k a)
      | None => None
      end
  end.

(** What a goroutine has returned, if it has. *)
Definition returned {R : Type} (p : prog R) : option R :=
  match p with
  | Ret r => Some r
  | Act _ _ => None
  end.

(** Running one call alone until it returns; [None] when it blocks. *)
Fixpoint exec {R : Type} (p : prog R) (w : W) : option (R * W) :=
  match p with
  | Ret r => Some (r, w)
  | Act f k =>
      match f w with
      | Some (a, w') => exec (k a) w'
      | None => None
      end
  end.

(** Every step a program can take is in the relation [G]. *)
Inductive steps_in {R : Type} (G : W -> W -> Prop) : prog R -> Prop :=
| steps_ret (r : R) : steps_in G (Ret r)
| steps_act {A : Type} (f : W -> option (A * W)) (k : A -> prog R) :
    (forall w a w', f w = Some (a, w') -> G w w') ->
    (forall w a w', f w = Some (a, w') -> steps_in G (k a)) ->
    steps_in G (Act f k).

(** A pool of goroutines over one world; thread [i] takes a step when the
    schedule says so and it is not blocked. *)
Definition step_thread {R : Type} (i : nat) (c : W * list (prog R)) : W * list (prog R) :=
  match c.2 !! i with
  | Some p =>
      match pstep p c.1 with
      | Some (w', p') => (w', <[i := p']> c.2)
      | None => c
      end
  | None => c
  end.

Definition run_pool {R : Type} (schedule : list nat) (c : W * list (prog R)) : W * list (prog R) :=
  fold_left (fun c i => step_thread i c) schedule c.

(** A call that runs [q] with a lock held: it waits until the lock is free,
    takes it, runs [q] and releases it before it returns what [q] returned.
    [holding] is such a call once it has the lock. *)
Definition holding {R : Type} (release : W -> W) (q : prog R) : prog R :=
  bind q (fun r => bind (write release) (fun _ => Ret r)).

Definition critical {R : Type} (free : W -> bool) (acquire release : W -> W) (q : prog R)
  : prog R :=
  bind (await free (fun w => (tt, acquire w))) (fun _ => holding release q).

(** The states of a pool of callers of which at most one holds the lock.
    The callers are named by [a] in [D]: caller [a] runs [T0 a], whose first
    step leads to [T1 a], the call that waits for the lock. [Idle] tells
    that a caller has not taken the lock yet, or has returned a result that
    satisfies [Res]. In a state of [serial] either the lock is free, [Q]
    holds, every caller is idle, and [Done] holds if one of them has
    returned; or caller [i] holds the lock: it took it in the world [ws],
    has come to the world of the state by steps in [G], and running what
    remains of it alone gives a result and a world that satisfy [Post]. *)
Definition Idle {I R : Type} (D : I -> Prop) (T0 T1 : I -> prog R) (Res : R -> Prop)
    (p : prog R) : Prop :=
  (exists a, D a /\ (p = T0 a \/ p = T1 a)) \/ exists r, p = Ret r /\ Res r.

Definition serial {I R : Type} (D : I -> Prop) (free : W -> bool) (release : W -> W)
    (T0 T1 : I -> prog R) (G : W -> W -> Prop) (Q Done : W -> Prop) (Res : R -> Prop)
    (Post : W -> R -> W -> Prop) (c : W * list (prog R)) : Prop :=
  (free c.1 = true /\ Q c.1 /\
   (forall j p, c.2 !! j = Some p -> Idle D T0 T1 Res p) /\
   (forall j r, c.2 !! j = Some (Ret r) -> Done c.1)) \/
  (free c.1 = false /\
   exists i q ws r w1,
     c.2 !! i = Some (holding release q) /\ steps_in G q /\ G ws c.1 /\
     exec q c.1 = Some (r, w1) /\ Post ws r w1 /\
     forall j p, j <> i -> c.2 !! j = Some p -> Idle D T0 T1 Res p).

End Prog.

Arguments prog W R : clear implicits.
Arguments Ret {W R} r.
Arguments Act {W R A} f k.

Declare Scope prog_scope.
Delimit Scope prog_scope with prog.
Bind Scope prog_scope with prog.
Notation "x <- p ;; k" := (bind p (fun x => k))
  (at level 100, p at next level, right associativity) : prog_scope.
Notation "'do' p ;; k" := (bind p (fun _ => k))
  (at level 100, p at next level, right associativity) : prog_scope.

End Prog.

(** ** plugin/internal/command.go *)

Module Command.
Import Prog.

(** A Go [error] of this file is represented by its message; [nil] is [None]. *)
Definition error := string.

Inductive Signal := SIGTERM | SIGKILL.

(** [sync.Once]: not yet run, running its function, done. *)
Inductive once := OnceNew | OnceRunning | OnceDone.

(** The cases of the [select] in the goroutine of [Start]. *)
Inductive trigger := WaitDone | Terminated | Cancelled.

(** The messages given to [activity.Record]. *)
Inductive record :=
| RecNoPgid (err : error)
| RecSendingSIGTERM (desc : trigger)
| RecFailedSIGTERM (err : error)
| RecSendingSIGKILL
| RecFailedSIGKILL (err : error).

(** The operating system as seen by one command: what [exec.Cmd.Start]
    answers (an error or the pid), what the n-th call of [syscall.Getpgid]
    and of [syscall.Kill] answer, what [exec.Cmd.Wait] reports once the
    process has exited, and which ready case a [select] takes. *)
Record OS := {
  os_start : error + nat;
  os_getpgid : nat -> error + nat;
  os_kill : nat -> option error;
  os_wait : option error;
  os_select : nat
}.

(** The fields of [struct command] that the methods read and write. *)
Record command := {
  Process : option nat;      (* exec.Cmd.Process: nil until started *)
  pgid : Z;
  terminateCh : bool;        (* closed? *)
  waitResult : option error;
  waitDoneCh : bool;         (* closed? *)
  waitOnce : once
}.

(** The world of a command: the object, its context, and what happened to
    the process and to the runtime so far. *)
Record world := {
  cmd : command;
  ctx_done : bool;                      (* cmd.ctx is cancelled *)
  exited : bool;                        (* the process has exited *)
  n_wait : nat;                         (* calls of exec.Cmd.Wait *)
  n_getpgid : nat;                      (* calls of syscall.Getpgid *)
  kills : list (Z * Signal * nat);      (* syscall.Kill(target, sig) at time t, oldest first *)
  now : nat;                            (* milliseconds *)
  timer : option nat;                   (* deadline of the armed time.AfterFunc *)
  go_watcher : bool;                    (* the goroutine of Start has been started *)
  panicked : bool;
  activity : list record
}.

(** Termination has been requested: Terminate() was called or the context
    is cancelled. *)
Definition requested (w : world) : Prop :=
  terminateCh (cmd w) = true \/ ctx_done w = true.

(** The calls of syscall.Kill so far are one SIGTERM to the group [g] at
    time [t1]; they are that SIGTERM and one SIGKILL to the same group at
    time [t2]. *)
Definition term_sent (ks : list (Z * Signal * nat)) (g : Z) (t1 : nat) : Prop :=
  ks = [((- g)%Z, SIGTERM, t1)].

Definition kill_sent (ks : list (Z * Signal * nat)) (g : Z) (t1 t2 : nat) : Prop :=
  ks = [((- g)%Z, SIGTERM, t1); ((- g)%Z, SIGKILL, t2)].

(** [NewCommand]: pgid is -1, both channels are open. *)
Definition NewCommand : world :=
  {| cmd := {| Process := None; pgid := (-1)%Z; terminateCh := false;
               waitResult := None; waitDoneCh := false; waitOnce := OnceNew |};
     ctx_done := false; exited := false; n_wait := 0; n_getpgid := 0;
     kills := []; now := 0; timer := None; go_watcher := false;
     panicked := false; activity := [] |}.

Definition set_cmd (f : command -> command) (w : world) : world :=
  {| cmd := f (cmd w); ctx_done := ctx_done w; exited := exited w;
     n_wait := n_wait w; n_getpgid := n_getpgid w; kills := kills w;
     now := now w; timer := timer w; go_watcher := go_watcher w;
     panicked := panicked w; activity := activity w |}.

Definition set_Process (p : option nat) (c : command) : command :=
  {| Process := p; pgid := pgid c; terminateCh := terminateCh c;
     waitResult := waitResult c; waitDoneCh := waitDoneCh c; waitOnce := waitOnce c |}.

Definition set_pgid (g : Z) (c : command) : command :=
  {| Process := Process c; pgid := g; terminateCh := terminateCh c;
     waitResult := waitResult c; waitDoneCh := waitDoneCh c; waitOnce := waitOnce c |}.

Definition set_terminateCh (b : bool) (c : command) : command :=
  {| Process := Process c; pgid := pgid c; terminateCh := b;
     waitResult := waitResult c; waitDoneCh := waitDoneCh c; waitOnce := waitOnce c |}.

Definition set_waitResult (r : option error) (c : command) : command :=
  {| Process := Process c; pgid := pgid c; terminateCh := terminateCh c;
     waitResult := r; waitDoneCh := waitDoneCh c; waitOnce := waitOnce c |}.

Definition set_waitDoneCh (b : bool) (c : command) : command :=
  {| Process := Process c; pgid := pgid c; terminateCh := terminateCh c;
     waitResult := waitResult c; waitDoneCh := b; waitOnce := waitOnce c |}.

Definition set_waitOnce (o : once) (c : command) : command :=
  {| Process := Process c; pgid := pgid c; terminateCh := terminateCh c;
     waitResult := waitResult c; waitDoneCh := waitDoneCh c; waitOnce := o |}.

Definition set_ctx_done (b : bool) (w : world) : world :=
  {| cmd := cmd w; ctx_done := b; exited := exited w;
     n_wait := n_wait w; n_getpgid := n_getpgid w; kills := kills w;
     now := now w; timer := timer w; go_watcher := go_watcher w;
     panicked := panicked w; activity := activity w |}.

Definition set_exited (b : bool) (w : world) : world :=
  {| cmd := cmd w; ctx_done := ctx_done w; exited := b;
     n_wait := n_wait w; n_getpgid := n_getpgid w; kills := kills w;
     now := now w; timer := timer w; go_watcher := go_watcher w;
     panicked := panicked w; activity := activity w |}.

Definition set_n_wait (n : nat) (w : world) : world :=
  {| cmd := cmd w; ctx_done := ctx_done w; exited := exited w;
     n_wait := n; n_getpgid := n_getpgid w; kills := kills w;
     now := now w; timer := timer w; go_watcher := go_watcher w;
     panicked := panicked w; activity := activity w |}.

Definition set_n_getpgid (n : nat) (w : world) : world :=
  {| cmd := cmd w; ctx_done := ctx_done w; exited := exited w;
     n_wait := n_wait w; n_getpgid := n; kills := kills w;
     now := now w; timer := timer w; go_watcher := go_watcher w;
     panicked := panicked w; activity := activity w |}.

Definition set_kills (l : list (Z * Signal * nat)) (w : world) : world :=
  {| cmd := cmd w; ctx_done := ctx_done w; exited := exited w;
     n_wait := n_wait w; n_getpgid := n_getpgid w; kills := l;
     now := now w; timer := timer w; go_watcher := go_watcher w;
     panicked := panicked w; activity := activity w |}.

Definition set_now (t : nat) (w : world) : world :=
  {| cmd := cmd w; ctx_done := ctx_done w; exited := exited w;
     n_wait := n_wait w; n_getpgid := n_getpgid w; kills := kills w;
     now := t; timer := timer w; go_watcher := go_watcher w;
     panicked := panicked w; activity := activity w |}.

Definition set_timer (t : option nat) (w : world) : world :=
  {| cmd := cmd w; ctx_done := ctx_done w; exited := exited w;
     n_wait := n_wait w; n_getpgid := n_getpgid w; kills := kills w;
     now := now w; timer := t; go_watcher := go_watcher w;
     panicked := panicked w; activity := activity w |}.

Definition set_go_watcher (b : bool) (w : world) : world :=
  {| cmd := cmd w; ctx_done := ctx_done w; exited := exited w;
     n_wait := n_wait w; n_getpgid := n_getpgid w; kills := kills w;
     now := now w; timer := timer w; go_watcher := b;
     panicked := panicked w; activity := activity w |}.

Definition set_panicked (w : world) : world :=
  {| cmd := cmd w; ctx_done := ctx_done w; exited := exited w;
     n_wait := n_wait w; n_getpgid := n_getpgid w; kills := kills w;
     now := now w; timer := timer w; go_watcher := go_watcher w;
     panicked := true; activity := activity w |}.

Definition Record_ (r : record) (w : world) : world :=
  {| cmd := cmd w; ctx_done := ctx_done w; exited := exited w;
     n_wait := n_wait w; n_getpgid := n_getpgid w; kills := kills w;
     now := now w; timer := timer w; go_watcher := go_watcher w;
     panicked := panicked w; activity := activity w ++ [r] |}.

Section Methods.
Context (os : OS).

(** [exec.Cmd.Start]: fails when the command was started before, and
    otherwise as the operating system decides; on success [Process] is set. *)
Definition Cmd_Start : prog world (option error) :=
  atomic (fun w =>
    match Process (cmd w) with
    | Some _ => (Some "exec: already started", w)
    | None =>
        match os_start os with
        | inl e => (Some e, w)
        | inr pid => (None, set_cmd (set_Process (Some pid)) w)
        end
    end).

(** [exec.Cmd.Wait]: blocks until the process has exited and reports its
    result; a command that was not started or was waited for before is an
    error. Every call is counted in [n_wait]. *)
Definition Cmd_Wait : prog world (option error) :=
  Act (fun w =>
    match Process (cmd w) with
    | None => Some (Some "exec: not started", set_n_wait (S (n_wait w)) w)
    | Some _ =>
        if 0 <? n_wait w
        then Some (Some "exec: Wait was already called", set_n_wait (S (n_wait w)) w)
        else if exited w then Some (os_wait os, set_n_wait (S (n_wait w)) w)
        else None
    end) Ret.

Definition Getpgid : prog world (error + nat) :=
  atomic (fun w => (os_getpgid os (n_getpgid w), set_n_getpgid (S (n_getpgid w)) w)).

(** [syscall.Kill(-cmd.pgid, sig)] *)
Definition Kill (sig : Signal) : prog world (option error) :=
  atomic (fun w =>
    (os_kill os (length (kills w)),
     set_kills (kills w ++ [((- pgid (cmd w))%Z, sig, now w)]) w)).

Definition panic {A : Type} : prog world A := stuck set_panicked.

(** [close(ch)] panics on a closed channel. *)
Definition close (ch : command -> bool) (set : bool -> command -> command) : prog world unit :=
  Act (fun w => Some (ch (cmd w), if ch (cmd w) then set_panicked w else set_cmd (set true) w))
      (fun closed => if closed : bool then halt else Ret tt).

(** [sync.Once.Do(f)]: the first caller runs [f]; callers that arrive while
    it runs block until it has returned; later callers return at once. *)
Definition Once_Do (f : prog world unit) : prog world unit :=
  (first <- Act (fun w =>
      match waitOnce (cmd w) with
      | OnceNew => Some (true, set_cmd (set_waitOnce OnceRunning) w)
      | OnceRunning => None
      | OnceDone => Some (false, w)
      end) Ret ;;
   if first : bool
   then do f ;; write (set_cmd (set_waitOnce OnceDone))
   else Ret tt)%prog.

(** [func (cmd *command) Wait() error] *)
Definition Wait : prog world (option error) :=
  (do Once_Do (
      r <- Cmd_Wait ;;
      do write (set_cmd (set_waitResult r)) ;;
      close waitDoneCh set_waitDoneCh) ;;
   read (fun w => waitResult (cmd w)))%prog.

(** [func (cmd *command) Terminate()] *)
Definition Terminate : prog world unit :=
  (closed <- read (fun w => terminateCh (cmd w)) ;;
   if closed : bool then Ret tt else close terminateCh set_terminateCh)%prog.

(** [func (cmd *command) signal(sig syscall.Signal) error] *)
Definition signal (sig : Signal) : prog world (option error) :=
  (p <- read (fun w => Process (cmd w)) ;;
   match p with
   | None => panic
   | Some _ =>
       g <- read (fun w => pgid (cmd w)) ;;
       err <- (if (g <? 0)%Z
               then r <- Getpgid ;;
                    match r with
                    | inl e => Ret (Some ("could not get pgid: " +:+ e))
                    | inr g' => do write (set_cmd (set_pgid (Z.of_nat g'))) ;; Ret None
                    end
               else Ret None) ;;
       match err with
       | Some e => Ret (Some e)
       | None => Kill sig
       end
   end)%prog.

(** The process group [signal] sends to: [cmd.pgid] when Start() captured
    it, and otherwise what syscall.Getpgid answers now. *)
Definition resolve_pgid (w : world) : error + Z :=
  if (pgid (cmd w) <? 0)%Z
  then match os_getpgid os (n_getpgid w) with
       | inl e => inl e
       | inr g => inr (Z.of_nat g)
       end
  else inr (pgid (cmd w)).

(** The grace period of [time.AfterFunc(5*time.Second, ...)], in milliseconds. *)
Definition grace : nat := 5000.

(** What may have been sent to the process: nothing; or, after a request to
    terminate, SIGTERM to its group; or SIGTERM and, when that was delivered
    and no earlier than the grace period later, SIGKILL to the same group. *)
Definition signals_sent (w : world) : Prop :=
  kills w = [] \/
  (requested w /\ (0 <= pgid (cmd w))%Z /\
   exists t1,
     term_sent (kills w) (pgid (cmd w)) t1 \/
     exists t2, kill_sent (kills w) (pgid (cmd w)) t1 t2 /\
                t1 + grace <= t2 /\ os_kill os 0 = None).

(** The [select] of the goroutine of [Start]: it blocks until one of the
    three channels is closed, and takes one of the ready cases. *)
Definition ready (w : world) : list trigger :=
  (if waitDoneCh (cmd w) then [WaitDone] else []) ++
  (if terminateCh (cmd w) then [Terminated] else []) ++
  (if ctx_done w then [Cancelled] else []).

Definition select : prog world trigger :=
  Act (fun w =>
    match ready w with
    | [] => None
    | t :: ts => Some (nth (os_select os mod length (t :: ts)) (t :: ts) t, w)
    end) Ret.

(** The function given to [time.AfterFunc]: the runtime calls it in a
    goroutine of its own once the deadline has passed. *)
Definition callback : prog world unit :=
  (do await (fun w => match timer w with Some d => d <=? now w | None => false end)
            (fun w => (tt, w)) ;;
   done <- read (fun w => waitDoneCh (cmd w)) ;;
   if done : bool then Ret tt
   else
     do write (Record_ RecSendingSIGKILL) ;;
     err <- signal SIGKILL ;;
     match err with
     | Some e => write (Record_ (RecFailedSIGKILL e))
     | None => Ret tt
     end)%prog.

(** The goroutine of [Start] ("Setup the context-cancellation cleanup").
    [escalate] is what it does between its [select] and its final Wait():
    it sends SIGTERM and, when that was delivered, arms the timer with
    [time.AfterFunc(5*time.Second, callback)]. *)
Definition escalate (desc : trigger) : prog world unit :=
  (do write (Record_ (RecSendingSIGTERM desc)) ;;
   err <- signal SIGTERM ;;
   match err with
   | Some e => write (Record_ (RecFailedSIGTERM e))
   | None => write (fun w => set_timer (Some (now w + grace)) w)
   end)%prog.

(** The goroutine from its [select] on. *)
Definition watching : prog world unit :=
  (desc <- select ;;
   match desc with
   | WaitDone => Ret tt
   | _ => do escalate desc ;; _ <- Wait ;; Ret tt
   end)%prog.

(** The goroutine starts to run once the [go] statement has been executed. *)
Definition watcher : prog world unit :=
  (do await go_watcher (fun w => (tt, w)) ;; watching)%prog.

(** [func (cmd *command) Start() error] *)
Definition Start : prog world (option error) :=
  (err <- Cmd_Start ;;
   match err with
   | Some e => Ret (Some e)
   | None =>
       r <- Getpgid ;;
       do match r with
          | inl e => write (Record_ (RecNoPgid e))
          | inr g => write (set_cmd (set_pgid (Z.of_nat g)))
          end ;;
       do write (set_go_watcher true) ;;
       Ret None
   end)%prog.

(** [func (cmd *command) Run() error] *)
Definition Run : prog world (option error) :=
  (err <- Start ;;
   match err with
   | Some e => Ret (Some e)
   | None => Wait
   end)%prog.

(** Run() as the composition the claim describes: Start(), and Wait() only
    when Start() returned no error. *)
Definition Start_then_Wait (w : world) : option (option error * world) :=
  match exec Start w with
  | Some (Some e, w1) => Some (Some e, w1)
  | Some (None, w1) => exec Wait w1
  | None => None
  end.

(** *** The goroutines around one command

    Callers use the command from goroutines of their own; each makes a
    sequence of calls and returns the results of its Wait() calls. *)
Inductive call := CallWait | CallTerminate.

Fixpoint caller (results : list (option error)) (cs : list call)
  : prog world (list (option error)) :=
  match cs with
  | [] => Ret results
  | CallWait :: cs' => (r <- Wait ;; caller (results ++ [r]) cs')%prog
  | CallTerminate :: cs' => (do Terminate ;; caller results cs')%prog
  end.

(** Goroutines that only call Wait(): the i-th calls it [ns !! i] times. *)
Definition waiters (ns : list nat) : list (list call) := map (repeat CallWait) ns.

Definition goroutines (callers : list (list call)) : list (prog world (list (option error))) :=
  (do watcher ;; Ret [])%prog :: (do callback ;; Ret [])%prog :: map (caller []) callers.

(** The world in which Start() has just returned, started from NewCommand. *)
Definition started : world :=
  match exec Start NewCommand with
  | Some (_, w) => w
  | None => NewCommand
  end.

(** What happens around the goroutines: one of them takes a step, time
    passes, the process exits, the context is cancelled. A panic stops the
    program. *)
Inductive event := Sched (i : nat) | Tick (d : nat) | Exit | Cancel.

Definition step (c : world * list (prog world (list (option error)))) (e : event)
  : world * list (prog world (list (option error))) :=
  if panicked c.1 then c
  else match e with
       | Sched i => step_thread i c
       | Tick d => (set_now (now c.1 + d) c.1, c.2)
       | Exit => (set_exited true c.1, c.2)
       | Cancel => (set_ctx_done true c.1, c.2)
       end.

Definition run (es : list event) (c : world * list (prog world (list (option error))))
  : world * list (prog world (list (option error))) :=
  fold_left step es c.

End Methods.

End Command.

(** *** Program points of the goroutines around a command

    To reason about every interleaving, each goroutine is followed through
    the points of its code: [*_code q] is what remains to be run from point
    [q], and [*_next q w] is the step taken there in world [w]. *)

Module CommandPoints.
Import Prog Command.

(** Points of Wait(). *)
Inductive wpt :=
| WEnter                     (* cmd.waitOnce.Do *)
| WCall                      (* cmd.Cmd.Wait() *)
| WStore (r : option error)  (* cmd.waitResult = ... *)
| WClose                     (* close(cmd.waitDoneCh) *)
| WLeave                     (* the Once is marked done *)
| WRead                      (* return cmd.waitResult *)
| WHalt.                     (* after a panic *)

(** Points of Terminate(). *)
Inductive tpt := TCheck | TClose | THalt.

(** Points of signal(sig). *)
Inductive spt :=
| SProcess                   (* if cmd.Process == nil *)
| SPanic                     (* panic(...) *)
| SPgid                      (* if cmd.pgid < 0 *)
| SGetpgid                   (* syscall.Getpgid *)
| SSetPgid (g : nat)         (* cmd.pgid = pgid *)
| SKill                      (* syscall.Kill *)
| SHalt.

(** Points of a caller: the results so far, the calls still to make, and the
    point in the current call. *)
Inductive cpt :=
| CReturn
| CWait (q : wpt)
| CTerminate (q : tpt).

(** Points of the goroutine of Start(). *)
Inductive gpt :=
| GStart                               (* not yet started by the go statement *)
| GSelect
| GRecord (desc : trigger)             (* "Sending SIGTERM signal" *)
| GSignal (q : spt)                    (* cmd.signal(syscall.SIGTERM) *)
| GAfter (err : option error)          (* record the failure, or time.AfterFunc *)
| GWait (q : wpt)                      (* _ = cmd.Wait() *)
| GReturn.

(** Points of the function given to time.AfterFunc. *)
Inductive kpt :=
| KTimer                               (* the deadline has not passed *)
| KCheck                               (* select on cmd.waitDoneCh *)
| KRecord                              (* "Sending SIGKILL signal" *)
| KSignal (q : spt)                    (* cmd.signal(syscall.SIGKILL) *)
| KFailed (e : error)
| KReturn.

Inductive pt :=
| PCaller (results : list (option error)) (cs : list call) (q : cpt)
| PWatcher (q : gpt)
| PCallback (q : kpt).

Section Points.
Context (os : OS).

Definition wait_body : prog world unit :=
  (r <- Cmd_Wait os ;;
   do write (set_cmd (set_waitResult r)) ;;
   close waitDoneCh set_waitDoneCh)%prog.

Definition wait_return : prog world (option error) :=
  read (fun w => waitResult (cmd w)).

Definition wait_code (q : wpt) : prog world (option error) :=
  match q with
  | WEnter => Wait os
  | WCall => (do (do wait_body ;; write (set_cmd (set_waitOnce OnceDone))) ;; wait_return)%prog
  | WStore r =>
      (do (do (do write (set_cmd (set_waitResult r)) ;; close waitDoneCh set_waitDoneCh) ;;
           write (set_cmd (set_waitOnce OnceDone))) ;; wait_return)%prog
  | WClose =>
      (do (do close waitDoneCh set_waitDoneCh ;;
           write (set_cmd (set_waitOnce OnceDone))) ;; wait_return)%prog
  | WLeave => (do write (set_cmd (set_waitOnce OnceDone)) ;; wait_return)%prog
  | WRead => wait_return
  | WHalt =>
      (do (do @halt world unit ;; write (set_cmd (set_waitOnce OnceDone))) ;; wait_return)%prog
  end.

Definition wait_next (q : wpt) (w : world) : option (world * (wpt + option error)) :=
  match q with
  | WEnter =>
      match waitOnce (cmd w) with
      | OnceNew => Some (set_cmd (set_waitOnce OnceRunning) w, inl WCall)
      | OnceRunning => None
      | OnceDone => Some (w, inl WRead)
      end
  | WCall =>
      match Process (cmd w) with
      | None => Some (set_n_wait (S (n_wait w)) w, inl (WStore (Some "exec: not started")))
      | Some _ =>
          if 0 <? n_wait w
          then Some (set_n_wait (S (n_wait w)) w, inl (WStore (Some "exec: Wait was already called")))
          else if exited w then Some (set_n_wait (S (n_wait w)) w, inl (WStore (os_wait os)))
          else None
      end
  | WStore r => Some (set_cmd (set_waitResult r) w, inl WClose)
  | WClose =>
      if waitDoneCh (cmd w) then Some (set_panicked w, inl WHalt)
      else Some (set_cmd (set_waitDoneCh true) w, inl WLeave)
  | WLeave => Some (set_cmd (set_waitOnce OnceDone) w, inl WRead)
  | WRead => Some (w, inr (waitResult (cmd w)))
  | WHalt => None
  end.

Definition terminate_code (q : tpt) : prog world unit :=
  match q with
  | TCheck => Terminate
  | TClose => close terminateCh set_terminateCh
  | THalt => halt
  end.

Definition terminate_next (q : tpt) (w : world) : option (world * (tpt + unit)) :=
  match q with
  | TCheck => if terminateCh (cmd w) then Some (w, inr tt) else Some (w, inl TClose)
  | TClose =>
      if terminateCh (cmd w) then Some (set_panicked w, inl THalt)
      else Some (set_cmd (set_terminateCh true) w, inr tt)
  | THalt => None
  end.

Definition signal_tail (sig : Signal) (err : option error) : prog world (option error) :=
  match err with
  | Some e => Ret (Some e)
  | None => Kill os sig
  end.

Definition signal_code (sig : Signal) (q : spt) : prog world (option error) :=
  match q with
  | SProcess => signal os sig
  | SPanic => panic
  | SPgid =>
      (g <- read (fun w => pgid (cmd w)) ;;
       err <- (if (g <? 0)%Z
               then r <- Getpgid os ;;
                    match r with
                    | inl e => Ret (Some ("could not get pgid: " +:+ e))
                    | inr g' => do write (set_cmd (set_pgid (Z.of_nat g'))) ;; Ret None
                    end
               else Ret None) ;;
       signal_tail sig err)%prog
  | SGetpgid =>
      (err <- (r <- Getpgid os ;;
               match r with
               | inl e => Ret (Some ("could not get pgid: " +:+ e))
               | inr g' => do write (set_cmd (set_pgid (Z.of_nat g'))) ;; Ret None
               end) ;;
       signal_tail sig err)%prog
  | SSetPgid g' =>
      (err <- (do write (set_cmd (set_pgid (Z.of_nat g'))) ;; Ret None) ;; signal_tail sig err)%prog
  | SKill => Kill os sig
  | SHalt => halt
  end.

Definition signal_next (sig : Signal) (q : spt) (w : world) : option (world * (spt + option error)) :=
  match q with
  | SProcess =>
      match Process (cmd w) with
      | None => Some (w, inl SPanic)
      | Some _ => Some (w, inl SPgid)
      end
  | SPanic => Some (set_panicked w, inl SHalt)
  | SPgid => if (pgid (cmd w) <? 0)%Z then Some (w, inl SGetpgid) else Some (w, inl SKill)
  | SGetpgid =>
      match os_getpgid os (n_getpgid w) with
      | inl e => Some (set_n_getpgid (S (n_getpgid w)) w, inr (Some ("could not get pgid: " +:+ e)))
      | inr g => Some (set_n_getpgid (S (n_getpgid w)) w, inl (SSetPgid g))
      end
  | SSetPgid g => Some (set_cmd (set_pgid (Z.of_nat g)) w, inl SKill)
  | SKill =>
      Some (set_kills (kills w ++ [((- pgid (cmd w))%Z, sig, now w)]) w,
            inr (os_kill os (length (kills w))))
  | SHalt => None
  end.

(** The first point of a caller that has [cs] still to call. *)
Definition calls (results : list (option error)) (cs : list call) : pt :=
  match cs with
  | [] => PCaller results [] CReturn
  | CallWait :: cs' => PCaller results cs' (CWait WEnter)
  | CallTerminate :: cs' => PCaller results cs' (CTerminate TCheck)
  end.

Definition escalate_after (err : option error) : prog world unit :=
  match err with
  | Some e => write (Record_ (RecFailedSIGTERM e))
  | None => write (fun w => set_timer (Some (now w + grace)) w)
  end.

Definition watcher_wait : prog world unit :=
  (_ <- Wait os ;; Ret tt)%prog.

Definition watcher_code (q : gpt) : prog world unit :=
  match q with
  | GStart => watcher os
  | GSelect =>
      (desc <- select os ;;
       match desc with
       | WaitDone => Ret tt
       | _ => do escalate os desc ;; watcher_wait
       end)%prog
  | GRecord desc => (do escalate os desc ;; watcher_wait)%prog
  | GSignal q =>
      (do (err <- signal_code SIGTERM q ;; escalate_after err) ;; watcher_wait)%prog
  | GAfter err => (do escalate_after err ;; watcher_wait)%prog
  | GWait q => (_ <- wait_code q ;; Ret tt)%prog
  | GReturn => Ret tt
  end.

Definition callback_failed (err : option error) : prog world unit :=
  match err with
  | Some e => write (Record_ (RecFailedSIGKILL e))
  | None => Ret tt
  end.

Definition callback_code (q : kpt) : prog world unit :=
  match q with
  | KTimer => callback os
  | KCheck =>
      (done <- read (fun w => waitDoneCh (cmd w)) ;;
       if done : bool then Ret tt
       else do write (Record_ RecSendingSIGKILL) ;;
            err <- signal os SIGKILL ;;
            callback_failed err)%prog
  | KRecord =>
      (do write (Record_ RecSendingSIGKILL) ;;
       err <- signal os SIGKILL ;;
       callback_failed err)%prog
  | KSignal q => (err <- signal_code SIGKILL q ;; callback_failed err)%prog
  | KFailed e => write (Record_ (RecFailedSIGKILL e))
  | KReturn => Ret tt
  end.

Definition code (q : pt) : prog world (list (option error)) :=
  match q with
  | PCaller results cs CReturn => Ret results
  | PCaller results cs (CWait q) => (r <- wait_code q ;; caller os (results ++ [r]) cs)%prog
  | PCaller results cs (CTerminate q) => (do terminate_code q ;; caller os results cs)%prog
  | PWatcher q => (do watcher_code q ;; Ret [])%prog
  | PCallback q => (do callback_code q ;; Ret [])%prog
  end.

(** The step of a goroutine at a point. *)
Definition next (q : pt) (w : world) : option (world * pt) :=
  match q with
  | PCaller results cs CReturn => None
  | PCaller results cs (CWait q) =>
      match wait_next q w with
      | Some (w', inl q') => Some (w', PCaller results cs (CWait q'))
      | Some (w', inr r) => Some (w', calls (results ++ [r]) cs)
      | None => None
      end
  | PCaller results cs (CTerminate q) =>
      match terminate_next q w with
      | Some (w', inl q') => Some (w', PCaller results cs (CTerminate q'))
      | Some (w', inr _) => Some (w', calls results cs)
      | None => None
      end
  | PWatcher GStart => if go_watcher w then Some (w, PWatcher GSelect) else None
  | PWatcher GSelect =>
      match ready w with
      | [] => None
      | t :: ts =>
          match nth (os_select os mod length (t :: ts)) (t :: ts) t with
          | WaitDone => Some (w, PWatcher GReturn)
          | desc => Some (w, PWatcher (GRecord desc))
          end
      end
  | PWatcher (GRecord desc) => Some (Record_ (RecSendingSIGTERM desc) w, PWatcher (GSignal SProcess))
  | PWatcher (GSignal q) =>
      match signal_next SIGTERM q w with
      | Some (w', inl q') => Some (w', PWatcher (GSignal q'))
      | Some (w', inr err) => Some (w', PWatcher (GAfter err))
      | None => None
      end
  | PWatcher (GAfter (Some e)) => Some (Record_ (RecFailedSIGTERM e) w, PWatcher (GWait WEnter))
  | PWatcher (GAfter None) => Some (set_timer (Some (now w + grace)) w, PWatcher (GWait WEnter))
  | PWatcher (GWait q) =>
      match wait_next q w with
      | Some (w', inl q') => Some (w', PWatcher (GWait q'))
      | Some (w', inr _) => Some (w', PWatcher GReturn)
      | None => None
      end
  | PWatcher GReturn => None
  | PCallback KTimer =>
      if match timer w with Some d => d <=? now w | None => false end
      then Some (w, PCallback KCheck) else None
  | PCallback KCheck =>
      if waitDoneCh (cmd w) then Some (w, PCallback KReturn) else Some (w, PCallback KRecord)
  | PCallback KRecord => Some (Record_ RecSendingSIGKILL w, PCallback (KSignal SProcess))
  | PCallback (KSignal q) =>
      match signal_next SIGKILL q w with
      | Some (w', inl q') => Some (w', PCallback (KSignal q'))
      | Some (w', inr (Some e)) => Some (w', PCallback (KFailed e))
      | Some (w', inr None) => Some (w', PCallback KReturn)
      | None => None
      end
  | PCallback (KFailed e) => Some (Record_ (RecFailedSIGKILL e) w, PCallback KReturn)
  | PCallback KReturn => None
  end.

(** A goroutine at a point that is scheduled [n] times in a row; a panic
    stops it. *)
Fixpoint advance (n : nat) (q : pt) (w : world) : world * pt :=
  match n with
  | 0 => (w, q)
  | S n' =>
      if panicked w then (w, q)
      else match next q w with
           | Some (w', q') => advance n' q' w'
           | None => advance n' q w
           end
  end.

(** The points at which the goroutines of a started command begin. *)
Definition initial (callers : list (list call)) : list pt :=
  PWatcher GStart :: PCallback KTimer :: map (calls []) callers.

(** The goroutine of Start() is the first of the pool and the function of
    the timer the second. *)
Definition pt_watcher (pts : list pt) : option gpt :=
  match pts !! 0 with
  | Some (PWatcher gq) => Some gq
  | _ => None
  end.

Definition pt_callback (pts : list pt) : option kpt :=
  match pts !! 1 with
  | Some (PCallback kq) => Some kq
  | _ => None
  end.

(** *** The invariant of Wait()

    A goroutine is inside the function of the Once from the call of
    exec.Cmd.Wait until the Once is marked done. *)
Definition wpt_of (q : pt) : option wpt :=
  match q with
  | PCaller _ _ (CWait q) => Some q
  | PWatcher (GWait q) => Some q
  | _ => None
  end.

Definition in_once (q : wpt) : bool :=
  match q with
  | WCall | WStore _ | WClose | WLeave => true
  | _ => false
  end.

(** What a goroutine at a point of Wait() knows about the world. *)
Definition wait_local (q : wpt) (w : world) : Prop :=
  match q with
  | WEnter => True
  | WCall => waitOnce (cmd w) = OnceRunning /\ n_wait w = 0 /\ waitDoneCh (cmd w) = false
  | WStore r =>
      waitOnce (cmd w) = OnceRunning /\ n_wait w = 1 /\ r = os_wait os /\
      waitDoneCh (cmd w) = false
  | WClose =>
      waitOnce (cmd w) = OnceRunning /\ n_wait w = 1 /\ waitResult (cmd w) = os_wait os /\
      waitDoneCh (cmd w) = false
  | WLeave =>
      waitOnce (cmd w) = OnceRunning /\ n_wait w = 1 /\ waitResult (cmd w) = os_wait os
  | WRead => waitOnce (cmd w) = OnceDone
  | WHalt => False
  end.

Definition once_state (w : world) : Prop :=
  match waitOnce (cmd w) with
  | OnceNew => n_wait w = 0 /\ waitDoneCh (cmd w) = false
  | OnceRunning => True
  | OnceDone => n_wait w = 1 /\ waitResult (cmd w) = os_wait os
  end.

(** What the invariant of Wait() reads of the world. *)
Definition wait_view (w : world) : option nat * once * nat * option error * bool :=
  (Process (cmd w), waitOnce (cmd w), n_wait w, waitResult (cmd w), waitDoneCh (cmd w)).

Definition results_of (q : pt) : list (option error) :=
  match q with
  | PCaller results _ _ => results
  | _ => []
  end.

Definition inside (q : pt) : bool :=
  match wpt_of q with
  | Some wq => in_once wq
  | None => false
  end.

(** The number of goroutines inside the function of the Once. *)
Definition count_inside (pts : list pt) : nat :=
  length (filter (fun q => inside q = true) pts).

Definition pt_local (w : world) (q : pt) : Prop :=
  (forall wq, wpt_of q = Some wq -> wait_local wq w) /\
  (forall r, In r (results_of q) -> r = os_wait os /\ waitOnce (cmd w) = OnceDone).

Record wait_invariant (w : world) (pts : list pt) : Prop := {
  wi_started : Process (cmd w) <> None;
  wi_once : once_state w;
  wi_local : forall i q, pts !! i = Some q -> pt_local w q;
  wi_count : count_inside pts =
             match waitOnce (cmd w) with OnceRunning => 1 | _ => 0 end
}.

(** *** The invariant of the signals

    What the goroutine of Start() at point [gq] and the function of the
    timer at point [kq] know of the signals sent [ks], the timer [tm], the
    group id [g] and the time [t]; [req] says that termination has been
    requested. *)
Definition before_signal (ks : list (Z * Signal * nat)) (tm : option nat) (kq : kpt) (req : Prop) : Prop :=
  ks = [] /\ tm = None /\ kq = KTimer /\ req.

Definition callback_inv (kq : kpt) (ks : list (Z * Signal * nat)) (g : Z) (t d t1 : nat) : Prop :=
  match kq with
  | KTimer => term_sent ks g t1
  | KCheck | KRecord | KSignal SProcess | KSignal SPgid | KSignal SKill =>
      term_sent ks g t1 /\ d <= t
  | KSignal _ => False
  | KFailed _ | KReturn =>
      term_sent ks g t1 \/ exists t2, kill_sent ks g t1 t2 /\ d <= t2
  end.

Definition signal_inv_at (gq : gpt) (kq : kpt) (ks : list (Z * Signal * nat))
    (tm : option nat) (g : Z) (t : nat) (req : Prop) : Prop :=
  match gq with
  | GStart | GSelect => ks = [] /\ tm = None /\ kq = KTimer
  | GRecord _ => before_signal ks tm kq req
  | GSignal SPanic | GSignal SHalt => False
  | GSignal SKill => before_signal ks tm kq req /\ (0 <= g)%Z
  | GSignal _ => before_signal ks tm kq req
  | GAfter None =>
      tm = None /\ kq = KTimer /\ req /\ (0 <= g)%Z /\ os_kill os 0 = None /\
      exists t1, term_sent ks g t1 /\ t1 <= t
  | GAfter (Some e) =>
      tm = None /\ kq = KTimer /\ req /\
      (ks = [] \/ ((0 <= g)%Z /\ os_kill os 0 = Some e /\ exists t1, term_sent ks g t1))
  | GWait _ | GReturn =>
      match tm with
      | None =>
          kq = KTimer /\
          (ks = [] \/
           (req /\ (0 <= g)%Z /\ os_kill os 0 <> None /\ exists t1, term_sent ks g t1))
      | Some d =>
          req /\ (0 <= g)%Z /\ os_kill os 0 = None /\
          exists t1, t1 + grace <= d /\ callback_inv kq ks g t d t1
      end
  end.

Definition signal_inv (gq : gpt) (kq : kpt) (w : world) : Prop :=
  Process (cmd w) <> None /\
  signal_inv_at gq kq (kills w) (timer w) (pgid (cmd w)) (now w) (requested w).

Definition is_caller (q : pt) : Prop :=
  match q with
  | PCaller _ _ _ => True
  | _ => False
  end.

Record signal_invariant (w : world) (pts : list pt) : Prop := {
  si_watcher : pt_watcher pts <> None;
  si_callback : pt_callback pts <> None;
  si_callers : forall i q, 2 <= i -> pts !! i = Some q -> is_caller q;
  si_inv : forall gq kq, pt_watcher pts = Some gq -> pt_callback pts = Some kq ->
           signal_inv gq kq w
}.

(** *** Goroutines that only wait

    The calls of Wait() that a goroutine at a point has not yet returned
    from, and with the results it has the calls of Wait() it makes in all.
    A point is calm when nothing the goroutine does from there can panic:
    what is left to call is Wait() only, and signal has found the process. *)
Definition pending (q : pt) : nat :=
  match q with
  | PCaller _ cs (CWait _) => S (length cs)
  | _ => 0
  end.

Definition total (q : pt) : nat := length (results_of q) + pending q.

Definition waits (cs : list call) : bool :=
  forallb (fun c => match c with CallWait => true | CallTerminate => false end) cs.

Definition calm (q : pt) : bool :=
  match q with
  | PCaller _ cs CReturn => match cs with [] => true | _ => false end
  | PCaller _ cs (CWait _) => waits cs
  | PCaller _ _ (CTerminate _) => false
  | PWatcher (GSignal SPanic) | PWatcher (GSignal SHalt) => false
  | PCallback (KSignal SPanic) | PCallback (KSignal SHalt) => false
  | _ => true
  end.

(** The invariant of a program whose callers only wait: [tot] are the calls
    of Wait() each goroutine makes in all, and [ex] says that the process is
    known to have exited. *)
Record waiting_invariant (tot : list nat) (ex : bool) (w : world) (pts : list pt) : Prop := {
  wt_wait : wait_invariant w pts;
  wt_panicked : panicked w = false;
  wt_exited : ex = true -> exited w = true;
  wt_calm : forall i q, pts !! i = Some q -> calm q = true;
  wt_callers : forall i q, 2 <= i -> pts !! i = Some q -> is_caller q;
  wt_total : total <$> pts = tot
}.

End Points.

End CommandPoints.

(** ** The kubernetes pod entry: Exec *)

Module Pod.
Import Prog.

(** The errors Exec meets: an [ExitError] of k8s.io/client-go/util/exec,
    which carries the exit status of the remote command; any other error
    (connection reset, malformed response); an error wrapped by
    [errors.Wrap]. *)
Inductive error :=
| ExitError (status : Z)
| OtherError (msg : string)
| Wrap (cause : error) (msg : string).

(** The cluster as seen by one call of Exec: what
    [remotecommand.NewSPDYExecutor] answers (an error, or an executor) and
    how [executor.Stream] ends. *)
Record Cluster := {
  new_executor : option error;
  stream : option error
}.

(** The variables shared by Exec, its goroutine and the exit-code callback,
    and the two output sinks. *)
Record session := {
  err : option error;                    (* the variable err of Exec *)
  exitcode : Z;                          (* the variable exitcode of Exec *)
  started : bool;                        (* the go statement has been executed *)
  stdout_closed : list (option error);   (* calls of stdout.CloseWithError *)
  stderr_closed : list (option error)    (* calls of stderr.CloseWithError *)
}.

Definition fresh : session :=
  {| err := None; exitcode := 0%Z; started := false; stdout_closed := []; stderr_closed := [] |}.

Definition set_err (e : option error) (s : session) : session :=
  {| err := e; exitcode := exitcode s; started := started s;
     stdout_closed := stdout_closed s; stderr_closed := stderr_closed s |}.

Definition set_exitcode (c : Z) (s : session) : session :=
  {| err := err s; exitcode := c; started := started s;
     stdout_closed := stdout_closed s; stderr_closed := stderr_closed s |}.

Definition set_started (s : session) : session :=
  {| err := err s; exitcode := exitcode s; started := true;
     stdout_closed := stdout_closed s; stderr_closed := stderr_closed s |}.

Definition close_stdout (e : option error) (s : session) : session :=
  {| err := err s; exitcode := exitcode s; started := started s;
     stdout_closed := stdout_closed s ++ [e]; stderr_closed := stderr_closed s |}.

Definition close_stderr (e : option error) (s : session) : session :=
  {| err := err s; exitcode := exitcode s; started := started s;
     stdout_closed := stdout_closed s; stderr_closed := stderr_closed s ++ [e] |}.

Section Exec.
Context (k : Cluster).

(** The exit-code callback: [func() (int, error) { return exitcode, nil }] *)
Definition ExitCodeCB : prog session (Z * option error) :=
  read (fun s => (exitcode s, None)).

(** The goroutine of Exec. *)
Definition streaming : prog session unit :=
  (do await started (fun s => (tt, s)) ;;
   do write (set_err (stream k)) ;;                 (* err = executor.Stream(streamOpts) *)
   e <- read err ;;
   do match e with
      | Some (ExitError status) =>                  (* exerr, ok := err.(k8exec.ExitError) *)
          do write (set_exitcode status) ;;
          write (set_err None)
      | _ => Ret tt
      end ;;
   e <- read err ;;
   do write (close_stdout e) ;;
   e <- read err ;;
   write (close_stderr e))%prog.

(** [func (p *pod) Exec(...) (plugin.ExecResult, error)]: the result is the
    error; on success the caller holds the output channel and [ExitCodeCB]. *)
Definition Exec : prog session (option error) :=
  (do write (set_err (new_executor k)) ;;       (* executor, err := NewSPDYExecutor(...) *)
   e <- read err ;;
   match e with
   | Some cause => Ret (Some (Wrap cause "kubernetes.pod.Exec request"))
   | None =>
       do write (set_exitcode 0%Z) ;;
       do write set_started ;;
       Ret None
   end)%prog.

(** A session from the call of Exec until the stream has ended and the
    caller asks for the exit code. *)
Definition exit_code_after_stream : prog session (Z * option error) :=
  (e <- Exec ;;
   match e with
   | Some _ => Ret (0%Z, e)
   | None => do streaming ;; ExitCodeCB
   end)%prog.

End Exec.

End Pod.

(** ** The kubernetes pvc entry *)

Module Pvc.
Import Prog.

(** *** Values *)

(** [plugin.Attributes]; [Mode] is an [os.FileMode], whose bit 31 is
    [os.ModeDir]. *)
Record Attributes := {
  Atime : N;
  Mtime : N;
  Ctime : N;
  Mode : N;
  Size : N
}.

Definition zero_Attributes : Attributes :=
  {| Atime := 0%N; Mtime := 0%N; Ctime := 0%N; Mode := 0%N; Size := 0%N |}.

(** [attr.Mode.IsDir()] *)
Definition IsDir (a : Attributes) : bool := N.testbit (Mode a) 31.

(** The listing of one directory, [map[string]plugin.Attributes], and the
    listings of all directories of a volume as [plugin.StatParseAll] gives
    them, by directory path. *)
Abbreviation AttrMap := (gmap string Attributes).
Abbreviation DirMap := (gmap string (gmap string Attributes)).

(** The errors of this file. [errPodTerminated] is the package variable the
    code compares with; the next three are built by [fmt.Errorf] in
    [waitForPod]; [New] is [errors.New]; [External] is an error returned by
    the cluster, by gob or by the stat parser. *)
Inductive error :=
| errPodTerminated
| ENOENT
| ChannelError (pid : string)
| PodErrored (pid obj : string)
| TimedOut (pid : string)
| New (msg : string)
| External (msg : string).


(** [err == errPodTerminated] *)
Definition is_errPodTerminated (e : option error) : bool :=
  match e with
  | Some errPodTerminated => true
  | _ => false
  end.

(** The phases of a pod and what the channel of a watch delivers: an event,
    or the fact that it is closed. *)
Inductive phase := PodPending | PodRunning | PodSucceeded | PodFailed | PodUnknown.

Inductive item :=
| Closed
| Added
| Modified (ph : phase)
| Deleted
| Bookmark
| ErrorEvent (obj : string).

(** An [io.ReadCloser] over the log of a pod: the bytes it yields, and the
    error it ends with ([None]: end of file). *)
Definition reader : Type := list byte * option error.

(** The nodes [plugin.NewDir] and [plugin.NewFile] wrap an entry in. *)
Inductive Node := NewDir (entry : nat) | NewFile (entry : nat).

(** The collaborators of the entry. The cluster: what the n-th
    [Pods(ns).Create] answers (an error or the generated name), what
    [Watch] answers for a pod, what the channel of the watch delivers (each
    item with the milliseconds that pass before it arrives; nothing arrives
    after the last), and what [GetLogs(pid).Stream()] answers. The plugin
    package: [StatCmd] and [StatParseAll]. [encoding/gob]. The order in which
    [range] walks a map. *)
Record Collaborators := {
  k_Create : nat -> error + string;
  k_Watch : string -> option error;
  k_ResultChan : string -> list (N * item);
  k_GetLogs : string -> error + reader;
  StatCmd : string -> list string;
  StatParseAll : reader -> string -> error + DirMap;
  gob_Encode : AttrMap -> error + list byte;
  gob_Decode : list byte -> error + AttrMap;
  range_dirs : DirMap -> list (string * AttrMap);
  range_attrs : AttrMap -> list (string * Attributes)
}.

(** *** The world *)

(** What the methods reach through the embedded [*resourcetype]: the name of
    the client and the field [updated]. (Its [cache] and the cluster API are
    components of the world.) *)
Record resourcetype := {
  client_Name : string;
  updated : N
}.

(** [struct pvc]; [resourcetype_] is the embedded pointer, [mux] tells
    whether the mutex is locked. *)
Record pvc := {
  resourcetype_ : nat;
  name : string;
  ns : string;
  path : string;
  attr : Attributes;
  mux : bool
}.

Definition nil_pvc : pvc :=
  {| resourcetype_ := 0; name := ""; ns := ""; path := ""; attr := zero_Attributes; mux := false |}.

Definition nil_resourcetype : resourcetype := {| client_Name := ""; updated := 0%N |}.

(** The calls made to the cluster. *)
Inductive call :=
| PodCreate (ns claim : string) (args : list string) (res : error + string)
| PodWatch (pid : string)
| WatchStop (pid : string)
| PodGetLogs (pid : string)
| LogsClose (pid : string)
| PodDelete (pid : string).

Record world := {
  heap : list pvc;                     (* the pvc objects; a pointer is an index *)
  types : list resourcetype;           (* the resourcetype objects *)
  cache : gmap string (list byte);     (* the cache of the datastore *)
  locks : gset string;                 (* the keys whose lock is held *)
  calls : list call;                   (* the calls to the cluster, oldest first *)
  clock : N                            (* milliseconds *)
}.

Definition set_heap (h : list pvc) (w : world) : world :=
  {| heap := h; types := types w; cache := cache w; locks := locks w;
     calls := calls w; clock := clock w |}.

Definition set_types (t : list resourcetype) (w : world) : world :=
  {| heap := heap w; types := t; cache := cache w; locks := locks w;
     calls := calls w; clock := clock w |}.

Definition set_cache (c : gmap string (list byte)) (w : world) : world :=
  {| heap := heap w; types := types w; cache := c; locks := locks w;
     calls := calls w; clock := clock w |}.

Definition set_locks (l : gset string) (w : world) : world :=
  {| heap := heap w; types := types w; cache := cache w; locks := l;
     calls := calls w; clock := clock w |}.

Definition called (c : call) (w : world) : world :=
  {| heap := heap w; types := types w; cache := cache w; locks := locks w;
     calls := calls w ++ [c]; clock := clock w |}.

Definition sleep (d : N) (w : world) : world :=
  {| heap := heap w; types := types w; cache := cache w; locks := locks w;
     calls := calls w; clock := (clock w + d)%N |}.

Definition set_mux (b : bool) (c : pvc) : pvc :=
  {| resourcetype_ := resourcetype_ c; name := name c; ns := ns c; path := path c;
     attr := attr c; mux := b |}.

Definition set_updated (t : N) (r : resourcetype) : resourcetype :=
  {| client_Name := client_Name r; updated := t |}.

(** [*cli] and [*cli.resourcetype] *)
Definition deref (w : world) (cli : nat) : pvc := default nil_pvc (heap w !! cli).

Definition deref_type (w : world) (cli : nat) : resourcetype :=
  default nil_resourcetype (types w !! resourcetype_ (deref w cli)).

(** The number of pods created so far. *)
Definition is_created (c : call) : bool :=
  match c with
  | PodCreate _ _ _ (inr _) => true
  | _ => false
  end.

Definition is_create (c : call) : bool :=
  match c with
  | PodCreate _ _ _ _ => true
  | _ => false
  end.

Definition created (w : world) : nat := length (filter (fun c => is_created c = true) (calls w)).

Definition is_delete (pid : string) (c : call) : bool :=
  match c with
  | PodDelete pid' => String.eqb pid pid'
  | _ => false
  end.

Definition deleted (pid : string) (w : world) : nat :=
  length (filter (fun c => is_delete pid c = true) (calls w)).

(** *** The datastore

    The package [datastore] is not among the sources. *)

(** Modelled from the spec: [datastore.Keys] is missing; "acquires locks for
    a list of related keys (e.g., a path and all its ancestors) in a fixed
    order", "shallowest path first". The ancestors of /a/b are the empty
    path, /a and /a/b (47 is the code of the slash). *)
Fixpoint ancestors (done : string) (rest : string) : list string :=
  match rest with
  | EmptyString => [done]
  | String c rest' =>
      (if Ascii.eqb c (Ascii.ascii_of_nat 47) then [done] else []) ++
      ancestors (done +:+ String c EmptyString) rest'
  end.

Definition Keys (base path suffix : string) : list string :=
  map (fun p => base +:+ p +:+ suffix) (ancestors "" path).

(** Modelled from the spec: [cache.LocksForKeys] is missing; the lock table
    maps a key to its mutex, "lazily created, never removed". A mutex is
    named by its key. *)
Definition LocksForKeys (keys : list string) : list string := keys.

Definition Lock (k : string) : prog world unit :=
  await (fun w => bool_decide (k ∉ locks w)) (fun w => (tt, set_locks ({[k]} ∪ locks w) w)).

Definition Unlock (k : string) : prog world unit :=
  write (fun w => set_locks (locks w ∖ {[k]}) w).

(** Modelled from the spec: [cache.Get] is missing; "non-blocking lookup";
    a missing entry is the error. Expiry of entries is not modelled. *)
Definition cache_Get (key : string) : prog world (option (list byte)) :=
  read (fun w => cache w !! key).

Section Methods.
Context (k : Collaborators).

(** Modelled from the spec: [cache.SetAny] is missing; it stores the
    serialized value, and "a failure to persist a computed value" is the
    error it returns. *)
Definition cache_SetAny (key : string) (v : AttrMap) : prog world (option error) :=
  atomic (fun w =>
    match gob_Encode k v with
    | inl e => (Some e, w)
    | inr bits => (None, set_cache (<[key := bits]> (cache w)) w)
    end).

(** Modelled from the spec: [cache.SetSlow] is missing; it stores the bytes. *)
Definition cache_SetSlow (key : string) (bits : list byte) : prog world unit :=
  write (fun w => set_cache (<[key := bits]> (cache w)) w).

(** *** The methods of pvc *)

(** [for _, l := range locks { l.Lock(); defer l.Unlock() }] followed by
    [body]: the deferred calls run when the function returns, last first. *)
Fixpoint with_locks {R : Type} (ls : list string) (body : prog world R) : prog world R :=
  match ls with
  | [] => body
  | l :: ls' => (do Lock l ;; r <- with_locks ls' body ;; do Unlock l ;; Ret r)%prog
  end.

(** [defer f()] followed by [body]. *)
Definition defer {R : Type} (f : prog world unit) (body : prog world R) : prog world R :=
  (r <- body ;; do f ;; Ret r)%prog.

(** [func (cli *pvc) baseID() string] *)
Definition baseID (w : world) (cli : nat) : string :=
  client_Name (deref_type w cli) +:+ "/" +:+ ns (deref w cli) +:+ "/pvc/" +:+ name (deref w cli).

(** [func (cli *pvc) String() string] *)
Definition String_ (w : world) (cli : nat) : string :=
  baseID w cli +:+ path (deref w cli).

(** [path.Split] of the standard library: the file is what follows the
    final slash, the whole path when it has no slash. [cur] is what has been
    read since the last slash. *)
Fixpoint Split_file (cur rest : string) : string :=
  match rest with
  | EmptyString => cur
  | String c rest' =>
      if Ascii.eqb c (Ascii.ascii_of_nat 47) then Split_file "" rest'
      else Split_file (cur +:+ String c EmptyString) rest'
  end.

(** [func (cli *pvc) Name() string] *)
Definition Name (w : world) (cli : nat) : string :=
  if String.eqb (path (deref w cli)) "" then name (deref w cli)
  else Split_file "" (path (deref w cli)).

(** A name without a slash. *)
Fixpoint no_slash (s : string) : bool :=
  match s with
  | EmptyString => true
  | String c s' => negb (Ascii.eqb c (Ascii.ascii_of_nat 47)) && no_slash s'
  end.

Definition mountpoint : string := "/mnt".

(** The timeout of [time.After(30 * time.Second)], in milliseconds. *)
Definition timeout : N := 30000.

(** The loop of [waitForPod] over what the channel delivers. *)
Fixpoint receive (pid : string) (ch : list (N * item)) : prog world (option error) :=
  match ch with
  | [] => (do write (sleep timeout) ;; Ret (Some (TimedOut pid)))%prog
  | (gap, e) :: ch' =>
      if (timeout <=? gap)%N
      then (do write (sleep timeout) ;; Ret (Some (TimedOut pid)))%prog
      else
        (do write (sleep gap) ;;
         match e with
         | Closed => Ret (Some (ChannelError pid))
         | Modified PodSucceeded => Ret None
         | Modified PodFailed => Ret (Some errPodTerminated)
         | ErrorEvent obj => Ret (Some (PodErrored pid obj))
         | _ => receive pid ch'
         end)%prog
  end.

(** What the loop returns for a channel, and the time it takes. *)
Fixpoint received (pid : string) (ch : list (N * item)) : option error * N :=
  match ch with
  | [] => (Some (TimedOut pid), timeout)
  | (gap, e) :: ch' =>
      if (timeout <=? gap)%N then (Some (TimedOut pid), timeout)
      else
        match e with
        | Closed => (Some (ChannelError pid), gap)
        | Modified PodSucceeded => (None, gap)
        | Modified PodFailed => (Some errPodTerminated, gap)
        | ErrorEvent obj => (Some (PodErrored pid obj), gap)
        | _ => ((received pid ch').1, (gap + (received pid ch').2)%N)
        end
  end.

(** No terminal event within the timeout window: every item that arrives
    less than [timeout] after the one before it is an event that the loop
    passes over. *)
Fixpoint quiet (ch : list (N * item)) : bool :=
  match ch with
  | [] => true
  | (gap, e) :: ch' =>
      if (timeout <=? gap)%N then true
      else
        match e with
        | Added | Deleted | Bookmark
        | Modified PodPending | Modified PodRunning | Modified PodUnknown => quiet ch'
        | _ => false
        end
  end.

(** An item that arrives before the timeout and that the loop passes
    over, and the time a list of such items takes. *)
Definition passed_over (ge : N * item) : bool :=
  (ge.1 <? timeout)%N &&
  match ge.2 with
  | Added | Deleted | Bookmark
  | Modified PodPending | Modified PodRunning | Modified PodUnknown => true
  | _ => false
  end.

Definition elapsed (ch : list (N * item)) : N := foldr (fun ge t => (ge.1 + t)%N) 0%N ch.

(** [func waitForPod(podi typev1.PodInterface, pid string) error] *)
Definition waitForPod (pid : string) : prog world (option error) :=
  (err <- atomic (fun w => (k_Watch k pid, called (PodWatch pid) w)) ;;
   match err with
   | Some e => Ret (Some e)
   | None =>
       defer (write (called (WatchStop pid)))
             (receive pid (k_ResultChan k pid))
   end)%prog.

(** What waitForPod returns for a pod. *)
Definition watched (pid : string) : option error :=
  match k_Watch k pid with
  | Some e => Some e
  | None => (received pid (k_ResultChan k pid)).1
  end.

(** The world waitForPod leaves. *)
Definition after_watch (pid : string) (w : world) : world :=
  match k_Watch k pid with
  | Some _ => called (PodWatch pid) w
  | None =>
      called (WatchStop pid)
        (sleep (received pid (k_ResultChan k pid)).2 (called (PodWatch pid) w))
  end.

(** The calls waitForPod makes. *)
Definition watch_calls (pid : string) : list call :=
  match k_Watch k pid with
  | Some _ => [PodWatch pid]
  | None => [PodWatch pid; WatchStop pid]
  end.

(** [func (cli *pvc) createPod(podi typev1.PodInterface, cmd []string) (string, error)] *)
Definition createPod (cli : nat) (cmd : list string) : prog world (error + string) :=
  atomic (fun w =>
    let res := k_Create k (length (filter (fun c => is_create c = true) (calls w))) in
    (res, called (PodCreate (ns (deref w cli)) (name (deref w cli)) cmd res) w)).

(** The loop of [cachedAttributes] that caches every directory; [err] is
    the variable the loop assigns. *)
Fixpoint cache_all (cli : nat) (dirs : list (string * AttrMap)) (err : option error)
  : prog world (option error) :=
  match dirs with
  | [] => Ret err
  | (dir, attrmap) :: dirs' =>
      (key <- read (fun w => baseID w cli +:+ dir +:+ "/list") ;;
       err' <- cache_SetAny key attrmap ;;
       cache_all cli dirs' err')%prog
  end.

(** [func (cli *pvc) cachedAttributes(ctx) (map[string]plugin.Attributes, error)];
    a nil map is [None]. [cachedAttributes_locked] is the function from
    [key := cli.String() + "/list"] on, which runs with the locks held. *)
Definition cachedAttributes_locked (cli : nat) : prog world (option AttrMap * option error) :=
    (key <- read (fun w => String_ w cli +:+ "/list") ;;
     entry <- cache_Get key ;;
     match entry with
     | Some bits =>
         match gob_Decode k bits with
         | inr attrs => Ret (Some attrs, None)
         | inl err => Ret (None, Some err)
         end
     | None =>
         created <- createPod cli (StatCmd k mountpoint) ;;
         match created with
         | inl err => Ret (None, Some err)
         | inr pid =>
             defer (write (called (PodDelete pid))) (
               err <- waitForPod pid ;;
               if match err with Some _ => negb (is_errPodTerminated err) | None => false end
               then Ret (None, err)
               else
                 output <- atomic (fun w => (k_GetLogs k pid, called (PodGetLogs pid) w)) ;;
                 match output with
                 | inl lerr => Ret (None, Some lerr)
                 | inr output =>
                     defer (write (called (LogsClose pid))) (
                       if is_errPodTerminated err
                       then
                         match output with
                         | (bytes, Some rerr) => Ret (None, Some rerr)
                         | (bytes, None) => Ret (None, Some (New (String.string_of_list_byte bytes)))
                         end
                       else
                         match StatParseAll k output mountpoint with
                         | inl perr => Ret (None, Some perr)
                         | inr attrs =>
                             err' <- cache_all cli (range_dirs k attrs) None ;;
                             do atomic (fun w =>
                                  (tt, set_types (alter (set_updated (clock w))
                                                        (resourcetype_ (deref w cli)) (types w)) w)) ;;
                             p <- read (fun w => path (deref w cli)) ;;
                             Ret (attrs !! p, err')
                         end)
                 end)
         end
     end)%prog.

Definition cachedAttributes (cli : nat) : prog world (option AttrMap * option error) :=
  (keys <- read (fun w => Keys (baseID w cli) (path (deref w cli)) "/list") ;;
   with_locks (LocksForKeys keys) (cachedAttributes_locked cli))%prog.

(** [func (cli *pvc) cachedContent(ctx) (plugin.IFileBuffer, error)]; the
    buffer is the bytes it reads. *)
Definition cachedContent (cli : nat) : prog world (option (list byte) * option error) :=
  (key <- read (fun w => String_ w cli +:+ "/content") ;;
   entry <- cache_Get key ;;
   match entry with
   | Some bits => Ret (Some bits, None)
   | None =>
       cmd <- read (fun w => ["cat"; mountpoint +:+ path (deref w cli)]) ;;
       created <- createPod cli cmd ;;
       match created with
       | inl err => Ret (None, Some err)
       | inr pid =>
           defer (write (called (PodDelete pid))) (
             err <- waitForPod pid ;;
             if match err with Some _ => negb (is_errPodTerminated err) | None => false end
             then Ret (None, err)
             else
               let podErr := err in
               output <- atomic (fun w => (k_GetLogs k pid, called (PodGetLogs pid) w)) ;;
               match output with
               | inl err => Ret (None, Some err)
               | inr output =>
                   defer (write (called (LogsClose pid))) (
                     match output with
                     | (bits, Some err) => Ret (None, Some err)
                     | (bits, None) =>
                         if is_errPodTerminated podErr
                         then Ret (None, Some (New (String.string_of_list_byte bits)))
                         else
                           do atomic (fun w =>
                                (tt, set_types (alter (set_updated (clock w))
                                                      (resourcetype_ (deref w cli)) (types w)) w)) ;;
                           do cache_SetSlow key bits ;;
                           Ret (Some bits, None)
                     end)
               end)
       end
   end)%prog.

(** [pvc{cli.resourcetype, cli.name, cli.ns, cli.path + "/" + name, attr, sync.Mutex{}}] *)
Definition child (c : pvc) (entry : string) (a : Attributes) : pvc :=
  {| resourcetype_ := resourcetype_ c; name := name c; ns := ns c;
     path := path c +:+ "/" +:+ entry; attr := a; mux := false |}.

(** [newvol := &pvc{...}]: a new object at the end of the heap. *)
Definition new_child (cli : nat) (entry : string) (a : Attributes) : prog world nat :=
  atomic (fun w => (length (heap w), set_heap (heap w ++ [child (deref w cli) entry a]) w)).

Definition node_of (a : Attributes) (entry : nat) : Node :=
  if IsDir a then NewDir entry else NewFile entry.

(** [func (cli *pvc) Find(ctx, name string) (plugin.Node, error)] *)
Definition Find (cli : nat) (name : string) : prog world (option Node * option error) :=
  (r <- cachedAttributes cli ;;
   match r with
   | (_, Some err) => Ret (None, Some err)
   | (attrs, None) =>
       match default ∅ attrs !! name with
       | Some a => newvol <- new_child cli name a ;; Ret (Some (node_of a newvol), None)
       | None => Ret (None, Some ENOENT)
       end
   end)%prog.

(** The loop of [List]. *)
Fixpoint List_entries (cli : nat) (attrs : list (string * Attributes)) (entries : list Node)
  : prog world (list Node) :=
  match attrs with
  | [] => Ret entries
  | (entry, a) :: attrs' =>
      (newvol <- new_child cli entry a ;;
       List_entries cli attrs' (entries ++ [node_of a newvol]))%prog
  end.

(** [func (cli *pvc) List(ctx) ([]plugin.Node, error)] *)
Definition List (cli : nat) : prog world (option (list Node) * option error) :=
  (r <- cachedAttributes cli ;;
   match r with
   | (_, Some err) => Ret (None, Some err)
   | (attrs, None) =>
       entries <- List_entries cli (range_attrs k (default ∅ attrs)) [] ;;
       Ret (Some entries, None)
   end)%prog.

(** [func (cli *pvc) Attr(ctx)]: the attributes it returns a pointer to. *)
Definition Attr (cli : nat) : prog world Attributes :=
  read (fun w =>
    if String.eqb (path (deref w cli)) ""
    then {| Atime := 0%N; Mtime := clock w; Ctime := 0%N; Mode := 0%N; Size := 0%N |}
    else attr (deref w cli)).

(** [func (cli *pvc) Open(ctx) (plugin.IFileBuffer, error)] *)
Definition Open (cli : nat) : prog world (option (list byte) * option error) :=
  (do await (fun w => negb (mux (deref w cli)))
            (fun w => (tt, set_heap (alter (set_mux true) cli (heap w)) w)) ;;
   defer (write (fun w => set_heap (alter (set_mux false) cli (heap w)) w))
         (cachedContent cli))%prog.

End Methods.

(** The calls one run of a job makes to the cluster: none (the cache
    answered); a Create that failed; or a Create that gave the pod [pid],
    then calls that watch the pod and read its log, and last of all the
    Delete of [pid]. *)
Definition watch_or_logs (c : call) : bool :=
  match c with
  | PodWatch _ | WatchStop _ | PodGetLogs _ | LogsClose _ => true
  | PodCreate _ _ _ _ | PodDelete _ => false
  end.

Inductive job_calls : list call -> Prop :=
| no_job : job_calls []
| no_pod (ns claim : string) (args : list string) (e : error) :
    job_calls [PodCreate ns claim args (inl e)]
| job_deleted (ns claim : string) (args : list string) (pid : string) (mid : list call) :
    forallb watch_or_logs mid = true ->
    job_calls (PodCreate ns claim args (inr pid) :: mid ++ [PodDelete pid]).

(** The pods a list of calls created and deleted; at most one pod exists
    at the end of the list when it created at most one more than it
    deleted. *)
Definition is_deleted (c : call) : bool :=
  match c with
  | PodDelete _ => true
  | _ => false
  end.

Definition pods_created (l : list call) : nat := length (filter (fun c => is_created c = true) l).
Definition pods_deleted (l : list call) : nat := length (filter (fun c => is_deleted c = true) l).

Definition one_at_a_time (l : list call) : Prop :=
  pods_deleted l <= pods_created l <= pods_deleted l + 1.

(** A pod that a list of calls created is deleted by its last call, and by
    no other. *)
Definition deleted_last (l : list call) : Prop :=
  forall ns claim args pid, In (PodCreate ns claim args (inr pid)) l ->
    last l = Some (PodDelete pid) /\
    length (filter (fun c => is_delete pid c = true) l) = 1.

(** The number of the next Create, and whether every ancestor key of an
    entry is unlocked. *)
Definition next_pod (w : world) : nat :=
  length (filter (fun c => is_create c = true) (calls w)).

Definition unlocked (w : world) (cli : nat) : Prop :=
  forall key, In key (Keys (baseID w cli) (path (deref w cli)) "/list") -> key ∉ locks w.

(** A step of a job leaves the pvc objects, the names of the clients and
    the locks as they are, and only adds calls to the cluster. *)
Definition job_step (w w' : world) : Prop :=
  heap w' = heap w /\ client_Name <$> types w' = client_Name <$> types w /\
  locks w' = locks w /\ exists l, calls w' = calls w ++ l.

(** The entries and the names of the clients are those of [w0]. *)
Definition same_entries (w0 w : world) : Prop :=
  heap w = heap w0 /\ client_Name <$> types w = client_Name <$> types w0.

(** A step of the caller that holds the lock of [key]: it leaves the pvc
    objects and the names of the clients as they are, only adds calls to
    the cluster, and keeps the lock. *)
Definition holder_step (key : string) (w w' : world) : Prop :=
  heap w' = heap w /\ client_Name <$> types w' = client_Name <$> types w /\
  (exists l, calls w' = calls w ++ l) /\ (key ∈ locks w -> key ∈ locks w').




(** Taking and releasing the lock of one key. *)
Definition take (key : string) (w : world) : world := set_locks ({[key]} ∪ locks w) w.
Definition give (key : string) (w : world) : world := set_locks (locks w ∖ {[key]}) w.
Definition is_free (key : string) (w : world) : bool := bool_decide (key ∉ locks w).

(** The world with the locks of [keys] taken. *)
Definition lock_all (keys : list string) (w : world) : world :=
  set_locks (list_to_set keys ∪ locks w) w.

(** A step leaves every pvc object as it is. *)
Definition keeps_heap (w w' : world) : Prop := heap w' = heap w.

(** A step leaves the existing pvc objects as they are and may add new ones. *)
Definition extends_heap (w w' : world) : Prop := exists new, heap w' = heap w ++ new.

End Pvc.
(** ** Inputs of the examples *)

Section CommandInputs.
Import Prog Command.

(** A process with pid and group 42 that ends with "exit status 1". *)
Definition os_42 : OS :=
  {| os_start := inr 42; os_getpgid := fun _ => inr 42; os_kill := fun _ => None;
     os_wait := Some "exit status 1"; os_select := 0 |}.

(** The same process when syscall.Getpgid always fails. *)
Definition os_nopgid : OS :=
  {| os_start := inr 42; os_getpgid := fun _ => inl "no such process";
     os_kill := fun _ => None; os_wait := Some "exit status 1"; os_select := 0 |}.

(** Three goroutines call Wait(); the process exits after they have arrived. *)
Definition three_waiters : world * list (prog world (list (option error))) :=
  run ([Sched 2; Sched 3; Sched 4; Exit] ++ concat (repeat [Sched 4; Sched 3; Sched 2; Sched 0] 7))
      (started os_42, goroutines os_42 [[CallWait]; [CallWait]; [CallWait]]).

(** The context is cancelled, the process ignores SIGTERM, and 5000 ms
    later it is killed. *)
Definition escalation : world * list (prog world (list (option error))) :=
  run ([Cancel] ++ repeat (Sched 0) 9 ++ [Tick 5000] ++ repeat (Sched 1) 7 ++ [Exit] ++
       repeat (Sched 0) 6)
      (started os_42, goroutines os_42 []).

(** Terminate() is called while the process runs, the group id cannot be
    resolved, ten seconds pass, and the process never exits. *)
Definition unresolved_group : world * list (prog world (list (option error))) :=
  run ([Sched 2; Sched 2] ++ repeat (Sched 0) 10 ++ [Tick 5000; Tick 5000; Sched 1])
      (started os_nopgid, goroutines os_nopgid [[CallTerminate]]).

End CommandInputs.

Section PodInputs.
Import Prog Pod.

(** A stream that fails with "connection reset by peer". *)
Definition reset_cluster : Cluster :=
  {| new_executor := None; stream := Some (OtherError "connection reset by peer") |}.

(** An executor that cannot be made, and a remote command that exits with
    status 3. *)
Definition refused_cluster : Cluster :=
  {| new_executor := Some (OtherError "dial tcp: connection refused"); stream := None |}.

Definition exit3_cluster : Cluster :=
  {| new_executor := None; stream := Some (ExitError 3) |}.

End PodInputs.

Section PvcInputs.
Import Prog Pvc.

(** A volume with a directory [logs] and a file [a.txt] at its root, and a
    file [b.txt] in [logs]. *)
Definition dir_attr : Attributes :=
  {| Atime := 1%N; Mtime := 2%N; Ctime := 3%N; Mode := (N.shiftl 1 31 + 493)%N; Size := 4096%N |}.

Definition file_attr : Attributes :=
  {| Atime := 1%N; Mtime := 2%N; Ctime := 3%N; Mode := 420%N; Size := 12%N |}.

Definition root_listing : AttrMap := {[ "logs" := dir_attr; "a.txt" := file_attr ]}.
Definition logs_listing : AttrMap := {[ "b.txt" := file_attr ]}.
Definition volume : DirMap := {[ "" := root_listing; "/logs" := logs_listing ]}.

Definition stat_output : list byte := String.list_byte_of_string "stat output".
Definition garbage : list byte := String.list_byte_of_string "cannot open /mnt".

(** The n-th pod is named wash0, wash1, ... *)
Definition pod_name (n : nat) : string := "wash" +:+ String (Ascii.ascii_of_nat (48 + n)) "".

(** A cluster that creates every pod and establishes every watch; a watch
    delivers [chan] and the log of a pod is [logs]. The stat parser knows
    the output of the volume; gob knows its two listings. *)
Definition cluster (chan : list (N * item)) (logs : error + reader) : Collaborators :=
  {| k_Create := fun n => inr (pod_name n);
     k_Watch := fun _ => None;
     k_ResultChan := fun _ => chan;
     k_GetLogs := fun _ => logs;
     StatCmd := fun p => ["find"; p; "-exec"; "stat"];
     StatParseAll := fun r _ =>
       match r.2 with
       | Some e => inl e
       | None =>
           if String.eqb (String.string_of_list_byte r.1) "stat output"
           then inr volume else inl (External "parse error")
       end;
     gob_Encode := fun m =>
       match m !! "logs", m !! "b.txt" with
       | Some _, _ => inr (String.list_byte_of_string "root")
       | None, Some _ => inr (String.list_byte_of_string "logs")
       | None, None => inl (External "gob: type not registered")
       end;
     gob_Decode := fun bits =>
       if String.eqb (String.string_of_list_byte bits) "root" then inr root_listing
       else if String.eqb (String.string_of_list_byte bits) "logs" then inr logs_listing
       else inl (External "unexpected EOF");
     range_dirs := map_to_list;
     range_attrs := map_to_list |}.

(** What a watch delivers: a pod that succeeds, a pod that fails, and a pod
    that is still running when the timeout passes. *)
Definition succeeding : list (N * item) :=
  [(100%N, Added); (2000%N, Modified PodRunning); (500%N, Modified PodSucceeded)].

Definition failing : list (N * item) := [(100%N, Added); (300%N, Modified PodFailed)].

Definition silent : list (N * item) := [(100%N, Added); (2000%N, Modified PodRunning)].

(** The entry of the volume [data] of the namespace [default], and two
    entries for its file [a.txt], as two calls of Find give them. *)
Definition root_entry : pvc :=
  {| resourcetype_ := 0; name := "data"; ns := "default"; path := "";
     attr := zero_Attributes; mux := false |}.

Definition cold : world :=
  {| heap := [root_entry]; types := [{| client_Name := "kube"; updated := 0%N |}];
     cache := ∅; locks := ∅; calls := []; clock := 0%N |}.

Definition two_handles : world :=
  set_heap [root_entry; child root_entry "a.txt" file_attr; child root_entry "a.txt" file_attr]
           cold.


(** The cache holds bytes under the key of the listing that gob cannot
    decode. *)
Definition corrupt : world :=
  set_cache {[ "kube/default/pvc/data/list" := garbage ]} cold.

(** A pod that reports Running every 29 seconds and succeeds after 59. *)
Definition slow : list (N * item) :=
  [(29000%N, Modified PodRunning); (29000%N, Modified PodRunning);
   (1000%N, Modified PodSucceeded)].

(** The lock of the listing of the root is held. *)
Definition root_locked : world := set_locks {[ "kube/default/pvc/data/list" ]} cold.

(** The root of the volume and its directory [logs]. *)
Definition with_logs : world :=
  set_heap [root_entry; child root_entry "logs" dir_attr] cold.

(** A cluster whose volume has an empty directory [logs], the last that
    [range] visits; gob does not encode its listing. *)
Definition empty_logs : Collaborators :=
  {| k_Create := fun n => inr (pod_name n);
     k_Watch := fun _ => None;
     k_ResultChan := fun _ => succeeding;
     k_GetLogs := fun _ => inr (stat_output, None);
     StatCmd := fun p => ["find"; p; "-exec"; "stat"];
     StatParseAll := fun _ _ => inr {[ "" := root_listing; "/logs" := (∅ : AttrMap) ]};
     gob_Encode := gob_Encode (cluster succeeding (inr (stat_output, None)));
     gob_Decode := gob_Decode (cluster succeeding (inr (stat_output, None)));
     range_dirs := fun _ => [("", root_listing); ("/logs", ∅)];
     range_attrs := map_to_list |}.

(** Callers that take their steps in turn. *)
Definition in_turn (n rounds : nat) : list nat := concat (repeat (seq 0 n) rounds).

End PvcInputs.


(** * Facts *)

(** ** Programs *)

Section ProgFacts.
Import Prog.
Context {W : Type}.

Lemma exec_bind {A B : Type} (p : prog W A) (k : A -> prog W B) (w : W) :
  exec (bind p k) w =
  match exec p w with
  | Some (a, w') => exec (k a) w'
  | None => None
  end.
Proof.
  revert w. induction p as [a | X f k' IH]; intros w; simpl; [reflexivity |].
  destruct (f w) as [[x w'] |]; [apply IH | reflexivity].
Qed.

Lemma exec_atomic {A : Type} (f : W -> A * W) (w : W) :
  exec (atomic f) w = Some (f w).
Proof. unfold atomic. simpl. now destruct (f w). Qed.

Lemma exec_write (f : W -> W) (w : W) : exec (write f) w = Some (tt, f w).
Proof. reflexivity. Qed.

Lemma exec_read {A : Type} (f : W -> A) (w : W) : exec (read f) w = Some (f w, w).
Proof. reflexivity. Qed.

Lemma pstep_bind {A B : Type} (p : prog W A) (k : A -> prog W B) (w : W) :
  pstep (bind p k) w =
  match p with
  | Ret a => pstep (k a) w
  | Act _ _ =>
      match pstep p w with
      | Some (w', p') => Some (w', bind p' k)
      | None => None
      end
  end.
Proof.
  destruct p as [a | X f k']; simpl; [reflexivity |].
  destruct (f w) as [[x w'] |]; reflexivity.
Qed.

(** A step of a program that has not returned is a step of the program
    followed by anything. *)
Lemma pstep_bind_step {A B : Type} (p : prog W A) (k : A -> prog W B) (w w' : W) (p' : prog W A) :
  pstep p w = Some (w', p') -> pstep (bind p k) w = Some (w', bind p' k).
Proof.
  intros H. rewrite pstep_bind. destruct p; [discriminate | now rewrite H].
Qed.

Lemma is_act_bind {A B : Type} (p : prog W A) (k : A -> prog W B) :
  is_act p -> is_act (bind p k).
Proof. destruct p; simpl; [intros [] | intros _; exact I]. Qed.

Lemma pstep_bind_act {A B : Type} (p : prog W A) (k : A -> prog W B) (w : W) :
  is_act p ->
  pstep (bind p k) w =
  match pstep p w with
  | Some (w', p') => Some (w', bind p' k)
  | None => None
  end.
Proof. intros H. rewrite pstep_bind. destruct p; [destruct H | reflexivity]. Qed.

(** Stepping a part of a program that is followed through its points
    [sc], with steps [sn], inside a larger program. *)
Lemma pstep_bind_points {A B SP : Type} (sc : SP -> prog W A)
    (sn : SP -> W -> option (W * (SP + A))) (k : A -> prog W B) (q : SP) (w : W) :
  is_act (sc q) ->
  pstep (sc q) w =
    match sn q w with
    | Some (w', inl q') => Some (w', sc q')
    | Some (w', inr a) => Some (w', Ret a)
    | None => None
    end ->
  pstep (bind (sc q) k) w =
    match sn q w with
    | Some (w', inl q') => Some (w', bind (sc q') k)
    | Some (w', inr a) => Some (w', k a)
    | None => None
    end.
Proof.
  intros Hact Hs. rewrite pstep_bind.
  destruct (sc q); [destruct Hact |].
  rewrite Hs. destruct (sn q w) as [[w' [q' | a]] |]; reflexivity.
Qed.

(** What every step keeps, a run keeps. *)
Lemma steps_in_bind {A B : Type} (G : W -> W -> Prop) (p : prog W A) (k : A -> prog W B) :
  steps_in G p -> (forall a, steps_in G (k a)) -> steps_in G (bind p k).
Proof.
  intros Hp Hk. induction Hp as [r | X f k' Hf Hk' IH]; simpl; [apply Hk |].
  constructor; [exact Hf | exact IH].
Qed.

Lemma steps_in_atomic {A : Type} (G : W -> W -> Prop) (f : W -> A * W) :
  (forall w, G w (f w).2) -> steps_in G (atomic f).
Proof.
  intros H. constructor.
  - intros w a w' E. injection E as E. specialize (H w). rewrite E in H. exact H.
  - intros w a w' E. constructor.
Qed.

Lemma steps_in_read {A : Type} (G : W -> W -> Prop) (f : W -> A) :
  (forall w, G w w) -> steps_in G (read f).
Proof. intros H. apply steps_in_atomic. exact H. Qed.

Lemma steps_in_write (G : W -> W -> Prop) (f : W -> W) :
  (forall w, G w (f w)) -> steps_in G (write f).
Proof. intros H. apply steps_in_atomic. exact H. Qed.

Lemma steps_in_await {A : Type} (G : W -> W -> Prop) (c : W -> bool) (f : W -> A * W) :
  (forall w, c w = true -> G w (f w).2) -> steps_in G (await c f).
Proof.
  intros H. constructor.
  - intros w a w' E. destruct (c w) eqn:Ec; [| discriminate]. injection E as E.
    specialize (H w Ec). rewrite E in H. exact H.
  - intros w a w' E. constructor.
Qed.

Lemma steps_in_mono {R : Type} (G G' : W -> W -> Prop) (p : prog W R) :
  (forall w w', G w w' -> G' w w') -> steps_in G p -> steps_in G' p.
Proof.
  intros HG Hp. induction Hp as [r | X f k' Hf Hk' IH]; constructor.
  - intros w a w' E. apply HG. exact (Hf w a w' E).
  - exact IH.
Qed.

Lemma steps_in_exec {R : Type} (G : W -> W -> Prop) (p : prog W R) :
  (forall w, G w w) -> (forall a b c, G a b -> G b c -> G a c) ->
  steps_in G p -> forall w r w', exec p w = Some (r, w') -> G w w'.
Proof.
  intros Hrefl Htrans Hp. induction Hp as [r0 | X f k' Hf Hk' IH]; intros w r w' E; simpl in E.
  - injection E as _ <-. apply Hrefl.
  - destruct (f w) as [[a w1] |] eqn:Ef; [| discriminate].
    eapply Htrans; [exact (Hf w a w1 Ef) |]. exact (IH w a w1 Ef w1 r w' E).
Qed.

Lemma steps_in_pstep {R : Type} (G : W -> W -> Prop) (p p' : prog W R) (w w' : W) :
  steps_in G p -> pstep p w = Some (w', p') -> G w w' /\ steps_in G p'.
Proof.
  intros Hp E. destruct Hp as [r | X f k' Hf Hk']; simpl in E; [discriminate |].
  destruct (f w) as [[a w1] |] eqn:Ef; [| discriminate]. injection E as <- <-.
  split; [exact (Hf w a w1 Ef) | exact (Hk' w a w1 Ef)].
Qed.

(** A check that no goroutine of a pool can take a step. *)
Lemma forallb_blocked {R : Type} (w : W) (ts : list (prog W R)) :
  forallb (fun p => match pstep p w with None => true | Some _ => false end) ts = true ->
  Forall (fun p => pstep p w = None) ts.
Proof.
  intros H. apply List.Forall_forall. intros p Hp.
  rewrite forallb_forall in H. specialize (H p Hp).
  destruct (pstep p w); [discriminate | reflexivity].
Qed.


(** Invariants of a pool. Every goroutine is at a point of its code
    ([code q] is what remains to be run from point [q]); [J] relates the
    world and the points of all goroutines. If each step from a point leads
    to a point and keeps [J], every schedule keeps [J]. *)
Section PoolInvariant.
Context {R PT : Type} (code : PT -> prog W R) (J : W -> list PT -> Prop).
Hypothesis step_ok : forall w pts i q w' p',
  J w pts -> pts !! i = Some q -> pstep (code q) w = Some (w', p') ->
  exists q', p' = code q' /\ J w' (<[i := q']> pts).

Lemma step_thread_invariant (i : nat) (w : W) (pts : list PT) :
  J w pts ->
  exists pts', step_thread i (w, code <$> pts) = ((step_thread i (w, code <$> pts)).1, code <$> pts')
               /\ J (step_thread i (w, code <$> pts)).1 pts'.
Proof.
  intros HJ. unfold step_thread; simpl.
  rewrite list_lookup_fmap.
  destruct (pts !! i) as [q |] eqn:Hq; simpl; [| exists pts; auto].
  destruct (pstep (code q) w) as [[w' p'] |] eqn:Hs; simpl; [| exists pts; auto].
  destruct (step_ok _ _ _ _ _ _ HJ Hq Hs) as (q' & -> & HJ').
  exists (<[i := q']> pts). split; [| assumption].
  now rewrite list_fmap_insert.
Qed.

Lemma run_pool_invariant (schedule : list nat) (w : W) (pts : list PT) :
  J w pts ->
  exists pts', run_pool schedule (w, code <$> pts) = ((run_pool schedule (w, code <$> pts)).1, code <$> pts')
               /\ J (run_pool schedule (w, code <$> pts)).1 pts'.
Proof.
  revert w pts. induction schedule as [| i rest IH]; intros w pts HJ.
  - exists pts. auto.
  - destruct (step_thread_invariant i w pts HJ) as (pts1 & E1 & HJ1).
    unfold run_pool in *. simpl. rewrite E1. apply IH, HJ1.
Qed.

End PoolInvariant.

Lemma exec_pstep {R : Type} (p p' : prog W R) (w w' : W) :
  pstep p w = Some (w', p') -> exec p w = exec p' w'.
Proof.
  destruct p as [r | X f k']; simpl; [discriminate |].
  destruct (f w) as [[a w1] |]; [| discriminate]. now intros [= <- <-].
Qed.

Lemma exec_holding {R : Type} (release : W -> W) (q : prog W R) (w : W) :
  exec (holding release q) w =
  match exec q w with
  | Some (r, w1) => Some (r, release w1)
  | None => None
  end.
Proof.
  unfold holding. rewrite exec_bind. destruct (exec q w) as [[r w1] |]; reflexivity.
Qed.

Lemma exec_critical {R : Type} (free : W -> bool) (acquire release : W -> W) (q : prog W R)
    (w : W) :
  exec (critical free acquire release q) w =
  if free w then exec (holding release q) (acquire w) else None.
Proof. unfold critical, await. simpl. now destruct (free w). Qed.

Lemma run_pool_cons {R : Type} (i : nat) (rest : list nat) (c : W * list (prog W R)) :
  run_pool (i :: rest) c = run_pool rest (step_thread i c).
Proof. reflexivity. Qed.

Lemma step_thread_at {R : Type} (i : nat) (w w' : W) (ps : list (prog W R)) (p p' : prog W R) :
  ps !! i = Some p -> pstep p w = Some (w', p') ->
  step_thread i (w, ps) = (w', <[i := p']> ps).
Proof. intros Hp Hs. unfold step_thread. simpl. now rewrite Hp, Hs. Qed.



(** Callers that run one at a time. Caller [a] runs [T0 a]: one step that
    leaves the world as it is, and then
    [critical free acquire release (q0 a)]. [A] holds at all times. When the
    lock is free and [Q] holds, running [q0 a] alone from the world in which
    the lock has just been taken returns and establishes [Post]; [Post]
    gives [Q] and [Done] once the lock is released, and [Res] for the
    result. Then every schedule of any number of callers leads to a state of
    [serial], and from every such state the callers can be scheduled so that
    all of them have returned. *)
Section Serial.
Context {I R : Type}.
Variables (D : I -> Prop) (free : W -> bool) (acquire release : W -> W).
Variables (T0 q0 : I -> prog W R).
Variables (A Q Done : W -> Prop) (G : W -> W -> Prop) (Res : R -> Prop)
          (Post : W -> R -> W -> Prop).
Let T1 (a : I) : prog W R := critical free acquire release (q0 a).

Hypothesis G_refl : forall w, G w w.
Hypothesis G_trans : forall a b c, G a b -> G b c -> G a c.
Hypothesis A_G : forall w w', A w -> G w w' -> A w'.
Hypothesis A_acquire : forall w, A w -> free w = true -> A (acquire w).
Hypothesis A_release : forall w, A w -> A (release w).
Hypothesis free_acquire : forall w, A w -> free (acquire w) = false.
Hypothesis free_release : forall w, A w -> free (release w) = true.
Hypothesis free_G : forall w w', G w w' -> free w = false -> free w' = false.
Hypothesis T0_step : forall a w, D a -> A w -> pstep (T0 a) w = Some (w, T1 a).
Hypothesis q0_steps : forall a, D a -> steps_in G (q0 a).
Hypothesis q0_alone : forall a w, D a -> A w -> Q w -> free w = true ->
  exists r w1, exec (q0 a) (acquire w) = Some (r, w1) /\ Post (acquire w) r w1.
Hypothesis Post_Q : forall ws r w1, Post ws r w1 -> Q (release w1) /\ Done (release w1) /\ Res r.

Lemma pstep_T1 (a : I) (w : W) :
  pstep (T1 a) w = if free w then Some (acquire w, holding release (q0 a)) else None.
Proof. unfold T1, critical, await. simpl. now destruct (free w). Qed.

Lemma pstep_holding (q : prog W R) (w : W) :
  pstep (holding release q) w =
  match q with
  | Ret r => Some (release w, Ret r)
  | Act _ _ =>
      match pstep q w with
      | Some (w', q') => Some (w', holding release q')
      | None => None
      end
  end.
Proof.
  unfold holding. destruct q as [r | X f k']; [reflexivity |].
  simpl. destruct (f w) as [[a w1] |]; reflexivity.
Qed.

Lemma Idle_step (p : prog W R) (w w' : W) (p' : prog W R) :
  A w -> Idle D T0 T1 Res p -> pstep p w = Some (w', p') ->
  (exists a, D a /\ w' = w /\ p' = T1 a) \/
  (exists a, D a /\ free w = true /\ w' = acquire w /\ p' = holding release (q0 a)).
Proof.
  intros HA [(a & Ha & [-> | ->]) | (r & -> & _)] E.
  - left. rewrite T0_step in E by assumption. injection E as <- <-. eauto.
  - right. rewrite pstep_T1 in E. destruct (free w); [| discriminate].
    injection E as <- <-. eauto.
  - discriminate.
Qed.

Lemma Idle_T1 (a : I) : D a -> Idle D T0 T1 Res (T1 a).
Proof. intros Ha. left. exists a. auto. Qed.

Lemma Idle_not_returned (a : I) (w : W) (r : R) : D a -> A w -> T1 a <> Ret r /\ T0 a <> Ret r.
Proof.
  intros Ha HA. split; [discriminate |]. intros E.
  pose proof (T0_step a w Ha HA) as H. rewrite E in H. discriminate.
Qed.

Lemma serial_step (i : nat) (c : W * list (prog W R)) :
  A c.1 /\ serial D free release T0 T1 G Q Done Res Post c ->
  A (step_thread i c).1 /\ serial D free release T0 T1 G Q Done Res Post (step_thread i c).
Proof.
  destruct c as [w ps]. intros [HA HS]. unfold step_thread. cbn [fst snd] in *.
  destruct (ps !! i) as [p |] eqn:Hp; [| split; assumption].
  destruct (pstep p w) as [[w' p'] |] eqn:Hstep; [| split; assumption].
  cbn [fst snd].
  destruct HS as [(Hfree & HQ & Hidle & Hdone)
                 | (Hheld & i0 & q & ws & r & w1 & Hi0 & Hq & Hws & E & HP & Hidle)];
    cbn [fst snd] in *.
  - destruct (Idle_step p w w' p' HA (Hidle i p Hp) Hstep)
      as [(a & Ha & -> & ->) | (a & Ha & _ & -> & ->)].
    + split; [exact HA |]. left. cbn [fst snd]. split; [exact Hfree |]. split; [exact HQ |].
      split.
      * intros j pj Hj. destruct (decide (j = i)) as [-> | Hne].
        -- rewrite list_lookup_insert_eq in Hj by (eapply lookup_lt_Some; exact Hp).
           injection Hj as <-. apply Idle_T1, Ha.
        -- rewrite list_lookup_insert_ne in Hj by congruence. eapply Hidle, Hj.
      * intros j r Hj. destruct (decide (j = i)) as [-> | Hne].
        -- rewrite list_lookup_insert_eq in Hj by (eapply lookup_lt_Some; exact Hp).
           discriminate.
        -- rewrite list_lookup_insert_ne in Hj by congruence. eapply Hdone, Hj.
    + split; [apply A_acquire; assumption |]. right. cbn [fst snd].
      split; [apply free_acquire, HA |].
      destruct (q0_alone a w Ha HA HQ Hfree) as (r & w1 & E & HP).
      exists i, (q0 a), (acquire w), r, w1.
      split; [apply list_lookup_insert_eq; eapply lookup_lt_Some; exact Hp |].
      split; [exact (q0_steps a Ha) |]. split; [apply G_refl |].
      split; [exact E |]. split; [exact HP |].
      intros j pj Hne Hj. rewrite list_lookup_insert_ne in Hj by congruence.
      eapply Hidle, Hj.
  - destruct (decide (i = i0)) as [-> | Hne].
    + rewrite Hi0 in Hp. injection Hp as <-. rewrite pstep_holding in Hstep.
      destruct q as [r0 | X f k'].
      * injection Hstep as <- <-. simpl in E. injection E as <- <-.
        destruct (Post_Q ws r0 w HP) as (HQ & HD & HR).
        split; [apply A_release, HA |]. left. cbn [fst snd].
        split; [apply free_release, HA |]. split; [exact HQ |].
        split; [| intros; exact HD].
        intros j pj Hj. destruct (decide (j = i0)) as [-> | Hne].
        -- rewrite list_lookup_insert_eq in Hj by (eapply lookup_lt_Some; exact Hi0).
           injection Hj as <-. right. exists r0. auto.
        -- rewrite list_lookup_insert_ne in Hj by congruence. eapply Hidle; eassumption.
      * destruct (pstep (Act f k') w) as [[w2 q'] |] eqn:Hq'; [| discriminate].
        injection Hstep as <- <-.
        destruct (steps_in_pstep G _ _ _ _ Hq Hq') as [HG Hq2].
        split; [eapply A_G; eassumption |]. right. cbn [fst snd].
        split; [eapply free_G; eassumption |].
        exists i0, q', ws, r, w1.
        split; [apply list_lookup_insert_eq; eapply lookup_lt_Some; exact Hi0 |].
        split; [exact Hq2 |]. split; [eapply G_trans; eassumption |].
        split; [rewrite <- (exec_pstep _ _ _ _ Hq'); exact E |]. split; [exact HP |].
        intros j pj Hne Hj. rewrite list_lookup_insert_ne in Hj by congruence.
        eapply Hidle; eassumption.
    + destruct (Idle_step p w w' p' HA (Hidle i p Hne Hp) Hstep)
        as [(a & Ha & -> & ->) | (a & Ha & Hfree & _)]; [| congruence].
      split; [exact HA |]. right. cbn [fst snd]. split; [exact Hheld |].
      exists i0, q, ws, r, w1.
      split; [rewrite list_lookup_insert_ne by congruence; exact Hi0 |].
      split; [exact Hq |]. split; [exact Hws |]. split; [exact E |]. split; [exact HP |].
      intros j pj Hne' Hj. destruct (decide (j = i)) as [-> | Hne2].
      * rewrite list_lookup_insert_eq in Hj by (eapply lookup_lt_Some; exact Hp).
        injection Hj as <-. apply Idle_T1, Ha.
      * rewrite list_lookup_insert_ne in Hj by congruence. eapply Hidle; eassumption.
Qed.

Lemma serial_run (schedule : list nat) (c : W * list (prog W R)) :
  A c.1 /\ serial D free release T0 T1 G Q Done Res Post c ->
  A (run_pool schedule c).1 /\
  serial D free release T0 T1 G Q Done Res Post (run_pool schedule c).
Proof.
  revert c. induction schedule as [| i rest IH]; intros c H; [exact H |].
  unfold run_pool in *. simpl. apply IH, serial_step, H.
Qed.

Lemma serial_callers (w : W) (ps : list (prog W R)) :
  A w -> free w = true -> Q w ->
  (forall j p, ps !! j = Some p -> exists a, D a /\ (p = T0 a \/ p = T1 a)) ->
  serial D free release T0 T1 G Q Done Res Post (w, ps).
Proof.
  intros HA Hfree HQ Hps. left. split; [exact Hfree |]. split; [exact HQ |]. split.
  - intros j p Hj. left. eauto.
  - intros j r Hj. destruct (Hps j _ Hj) as (a & Ha & [E | E]);
      destruct (Idle_not_returned a w r Ha HA); congruence.
Qed.

Lemma serial_initial (n : nat) (a : I) (w : W) :
  D a -> A w -> free w = true -> Q w ->
  serial D free release T0 T1 G Q Done Res Post (w, replicate n (T0 a)).
Proof.
  intros Ha HA Hfree HQ. apply serial_callers; auto.
  intros j p Hj. apply lookup_replicate in Hj as [-> _]. eauto.
Qed.


Lemma serial_world (c : W * list (prog W R)) :
  serial D free release T0 T1 G Q Done Res Post c ->
  Q c.1 \/ exists ws r w1, G ws c.1 /\ G c.1 w1 /\ Post ws r w1.
Proof.
  intros [(_ & HQ & _) | (_ & i0 & q & ws & r & w1 & _ & Hq & Hws & E & HP & _)];
    [left; exact HQ |].
  right. exists ws, r, w1. split; [exact Hws |]. split; [| exact HP].
  eapply steps_in_exec; eassumption.
Qed.




End Serial.

End ProgFacts.

(** ** plugin/internal/command.go *)

Section CommandFacts.
Import Prog Command.
Context (os : OS).

(** Start() never blocks, and when it fails it has neither waited for the
    process nor started the goroutine. *)
Lemma Start_returns (w : world) :
  exists r w1, exec (Start os) w = Some (r, w1) /\
    (r <> None -> w1 = w) /\
    (r = None -> n_wait w1 = n_wait w /\ go_watcher w1 = true /\ Process (cmd w1) <> None).
Proof.
  unfold Start, Cmd_Start, Getpgid. simpl.
  destruct (Process (cmd w)) as [pid |] eqn:HP; simpl.
  { eexists _, _. split; [reflexivity |]. split; [auto | discriminate]. }
  destruct (os_start os) as [e | pid]; simpl.
  { eexists _, _. split; [reflexivity |]. split; [auto | discriminate]. }
  destruct (os_getpgid os (n_getpgid w)) as [e | g]; simpl;
    (eexists _, _; split; [reflexivity |]; split; [congruence |]; intros _; simpl; auto).
Qed.

(** C10. Run() is Start() followed by Wait(): a run of Run() is a run of
    Start() and, when that returned no error, a run of Wait() from where
    Start() left; when Start() returns an error, Run() returns that error in
    the world Start() left, in which exec.Cmd.Wait has not been called. *)
Theorem Run_is_Start_then_Wait (w : world) :
  exec (Run os) w = Start_then_Wait os w /\
  (exists r w1, exec (Start os) w = Some (r, w1) /\
     match r with
     | Some e => exec (Run os) w = Some (Some e, w1) /\ n_wait w1 = n_wait w
     | None => exec (Run os) w = exec (Wait os) w1
     end).
Proof.
  assert (E : exec (Run os) w = Start_then_Wait os w).
  { unfold Run, Start_then_Wait. rewrite exec_bind.
    destruct (exec (Start os) w) as [[[e |] w1] |]; reflexivity. }
  split; [exact E |].
  destruct (Start_returns w) as (r & w1 & Hs & Hfail & _).
  exists r, w1. split; [exact Hs |].
  rewrite E. unfold Start_then_Wait. rewrite Hs.
  destruct r as [e |]; [| reflexivity].
  split; [reflexivity |]. now rewrite Hfail.
Qed.

(** *** The points follow the code *)

Import CommandPoints.

Lemma wait_code_act (q : wpt) : is_act (wait_code os q).
Proof. destruct q; exact I. Qed.

Lemma terminate_code_act (q : tpt) : is_act (terminate_code q).
Proof. destruct q; exact I. Qed.

Lemma signal_code_act (sig : Signal) (q : spt) : is_act (signal_code os sig q).
Proof. destruct q; exact I. Qed.

Lemma wait_step (q : wpt) (w : world) :
  pstep (wait_code os q) w =
  match wait_next os q w with
  | Some (w', inl q') => Some (w', wait_code os q')
  | Some (w', inr r) => Some (w', Ret r)
  | None => None
  end.
Proof.
  destruct q; simpl; try reflexivity.
  - destruct (waitOnce (cmd w)); reflexivity.
  - destruct (Process (cmd w)); [| reflexivity].
    destruct (0 <? n_wait w); [reflexivity |].
    destruct (exited w); reflexivity.
  - destruct (waitDoneCh (cmd w)); reflexivity.
Qed.

Lemma terminate_step (q : tpt) (w : world) :
  pstep (terminate_code q) w =
  match terminate_next q w with
  | Some (w', inl q') => Some (w', terminate_code q')
  | Some (w', inr r) => Some (w', Ret r)
  | None => None
  end.
Proof.
  destruct q; simpl; try reflexivity;
    destruct (terminateCh (cmd w)); reflexivity.
Qed.

Lemma signal_step (sig : Signal) (q : spt) (w : world) :
  pstep (signal_code os sig q) w =
  match signal_next os sig q w with
  | Some (w', inl q') => Some (w', signal_code os sig q')
  | Some (w', inr r) => Some (w', Ret r)
  | None => None
  end.
Proof.
  destruct q; simpl; try reflexivity.
  - destruct (Process (cmd w)); reflexivity.
  - destruct (pgid (cmd w) <? 0)%Z; reflexivity.
  - destruct (os_getpgid os (n_getpgid w)); reflexivity.
Qed.

Lemma code_calls (results : list (option error)) (cs : list call) :
  code os (calls results cs) = caller os results cs.
Proof. destruct cs as [| [] cs]; reflexivity. Qed.

Lemma code_step (q : pt) (w : world) :
  pstep (code os q) w =
  match next os q w with
  | Some (w', q') => Some (w', code os q')
  | None => None
  end.
Proof.
  destruct q as [results cs [| q | q] | q | q].
  - reflexivity.
  - simpl code. simpl next.
    rewrite (pstep_bind_points (wait_code os) (wait_next os));
      [| apply wait_code_act | apply wait_step].
    destruct (wait_next os q w) as [[w' [q' | r]] |]; try reflexivity.
    now rewrite code_calls.
  - simpl code. simpl next.
    rewrite (pstep_bind_points terminate_code terminate_next);
      [| apply terminate_code_act | apply terminate_step].
    destruct (terminate_next q w) as [[w' [q' | r]] |]; try reflexivity.
    now rewrite code_calls.
  - destruct q as [| | desc | q | [e |] | q |]; try reflexivity.
    + simpl. destruct (go_watcher w); reflexivity.
    + cbn -[Nat.modulo nth length ready]. destruct (ready w) as [| t ts]; [reflexivity |].
      destruct (nth (os_select os mod length (t :: ts)) (t :: ts) t); reflexivity.
    + simpl code. simpl next. unfold watcher_code.
      rewrite !pstep_bind_act; try (repeat apply is_act_bind; apply signal_code_act).
      rewrite signal_step.
      destruct (signal_next os SIGTERM q w) as [[w' [q' | r]] |]; reflexivity.
    + simpl code. simpl next. unfold watcher_code.
      rewrite !pstep_bind_act; try (repeat apply is_act_bind; apply wait_code_act).
      rewrite wait_step.
      destruct (wait_next os q w) as [[w' [q' | r]] |]; reflexivity.
  - destruct q as [| | | q | e |]; try reflexivity.
    + simpl. destruct (timer w) as [d |]; [| reflexivity].
      destruct (d <=? now w); reflexivity.
    + simpl. destruct (waitDoneCh (cmd w)); reflexivity.
    + simpl code. simpl next. unfold callback_code.
      rewrite !pstep_bind_act; try (repeat apply is_act_bind; apply signal_code_act).
      rewrite signal_step.
      destruct (signal_next os SIGKILL q w) as [[w' [q' | [e |]]] |]; reflexivity.
Qed.

(** Every run of the goroutines keeps an invariant that each step at a
    point and each event of the environment keeps. *)
Section RunInvariant.
Context (J : world -> list pt -> Prop).
Hypothesis J_next : forall w pts i q w' q',
  J w pts -> pts !! i = Some q -> next os q w = Some (w', q') -> J w' (<[i := q']> pts).
Hypothesis J_now : forall w pts d, J w pts -> J (set_now (now w + d) w) pts.
Hypothesis J_exited : forall w pts, J w pts -> J (set_exited true w) pts.
Hypothesis J_ctx : forall w pts, J w pts -> J (set_ctx_done true w) pts.

Lemma step_invariant (e : event) (w : world) (pts : list pt) :
  J w pts ->
  exists pts', step (w, code os <$> pts) e = ((step (w, code os <$> pts) e).1, code os <$> pts')
               /\ J (step (w, code os <$> pts) e).1 pts'.
Proof.
  intros HJ. unfold step. simpl.
  destruct (panicked w); [exists pts; auto |].
  destruct e as [i | d | |]; simpl; try (exists pts; split; [reflexivity | auto]).
  apply (step_thread_invariant (code os) J); [| exact HJ].
  intros w0 pts0 i0 q w' p' HJ0 Hq Hs. rewrite code_step in Hs.
  destruct (next os q w0) as [[w1 q1] |] eqn:Hn; [| discriminate].
  injection Hs as <- <-. exists q1. split; [reflexivity |]. eapply J_next; eauto.
Qed.

Lemma run_invariant (es : list event) (w : world) (pts : list pt) :
  J w pts ->
  exists pts', run es (w, code os <$> pts) = ((run es (w, code os <$> pts)).1, code os <$> pts')
               /\ J (run es (w, code os <$> pts)).1 pts'.
Proof.
  revert w pts. induction es as [| e es IH]; intros w pts HJ.
  - exists pts. auto.
  - destruct (step_invariant e w pts HJ) as (pts1 & E1 & HJ1).
    unfold run in *. simpl. rewrite E1. apply IH, HJ1.
Qed.

End RunInvariant.

(** *** Wait() *)

Lemma count_inside_insert (pts : list pt) (i : nat) (q q' : pt) :
  pts !! i = Some q ->
  count_inside (<[i := q']> pts) + (if inside q then 1 else 0) =
  count_inside pts + (if inside q' then 1 else 0).
Proof.
  unfold count_inside. revert i. induction pts as [| a pts IH]; intros i Hq; [discriminate |].
  destruct i as [| i]; simpl in *.
  - injection Hq as ->. rewrite !filter_cons.
    destruct (inside q), (inside q'); simpl;
      repeat (destruct (decide _) as [? | ?]; try congruence); simpl; lia.
  - specialize (IH i Hq). rewrite !filter_cons.
    destruct (decide (inside a = true)); simpl; lia.
Qed.

Lemma count_inside_zero (pts : list pt) (j : nat) (q : pt) :
  count_inside pts = 0 -> pts !! j = Some q -> inside q = false.
Proof.
  unfold count_inside. revert j. induction pts as [| a pts IH]; intros j H0 Hq; [discriminate |].
  rewrite filter_cons in H0.
  destruct (decide (inside a = true)) as [Ha | Ha]; simpl in H0; [discriminate |].
  destruct j as [| j]; simpl in Hq.
  - injection Hq as <-. now destruct (inside a).
  - eapply IH; eauto.
Qed.

Lemma count_inside_one (pts : list pt) (i j : nat) (q qj : pt) :
  count_inside pts = 1 -> pts !! i = Some q -> inside q = true ->
  j <> i -> pts !! j = Some qj -> inside qj = false.
Proof.
  intros H1 Hq Hin Hne Hj.
  assert (H0 : count_inside (<[i := PCallback KReturn]> pts) = 0).
  { pose proof (count_inside_insert pts i q (PCallback KReturn) Hq) as E.
    rewrite Hin in E. simpl in E. lia. }
  eapply (count_inside_zero _ j); [exact H0 |].
  rewrite list_lookup_insert_ne; auto.
Qed.

Lemma wait_local_view (wq : wpt) (w w' : world) :
  wait_view w' = wait_view w -> wait_local os wq w -> wait_local os wq w'.
Proof.
  unfold wait_view. intros E. injection E as E1 E2 E3 E4 E5.
  destruct wq; simpl; rewrite ?E1, ?E2, ?E3, ?E4, ?E5; auto.
Qed.

Lemma once_state_view (w w' : world) :
  wait_view w' = wait_view w -> once_state os w -> once_state os w'.
Proof.
  unfold wait_view, once_state. intros E. injection E as E1 E2 E3 E4 E5.
  rewrite ?E1, ?E2, ?E3, ?E4, ?E5; auto.
Qed.

(** A step that does not touch what Wait() uses, by a goroutine that is
    not in Wait() and at most arrives at its entry. *)
Lemma wait_invariant_frame (w w' : world) (pts : list pt) (i : nat) (q q' : pt) :
  wait_invariant os w pts -> pts !! i = Some q ->
  wait_view w' = wait_view w ->
  inside q = false ->
  (wpt_of q' = None \/ wpt_of q' = Some WEnter) ->
  (forall r, In r (results_of q') -> In r (results_of q)) ->
  wait_invariant os w' (<[i := q']> pts).
Proof.
  intros [H1 H2 H3 H4] Hq Hv Hout Hq' Hres.
  assert (Hin' : inside q' = false).
  { unfold inside. destruct Hq' as [-> | ->]; reflexivity. }
  split.
  - unfold wait_view in Hv. injection Hv as E1 _ _ _ _. now rewrite E1.
  - now apply (once_state_view w).
  - intros j qj Hj. apply list_lookup_insert_Some in Hj as [(<- & <- & _) | (Hne & Hj)].
    + split.
      * intros wq Hwq. destruct Hq' as [E | E]; rewrite E in Hwq; [discriminate |].
        injection Hwq as <-. exact I.
      * intros r Hr. destruct (H3 i q Hq) as [_ Hb].
        destruct (Hb r (Hres r Hr)) as [-> Hd]. split; [reflexivity |].
        unfold wait_view in Hv. injection Hv as _ E2 _ _ _. congruence.
    + destruct (H3 j qj Hj) as [Ha Hb]. split.
      * intros wq Hwq. apply (wait_local_view wq w); auto.
      * intros r Hr. destruct (Hb r Hr) as [-> Hd]. split; [reflexivity |].
        unfold wait_view in Hv. injection Hv as _ E2 _ _ _. congruence.
  - pose proof (count_inside_insert pts i q q' Hq) as E.
    rewrite Hout, Hin' in E.
    unfold wait_view in Hv. injection Hv as _ E2 _ _ _. rewrite E2. lia.
Qed.

(** A step of Wait(). *)
Lemma wait_invariant_wait (w w' : world) (pts : list pt) (i : nat) (q q' : pt)
    (wq : wpt) (res : wpt + option error) :
  wait_invariant os w pts -> pts !! i = Some q ->
  wpt_of q = Some wq ->
  wait_next os wq w = Some (w', res) ->
  match res with
  | inl wq' => wpt_of q' = Some wq' /\ results_of q' = results_of q
  | inr r =>
      (wpt_of q' = None \/ wpt_of q' = Some WEnter) /\
      (forall r', In r' (results_of q') -> In r' (results_of q) \/ r' = r)
  end ->
  wait_invariant os w' (<[i := q']> pts).
Proof.
  intros [H1 H2 H3 H4] Hq Hwq Hn Hres.
  pose proof (H3 i q Hq) as [Hloc Hresults]. specialize (Hloc wq Hwq).
  pose proof (count_inside_insert pts i q q' Hq) as Hcount.
  assert (Hothers : forall j qj, i <> j -> pts !! j = Some qj ->
            inside q = true \/ waitOnce (cmd w) = OnceNew -> inside qj = false).
  { intros j qj Hne Hj [Hin | Hnew].
    - destruct (waitOnce (cmd w)) eqn:Eo.
      + exact (count_inside_zero pts j qj H4 Hj).
      + exact (count_inside_one pts i j q qj H4 Hq Hin (not_eq_sym Hne) Hj).
      + exact (count_inside_zero pts j qj H4 Hj).
    - rewrite Hnew in H4. exact (count_inside_zero pts j qj H4 Hj). }
  assert (Hstable : forall j qj, i <> j -> pts !! j = Some qj -> inside qj = false ->
            (waitOnce (cmd w) = OnceDone -> waitOnce (cmd w') = OnceDone) ->
            pt_local os w' qj).
  { intros j qj Hne Hj Hout Hdone. destruct (H3 j qj Hj) as [Ha Hb]. split.
    - intros wj Hwj. specialize (Ha wj Hwj). unfold inside in Hout. rewrite Hwj in Hout.
      destruct wj; simpl in *; try discriminate; auto.
    - intros r Hr. destruct (Hb r Hr) as [-> Hd]. auto. }
  assert (Hinq : inside q = in_once wq) by (unfold inside; now rewrite Hwq).
  rewrite Hinq in Hcount, Hothers. clear Hinq.
  destruct wq; simpl in Hn, Hloc.
  - (* WEnter *)
    destruct (waitOnce (cmd w)) eqn:Eo; [| discriminate |]; injection Hn as <- <-;
      destruct Hres as [Hq' Hr'].
    + split; simpl; auto.
      * intros j qj Hj. apply list_lookup_insert_Some in Hj as [(<- & <- & _) | (Hne & Hj)].
        -- split.
           ++ intros wq' E. rewrite Hq' in E. injection E as <-. simpl.
              unfold once_state in H2. rewrite Eo in H2. tauto.
           ++ intros r Hr. rewrite Hr' in Hr. destruct (Hresults r Hr) as [-> Hd].
              split; [reflexivity | simpl; congruence].
        -- apply (Hstable j qj Hne Hj); [apply (Hothers j qj Hne Hj); auto | congruence].
      * unfold inside in Hcount. rewrite Hq' in Hcount. simpl in Hcount. lia.
    + split; simpl; auto.
      * intros j qj Hj. apply list_lookup_insert_Some in Hj as [(<- & <- & _) | (Hne & Hj)].
        -- split.
           ++ intros wq' E. rewrite Hq' in E. injection E as <-. exact Eo.
           ++ intros r Hr. rewrite Hr' in Hr. destruct (Hresults r Hr) as [-> Hd].
              split; [reflexivity | simpl; congruence].
        -- apply (H3 j qj Hj).
      * unfold inside in Hcount. rewrite Hq' in Hcount. simpl in Hcount.
        rewrite Eo. lia.
  - (* WCall *)
    destruct Hloc as (Eo & En & Ed).
    destruct (Process (cmd w)) eqn:EP; [| congruence].
    rewrite En in Hn. simpl in Hn.
    destruct (exited w); [| discriminate]. injection Hn as <- <-.
    destruct Hres as [Hq' Hr'].
    split; simpl; auto.
    + congruence.
    + unfold once_state. simpl. now rewrite Eo.
    + intros j qj Hj. apply list_lookup_insert_Some in Hj as [(<- & <- & _) | (Hne & Hj)].
      * split.
        -- intros wq' E. rewrite Hq' in E. injection E as <-. simpl. auto.
        -- intros r Hr. rewrite Hr' in Hr. destruct (Hresults r Hr) as [-> Hd].
           split; [reflexivity | simpl; congruence].
      * apply (Hstable j qj Hne Hj); [apply (Hothers j qj Hne Hj); auto | simpl; auto].
    + unfold inside in Hcount. rewrite Hq' in Hcount. simpl in Hcount. rewrite Eo in *. lia.
  - (* WStore *)
    destruct Hloc as (Eo & En & Er & Ed). injection Hn as <- <-.
    destruct Hres as [Hq' Hr'].
    split; simpl; auto.
    + unfold once_state. simpl. now rewrite Eo.
    + intros j qj Hj. apply list_lookup_insert_Some in Hj as [(<- & <- & _) | (Hne & Hj)].
      * split.
        -- intros wq' E. rewrite Hq' in E. injection E as <-. simpl. auto.
        -- intros r' Hr. rewrite Hr' in Hr. destruct (Hresults r' Hr) as [-> Hd].
           split; [reflexivity | simpl; congruence].
      * apply (Hstable j qj Hne Hj); [apply (Hothers j qj Hne Hj); auto | simpl; auto].
    + unfold inside in Hcount. rewrite Hq' in Hcount. simpl in Hcount. rewrite Eo in *. lia.
  - (* WClose *)
    destruct Hloc as (Eo & En & Er & Ed). rewrite Ed in Hn. injection Hn as <- <-.
    destruct Hres as [Hq' Hr'].
    split; simpl; auto.
    + unfold once_state. simpl. now rewrite Eo.
    + intros j qj Hj. apply list_lookup_insert_Some in Hj as [(<- & <- & _) | (Hne & Hj)].
      * split.
        -- intros wq' E. rewrite Hq' in E. injection E as <-. simpl. auto.
        -- intros r' Hr. rewrite Hr' in Hr. destruct (Hresults r' Hr) as [-> Hd].
           split; [reflexivity | simpl; congruence].
      * apply (Hstable j qj Hne Hj); [apply (Hothers j qj Hne Hj); auto | simpl; auto].
    + unfold inside in Hcount. rewrite Hq' in Hcount. simpl in Hcount. rewrite Eo in *. lia.
  - (* WLeave *)
    destruct Hloc as (Eo & En & Er). injection Hn as <- <-.
    destruct Hres as [Hq' Hr'].
    split; simpl; auto.
    + unfold once_state. simpl. auto.
    + intros j qj Hj. apply list_lookup_insert_Some in Hj as [(<- & <- & _) | (Hne & Hj)].
      * split.
        -- intros wq' E. rewrite Hq' in E. injection E as <-. reflexivity.
        -- intros r' Hr. rewrite Hr' in Hr. destruct (Hresults r' Hr) as [-> Hd].
           split; [reflexivity | simpl; congruence].
      * apply (Hstable j qj Hne Hj); [apply (Hothers j qj Hne Hj); auto | simpl; auto].
    + unfold inside in Hcount. rewrite Hq' in Hcount. simpl in Hcount. rewrite Eo in *. lia.
  - (* WRead *)
    injection Hn as <- <-. destruct Hres as [Hq' Hr'].
    assert (Er : waitResult (cmd w) = os_wait os).
    { unfold once_state in H2. rewrite Hloc in H2. tauto. }
    split; simpl; auto.
    + intros j qj Hj. apply list_lookup_insert_Some in Hj as [(<- & <- & _) | (Hne & Hj)].
      * split.
        -- intros wq' E. destruct Hq' as [E' | E']; rewrite E' in E; [discriminate |].
           injection E as <-. exact I.
        -- intros r' Hr. destruct (Hr' r' Hr) as [Hold | ->]; auto.
      * apply (H3 j qj Hj).
    + assert (inside q' = false) as Hin'.
      { unfold inside. destruct Hq' as [-> | ->]; reflexivity. }
      rewrite Hin' in Hcount. simpl in Hcount. lia.
  - (* WHalt *)
    destruct Hloc.
Qed.

Lemma terminate_next_view (q : tpt) (w w' : world) (res : tpt + unit) :
  terminate_next q w = Some (w', res) -> wait_view w' = wait_view w.
Proof.
  destruct q; simpl; [| | discriminate];
    destruct (terminateCh (cmd w)); intros E; injection E as <- <-; reflexivity.
Qed.

Lemma signal_next_view (sig : Signal) (q : spt) (w w' : world) (res : spt + option error) :
  signal_next os sig q w = Some (w', res) -> wait_view w' = wait_view w.
Proof.
  destruct q; simpl; try discriminate.
  - destruct (Process (cmd w)); intros E; injection E as <- <-; reflexivity.
  - intros E; injection E as <- <-; reflexivity.
  - destruct (pgid (cmd w) <? 0)%Z; intros E; injection E as <- <-; reflexivity.
  - destruct (os_getpgid os (n_getpgid w)); intros E; injection E as <- <-; reflexivity.
  - intros E; injection E as <- <-; reflexivity.
  - intros E; injection E as <- <-; reflexivity.
Qed.

Lemma wpt_of_calls (results : list (option error)) (cs : list call) :
  wpt_of (calls results cs) = None \/ wpt_of (calls results cs) = Some WEnter.
Proof. destruct cs as [| [] cs]; simpl; auto. Qed.

Lemma results_of_calls (results : list (option error)) (cs : list call) :
  results_of (calls results cs) = results.
Proof. destruct cs as [| [] cs]; reflexivity. Qed.

Lemma wait_invariant_next (w : world) (pts : list pt) (i : nat) (q : pt) (w' : world) (q' : pt) :
  wait_invariant os w pts -> pts !! i = Some q -> next os q w = Some (w', q') ->
  wait_invariant os w' (<[i := q']> pts).
Proof.
  intros HI Hq Hn.
  destruct q as [results cs [| wq | tq] | gq | kq]; cbn -[Nat.modulo nth length ready wait_next terminate_next signal_next] in Hn.
  - discriminate.
  - destruct (wait_next os wq w) as [[w1 res] |] eqn:Hw; [| discriminate].
    apply (wait_invariant_wait w w' pts i _ q' wq res HI Hq eq_refl).
    + destruct res; injection Hn as <- <-; exact Hw.
    + destruct res as [wq' | r]; injection Hn as <- <-; simpl; [auto |].
      split; [apply wpt_of_calls |].
      intros r'. rewrite results_of_calls, in_app_iff. simpl.
      intros [H | [H | []]]; auto.
  - destruct (terminate_next tq w) as [[w1 res] |] eqn:Ht; [| discriminate].
    apply (wait_invariant_frame w w' pts i _ q' HI Hq); try reflexivity.
    + destruct res; injection Hn as <- <-; eapply terminate_next_view; eauto.
    + destruct res; injection Hn as <- <-; [left; reflexivity | apply wpt_of_calls].
    + destruct res; injection Hn as <- <-; [auto |]. now rewrite results_of_calls.
  - destruct gq as [| | desc | sq | [e |] | wq |]; cbn -[Nat.modulo nth length ready wait_next terminate_next signal_next] in Hn.
    + destruct (go_watcher w); [| discriminate]. injection Hn as <- <-.
      apply (wait_invariant_frame w w pts i _ _ HI Hq); simpl; auto.
    + destruct (ready w) as [| t ts]; [discriminate |].
      destruct (nth (os_select os mod length (t :: ts)) (t :: ts) t);
        injection Hn as <- <-;
        apply (wait_invariant_frame w w pts i _ _ HI Hq); simpl; auto.
    + injection Hn as <- <-.
      apply (wait_invariant_frame w _ pts i _ _ HI Hq); simpl; auto.
    + destruct (signal_next os SIGTERM sq w) as [[w1 res] |] eqn:Hs; [| discriminate].
      apply (wait_invariant_frame w w' pts i _ q' HI Hq); try reflexivity.
      * destruct res; injection Hn as <- <-; eapply signal_next_view; eauto.
      * destruct res; injection Hn as <- <-; left; reflexivity.
      * destruct res; injection Hn as <- <-; auto.
    + injection Hn as <- <-.
      apply (wait_invariant_frame w _ pts i _ _ HI Hq); simpl; auto.
    + injection Hn as <- <-.
      apply (wait_invariant_frame w _ pts i _ _ HI Hq); simpl; auto.
    + destruct (wait_next os wq w) as [[w1 res] |] eqn:Hw; [| discriminate].
      apply (wait_invariant_wait w w' pts i _ q' wq res HI Hq eq_refl).
      * destruct res; injection Hn as <- <-; exact Hw.
      * destruct res as [wq' | r]; injection Hn as <- <-; simpl; auto.
    + discriminate.
  - destruct kq as [| | | sq | e |]; cbn -[Nat.modulo nth length ready wait_next terminate_next signal_next] in Hn.
    + destruct (match timer w with Some d => d <=? now w | None => false end); [| discriminate].
      injection Hn as <- <-.
      apply (wait_invariant_frame w w pts i _ _ HI Hq); simpl; auto.
    + destruct (waitDoneCh (cmd w)); injection Hn as <- <-;
        apply (wait_invariant_frame w w pts i _ _ HI Hq); simpl; auto.
    + injection Hn as <- <-.
      apply (wait_invariant_frame w _ pts i _ _ HI Hq); simpl; auto.
    + destruct (signal_next os SIGKILL sq w) as [[w1 res] |] eqn:Hs; [| discriminate].
      apply (wait_invariant_frame w w' pts i _ q' HI Hq); try reflexivity.
      * destruct res as [? | [? |]]; injection Hn as <- <-; eapply signal_next_view; eauto.
      * destruct res as [? | [? |]]; injection Hn as <- <-; left; reflexivity.
      * destruct res as [? | [? |]]; injection Hn as <- <-; auto.
    + injection Hn as <- <-.
      apply (wait_invariant_frame w _ pts i _ _ HI Hq); simpl; auto.
    + discriminate.
Qed.

Lemma wait_invariant_view (w w' : world) (pts : list pt) :
  wait_view w' = wait_view w -> wait_invariant os w pts -> wait_invariant os w' pts.
Proof.
  intros Hv [H1 H2 H3 H4]. split.
  - unfold wait_view in Hv. injection Hv as E1 _ _ _ _. now rewrite E1.
  - now apply (once_state_view w).
  - intros j qj Hj. destruct (H3 j qj Hj) as [Ha Hb]. split.
    + intros wq Hwq. apply (wait_local_view wq w); auto.
    + intros r Hr. destruct (Hb r Hr) as [-> Hd]. split; [reflexivity |].
      unfold wait_view in Hv. injection Hv as _ E2 _ _ _. congruence.
  - unfold wait_view in Hv. injection Hv as _ E2 _ _ _. now rewrite E2.
Qed.

Lemma count_inside_calls (callers : list (list call)) :
  count_inside (map (calls []) callers) = 0.
Proof.
  unfold count_inside. induction callers as [| cs callers IH]; [reflexivity |].
  simpl. rewrite filter_cons.
  destruct (decide (inside (calls [] cs) = true)) as [H | H]; [| exact IH].
  destruct cs as [| [] cs]; discriminate H.
Qed.

Lemma wait_invariant_initial (pid : nat) (callers : list (list call)) :
  os_start os = inr pid -> wait_invariant os (started os) (initial callers).
Proof.
  intros Hs. unfold started, Start, Cmd_Start, Getpgid. simpl. rewrite Hs. simpl.
  assert (Hpts : forall i q, initial callers !! i = Some q -> pt_local os NewCommand q
                 /\ forall w, pt_local os w q).
  { intros i q Hq. assert (Hl : forall w, pt_local os w q); [| split; auto].
    intros w. destruct i as [| [| i]]; simpl in Hq.
    - injection Hq as <-. split; [discriminate | intros r []].
    - injection Hq as <-. split; [discriminate | intros r []].
    - unfold initial in Hq. simpl in Hq. rewrite list_lookup_fmap in Hq.
      destruct (callers !! i) as [cs |]; [| discriminate]. injection Hq as <-.
      split.
      + intros wq Hwq. destruct (wpt_of_calls [] cs) as [E | E]; rewrite E in Hwq;
          [discriminate | injection Hwq as <-; exact I].
      + rewrite results_of_calls. intros r []. }
  destruct (os_getpgid os 0) as [e | g]; simpl;
    (split; simpl;
     [ discriminate
     | unfold once_state; simpl; auto
     | intros i q Hq; apply (Hpts i q Hq)
     | unfold initial, count_inside; simpl; rewrite !filter_cons; simpl;
       apply count_inside_calls ]).
Qed.

Lemma goroutines_code (callers : list (list call)) :
  goroutines os callers = code os <$> initial callers.
Proof.
  unfold goroutines, initial. simpl. f_equal. f_equal.
  induction callers as [| cs callers IH]; [reflexivity |].
  simpl. rewrite code_calls. f_equal. exact IH.
Qed.

Lemma code_returned (q : pt) (rs : list (option error)) :
  code os q = Ret rs -> rs = results_of q.
Proof.
  destruct q as [results cs [| wq | tq] | gq | kq]; simpl.
  - congruence.
  - destruct wq; discriminate.
  - destruct tq; discriminate.
  - destruct gq as [| | desc | sq | [e |] | wq |]; try discriminate;
      try (destruct sq; discriminate); try (destruct wq; discriminate).
    intros E. injection E as <-. reflexivity.
  - destruct kq as [| | | sq | e |]; try discriminate;
      try (destruct sq; discriminate).
    intros E. injection E as <-. reflexivity.
Qed.

Lemma count_inside_some (pts : list pt) :
  count_inside pts = 1 -> exists i q, pts !! i = Some q /\ inside q = true.
Proof.
  unfold count_inside. induction pts as [| a pts IH]; [discriminate |].
  rewrite filter_cons. destruct (decide (inside a = true)) as [Ha | Ha].
  - intros _. exists 0, a. auto.
  - intros H. destruct (IH H) as (i & q & Hq & Hin). exists (S i), q. auto.
Qed.

Lemma wait_invariant_n_wait (w : world) (pts : list pt) :
  wait_invariant os w pts -> n_wait w <= 1.
Proof.
  intros [H1 H2 H3 H4]. unfold once_state in H2.
  destruct (waitOnce (cmd w)) eqn:Eo; try lia.
  destruct (count_inside_some pts H4) as (i & q & Hq & Hin).
  destruct (H3 i q Hq) as [Ha _]. unfold inside in Hin.
  destruct (wpt_of q) as [wq |]; [| discriminate].
  specialize (Ha wq eq_refl). destruct wq; simpl in *; try discriminate; lia.
Qed.

(** *** Wait() returns *)

Lemma run_app (es1 es2 : list event) (c : world * list (prog world (list (option error)))) :
  run (es1 ++ es2) c = run es2 (run es1 c).
Proof. unfold run. apply fold_left_app. Qed.

Ltac next_cases H :=
  repeat match type of H with
         | context [match ?x with _ => _ end] =>
             lazymatch x with
             | context [match _ with _ => _ end] => fail
             | _ => destruct x eqn:?; try discriminate H
             end
         end;
  try discriminate H; injection H as <- <-.

Lemma calm_calls (rs : list (option error)) (r : option error) (cs : list call) :
  waits cs = true ->
  calm (calls (rs ++ [r]) cs) = true /\
  total (calls (rs ++ [r]) cs) = S (length rs + length cs) /\
  is_caller (calls (rs ++ [r]) cs).
Proof.
  intros Hc. unfold total.
  destruct cs as [| [] cs]; simpl in *; try discriminate; rewrite length_app; simpl;
    (split; [auto | split; [lia | exact I]]).
Qed.

Lemma calm_next (w : world) (q : pt) (w' : world) (q' : pt) :
  Process (cmd w) <> None -> pt_local os w q -> calm q = true ->
  next os q w = Some (w', q') ->
  panicked w' = panicked w /\ exited w' = exited w /\ calm q' = true /\
  total q' = total q /\ (is_caller q -> is_caller q').
Proof.
  intros HP [Hl _] Hc Hn.
  destruct q as [rs cs [| wq | tq] | gq | kq]; simpl in Hc, Hn; try discriminate.
  - specialize (Hl wq eq_refl).
    destruct wq; simpl in Hn, Hl; next_cases Hn;
      try (destruct (calm_calls rs (waitResult (cmd w)) cs Hc) as (? & ? & ?);
           unfold total in *; simpl in *; repeat split; auto; lia);
      try (simpl; repeat split; auto; fail);
      try (exfalso; intuition congruence).
  - destruct gq as [| | desc | sq | [e |] | wq |]; simpl in Hn.
    all: try (next_cases Hn; simpl; repeat split; auto; fail).
    + destruct sq; simpl in Hn, Hc; try discriminate; next_cases Hn;
        try (simpl; repeat split; auto; fail); try congruence.
    + specialize (Hl wq eq_refl).
      destruct wq; simpl in Hn, Hl; next_cases Hn;
        try (simpl; repeat split; auto; fail);
        try (exfalso; intuition congruence).
  - destruct kq as [| | | sq | e |]; simpl in Hn.
    all: try (next_cases Hn; simpl; repeat split; auto; fail).
    destruct sq; simpl in Hn, Hc; try discriminate; next_cases Hn;
      try (simpl; repeat split; auto; fail); try congruence.
Qed.

Lemma waiting_next (tot : list nat) (ex : bool) (w : world) (pts : list pt) (i : nat)
    (q : pt) (w' : world) (q' : pt) :
  waiting_invariant os tot ex w pts -> pts !! i = Some q -> next os q w = Some (w', q') ->
  waiting_invariant os tot ex w' (<[i := q']> pts).
Proof.
  intros [Hw Hp He Hc Hcs Ht] Hq Hn.
  destruct (calm_next w q w' q' (wi_started _ _ _ Hw) (wi_local _ _ _ Hw i q Hq)
              (Hc i q Hq) Hn) as (Ep & Ee & Hc' & Et & Hcaller).
  split.
  - eapply wait_invariant_next; eauto.
  - congruence.
  - intros Hex. rewrite Ee. auto.
  - intros j qj Hj. apply list_lookup_insert_Some in Hj as [(<- & <- & _) | (Hne & Hj)]; eauto.
  - intros j qj Hle Hj. apply list_lookup_insert_Some in Hj as [(<- & <- & _) | (Hne & Hj)];
      eauto.
  - rewrite list_fmap_insert, Et, <- Ht. apply list_insert_id.
    rewrite list_lookup_fmap, Hq. reflexivity.
Qed.

Lemma waiting_view (tot : list nat) (ex : bool) (w w' : world) (pts : list pt) :
  wait_view w' = wait_view w -> panicked w' = panicked w ->
  (exited w = true -> exited w' = true) ->
  waiting_invariant os tot ex w pts -> waiting_invariant os tot ex w' pts.
Proof.
  intros Hv Ep Ee [Hw Hp He Hc Hcs Ht]. split; auto.
  - eapply wait_invariant_view; eauto.
  - congruence.
Qed.

(** A goroutine that can take a step takes it when it is scheduled. *)
Lemma waiting_sched (tot : list nat) (ex : bool) (w : world) (pts : list pt) (i : nat)
    (q : pt) (w' : world) (q' : pt) :
  waiting_invariant os tot ex w pts -> pts !! i = Some q -> next os q w = Some (w', q') ->
  run [Sched i] (w, code os <$> pts) = (w', code os <$> <[i := q']> pts) /\
  waiting_invariant os tot ex w' (<[i := q']> pts).
Proof.
  intros HJ Hq Hn. split; [| eapply waiting_next; eauto].
  unfold run, step. simpl. rewrite (wt_panicked _ _ _ _ _ HJ).
  rewrite list_fmap_insert.
  apply step_thread_at with (p := code os q).
  - rewrite list_lookup_fmap, Hq. reflexivity.
  - rewrite code_step, Hn. reflexivity.
Qed.

(** A step inside Wait() of a goroutine that is in Wait(). *)
Lemma wpt_step (q : pt) (wq wq' : wpt) (w w' : world) :
  wpt_of q = Some wq -> wait_next os wq w = Some (w', inl wq') ->
  exists q', next os q w = Some (w', q') /\ wpt_of q' = Some wq'.
Proof.
  intros Hq Hn.
  destruct q as [rs cs [| wq0 | tq] | gq | kq]; simpl in Hq; try discriminate.
  - injection Hq as ->. simpl. rewrite Hn. eexists. split; reflexivity.
  - destruct gq; try discriminate. injection Hq as ->. simpl. rewrite Hn.
    eexists. split; reflexivity.
Qed.

(** Once the process has exited, the goroutine that is inside the function
    of the Once gets to its end. *)
Lemma once_left (tot : list nat) (w : world) (pts : list pt) (i : nat) (q : pt) (wq : wpt) :
  waiting_invariant os tot true w pts -> pts !! i = Some q ->
  wpt_of q = Some wq -> in_once wq = true ->
  exists es w' pts', run es (w, code os <$> pts) = (w', code os <$> pts') /\
    waiting_invariant os tot true w' pts' /\ waitOnce (cmd w') = OnceDone.
Proof.
  assert (Hleave : forall w pts q, waiting_invariant os tot true w pts -> pts !! i = Some q ->
            wpt_of q = Some WLeave ->
            exists es w' pts', run es (w, code os <$> pts) = (w', code os <$> pts') /\
              waiting_invariant os tot true w' pts' /\ waitOnce (cmd w') = OnceDone).
  { clear. intros w pts q HJ Hq Hwq.
    destruct (wpt_step q WLeave WRead w _ Hwq eq_refl) as (q' & Hn & _).
    destruct (waiting_sched _ _ _ _ _ _ _ _ HJ Hq Hn) as [E HJ'].
    exists [Sched i]. eexists. eexists. split; [exact E |]. split; [exact HJ' | reflexivity]. }
  assert (Hclose : forall w pts q, waiting_invariant os tot true w pts -> pts !! i = Some q ->
            wpt_of q = Some WClose ->
            exists es w' pts', run es (w, code os <$> pts) = (w', code os <$> pts') /\
              waiting_invariant os tot true w' pts' /\ waitOnce (cmd w') = OnceDone).
  { clear - Hleave. intros w pts q HJ Hq Hwq.
    destruct (wi_local _ _ _ (wt_wait _ _ _ _ _ HJ) i q Hq) as [Hl _].
    specialize (Hl _ Hwq). destruct Hl as (_ & _ & _ & Hd).
    assert (Hn0 : wait_next os WClose w = Some (set_cmd (set_waitDoneCh true) w, inl WLeave)).
    { simpl. rewrite Hd. reflexivity. }
    destruct (wpt_step q WClose WLeave w _ Hwq Hn0) as (q' & Hn & Hq').
    destruct (waiting_sched _ _ _ _ _ _ _ _ HJ Hq Hn) as [E HJ'].
    destruct (Hleave _ _ q' HJ') as (es & w' & pts' & E' & HJ'' & Hd'); auto.
    { apply list_lookup_insert_eq. apply lookup_lt_Some in Hq. exact Hq. }
    exists (Sched i :: es), w', pts'. split; [| auto].
    change (Sched i :: es) with ([Sched i] ++ es). rewrite run_app, E. exact E'. }
  assert (Hstore : forall r w pts q, waiting_invariant os tot true w pts -> pts !! i = Some q ->
            wpt_of q = Some (WStore r) ->
            exists es w' pts', run es (w, code os <$> pts) = (w', code os <$> pts') /\
              waiting_invariant os tot true w' pts' /\ waitOnce (cmd w') = OnceDone).
  { clear - Hclose. intros r w pts q HJ Hq Hwq.
    destruct (wpt_step q (WStore r) WClose w _ Hwq eq_refl) as (q' & Hn & Hq').
    destruct (waiting_sched _ _ _ _ _ _ _ _ HJ Hq Hn) as [E HJ'].
    destruct (Hclose _ _ q' HJ') as (es & w' & pts' & E' & HJ'' & Hd'); auto.
    { apply list_lookup_insert_eq. apply lookup_lt_Some in Hq. exact Hq. }
    exists (Sched i :: es), w', pts'. split; [| auto].
    change (Sched i :: es) with ([Sched i] ++ es). rewrite run_app, E. exact E'. }
  intros HJ Hq Hwq Hin. destruct wq; try discriminate; eauto.
  destruct (wi_local _ _ _ (wt_wait _ _ _ _ _ HJ) i q Hq) as [Hl _].
  specialize (Hl _ Hwq). destruct Hl as (_ & Hn0 & _).
  pose proof (wi_started _ _ _ (wt_wait _ _ _ _ _ HJ)) as HP.
  pose proof (wt_exited _ _ _ _ _ HJ eq_refl) as Hex.
  assert (Hn1 : wait_next os WCall w
                = Some (set_n_wait (S (n_wait w)) w, inl (WStore (os_wait os)))).
  { simpl. destruct (Process (cmd w)); [| congruence]. rewrite Hn0, Hex. reflexivity. }
  destruct (wpt_step q WCall _ w _ Hwq Hn1) as (q' & Hn & Hq').
  destruct (waiting_sched _ _ _ _ _ _ _ _ HJ Hq Hn) as [E HJ'].
  destruct (Hstore (os_wait os) _ _ q' HJ') as (es & w' & pts' & E' & HJ'' & Hd'); eauto.
  { apply list_lookup_insert_eq. apply lookup_lt_Some in Hq. exact Hq. }
  exists (Sched i :: es), w', pts'. split; [| auto].
  change (Sched i :: es) with ([Sched i] ++ es). rewrite run_app, E. exact E'.
Qed.

(** While no goroutine is inside the function of the Once, a caller that has
    not returned from Wait() stands at its entry or, when the Once is done,
    before its return. *)
Lemma pending_point (w : world) (pts : list pt) (i : nat) (q : pt) :
  wait_invariant os w pts -> pts !! i = Some q -> 0 < pending q ->
  waitOnce (cmd w) <> OnceRunning ->
  exists rs cs, q = PCaller rs cs (CWait WEnter) \/
                (q = PCaller rs cs (CWait WRead) /\ waitOnce (cmd w) = OnceDone).
Proof.
  intros [H1 H2 H3 H4] Hq Hp Hr.
  destruct q as [rs cs [| wq | tq] | gq | kq]; simpl in Hp; try lia.
  exists rs, cs.
  assert (Hout : inside (PCaller rs cs (CWait wq)) = false).
  { eapply count_inside_zero; [| exact Hq]. rewrite H4.
    destruct (waitOnce (cmd w)); congruence. }
  destruct (H3 i _ Hq) as [Hl _]. specialize (Hl wq eq_refl).
  destruct wq; simpl in Hl; try discriminate; auto. destruct Hl.
Qed.

(** Once the process has exited and some caller is in Wait(), the function
    of the Once is run to its end. *)
Lemma once_done (tot : list nat) (w : world) (pts : list pt) (i : nat) (q : pt) :
  waiting_invariant os tot true w pts -> pts !! i = Some q -> 0 < pending q ->
  exists es w' pts', run es (w, code os <$> pts) = (w', code os <$> pts') /\
    waiting_invariant os tot true w' pts' /\ waitOnce (cmd w') = OnceDone.
Proof.
  intros HJ Hq Hp. pose proof (wt_wait _ _ _ _ _ HJ) as HW.
  destruct (waitOnce (cmd w)) eqn:Eo.
  - destruct (pending_point w pts i q HW Hq Hp) as (rs & cs & [-> | [_ E]]);
      [congruence | | congruence].
    assert (Hn : next os (PCaller rs cs (CWait WEnter)) w
                 = Some (set_cmd (set_waitOnce OnceRunning) w, PCaller rs cs (CWait WCall))).
    { simpl. rewrite Eo. reflexivity. }
    destruct (waiting_sched _ _ _ _ _ _ _ _ HJ Hq Hn) as [E HJ'].
    destruct (once_left tot _ _ i (PCaller rs cs (CWait WCall)) WCall HJ')
      as (es & w' & pts' & E' & HJ'' & Hd'); auto.
    { apply list_lookup_insert_eq. apply lookup_lt_Some in Hq. exact Hq. }
    exists (Sched i :: es), w', pts'. split; [| auto].
    change (Sched i :: es) with ([Sched i] ++ es). rewrite run_app, E. exact E'.
  - pose proof (wi_count _ _ _ HW) as Hc. rewrite Eo in Hc.
    destruct (count_inside_some pts Hc) as (i0 & q0 & Hq0 & Hin).
    unfold inside in Hin. destruct (wpt_of q0) as [wq |] eqn:Hwq; [| discriminate].
    eapply once_left; eauto.
  - exists [], w, pts. auto.
Qed.

Lemma pending_calls (rs : list (option error)) (cs : list call) :
  pending (calls rs cs) <= length cs.
Proof. destruct cs as [| [] cs]; simpl; lia. Qed.

(** When the Once is done, a caller returns from all the calls of Wait() it
    makes without a change of the world, and the other goroutines stand
    where they stood. *)
Lemma caller_returns (tot : list nat) (ex : bool) (w : world) (i n : nat) :
  waitOnce (cmd w) = OnceDone ->
  forall pts q, waiting_invariant os tot ex w pts -> pts !! i = Some q -> pending q <= n ->
  exists es pts', run es (w, code os <$> pts) = (w, code os <$> pts') /\
    waiting_invariant os tot ex w pts' /\
    (exists q', pts' !! i = Some q' /\ pending q' = 0) /\
    forall j, j <> i -> pts' !! j = pts !! j.
Proof.
  intros Hd. induction n as [| n IH]; intros pts q HJ Hq Hp.
  { exists [], pts. split; [reflexivity |]. split; [exact HJ |].
    split; [exists q; split; [exact Hq | lia] | auto]. }
  destruct (Nat.eq_dec (pending q) 0) as [H0 | H0].
  { exists [], pts. split; [reflexivity |]. split; [exact HJ |].
    split; [exists q; split; [exact Hq | lia] | auto]. }
  assert (Hread : forall pts rs cs, waiting_invariant os tot ex w pts ->
            pts !! i = Some (PCaller rs cs (CWait WRead)) -> length cs <= n ->
            exists es pts', run es (w, code os <$> pts) = (w, code os <$> pts') /\
              waiting_invariant os tot ex w pts' /\
              (exists q', pts' !! i = Some q' /\ pending q' = 0) /\
              forall j, j <> i -> pts' !! j = pts !! j).
  { clear pts q HJ Hq Hp H0. intros pts rs cs HJ Hq Hp.
    destruct (waiting_sched _ _ _ _ _ _ _ _ HJ Hq
                (eq_refl : next os (PCaller rs cs (CWait WRead)) w = Some (w, _))) as [E HJ'].
    destruct (IH _ (calls (rs ++ [waitResult (cmd w)]) cs) HJ')
      as (es & pts' & E' & HJ'' & Hq' & Hother).
    { apply list_lookup_insert_eq. apply lookup_lt_Some in Hq. exact Hq. }
    { pose proof (pending_calls (rs ++ [waitResult (cmd w)]) cs). lia. }
    exists (Sched i :: es), pts'. split.
    { change (Sched i :: es) with ([Sched i] ++ es). rewrite run_app, E. exact E'. }
    split; [exact HJ'' |]. split; [exact Hq' |].
    intros j Hj. rewrite (Hother j Hj). apply list_lookup_insert_ne. auto. }
  destruct (pending_point w pts i q (wt_wait _ _ _ _ _ HJ) Hq) as (rs & cs & [-> | [-> _]]);
    [lia | congruence | | apply (Hread pts rs cs); [exact HJ | exact Hq | simpl in Hp; lia]].
  assert (Hn : next os (PCaller rs cs (CWait WEnter)) w = Some (w, PCaller rs cs (CWait WRead))).
  { simpl. rewrite Hd. reflexivity. }
  destruct (waiting_sched _ _ _ _ _ _ _ _ HJ Hq Hn) as [E HJ'].
  destruct (Hread _ rs cs HJ') as (es & pts' & E' & HJ'' & Hq' & Hother).
  { apply list_lookup_insert_eq. apply lookup_lt_Some in Hq. exact Hq. }
  { simpl in Hp. lia. }
  exists (Sched i :: es), pts'. split.
  { change (Sched i :: es) with ([Sched i] ++ es). rewrite run_app, E. exact E'. }
  split; [exact HJ'' |]. split; [exact Hq' |].
  intros j Hj. rewrite (Hother j Hj). apply list_lookup_insert_ne. auto.
Qed.

Lemma callers_return (tot : list nat) (ex : bool) (w : world) (k : nat) :
  waitOnce (cmd w) = OnceDone ->
  forall pts, waiting_invariant os tot ex w pts ->
  exists es pts', run es (w, code os <$> pts) = (w, code os <$> pts') /\
    waiting_invariant os tot ex w pts' /\
    forall i q, i < k -> pts' !! i = Some q -> pending q = 0.
Proof.
  intros Hd. induction k as [| k IH]; intros pts HJ.
  { exists [], pts. split; [reflexivity |]. split; [exact HJ |]. intros i q Hi. lia. }
  destruct (IH pts HJ) as (es1 & pts1 & E1 & HJ1 & H1).
  destruct (pts1 !! k) as [q |] eqn:Hq.
  - destruct (caller_returns tot ex w k (pending q) Hd pts1 q HJ1 Hq (le_n _))
      as (es2 & pts2 & E2 & HJ2 & (q' & Hq' & Hp') & Hother).
    exists (es1 ++ es2), pts2. split; [rewrite run_app, E1; exact E2 |].
    split; [exact HJ2 |]. intros i qi Hi Hqi.
    destruct (Nat.eq_dec i k) as [-> | Hne]; [congruence |].
    rewrite (Hother i Hne) in Hqi. apply (H1 i qi); [lia | exact Hqi].
  - exists es1, pts1. split; [exact E1 |]. split; [exact HJ1 |].
    intros i qi Hi Hqi. destruct (Nat.eq_dec i k) as [-> | Hne]; [congruence |].
    apply (H1 i qi); [lia | exact Hqi].
Qed.

(** Once the process has exited, the goroutines can be scheduled so that
    every call of Wait() returns. *)
Lemma all_return (tot : list nat) (w : world) (pts : list pt) :
  waiting_invariant os tot true w pts ->
  exists es w' pts', run es (w, code os <$> pts) = (w', code os <$> pts') /\
    waiting_invariant os tot true w' pts' /\
    forall i q, pts' !! i = Some q -> pending q = 0.
Proof.
  intros HJ.
  destruct (decide (Forall (fun q => pending q = 0) pts)) as [Hall | Hnot].
  { exists [], w, pts. split; [reflexivity |]. split; [exact HJ |].
    intros i q Hq. exact (proj1 (Forall_lookup _ _) Hall i q Hq). }
  apply not_Forall_Exists in Hnot; [| intros q; apply _].
  apply Exists_exists in Hnot as (q & Hin & Hq). simpl in Hq.
  apply list_elem_of_lookup in Hin as [i Hi].
  destruct (once_done tot w pts i q HJ Hi) as (es1 & w1 & pts1 & E1 & HJ1 & Hd); [lia |].
  destruct (callers_return tot true w1 (length pts1) Hd pts1 HJ1) as (es2 & pts2 & E2 & HJ2 & H2).
  exists (es1 ++ es2), w1, pts2. split; [rewrite run_app, E1; exact E2 |].
  split; [exact HJ2 |]. intros j qj Hj. apply (H2 j qj); [| exact Hj].
  apply lookup_lt_Some in Hj.
  assert (El : length pts2 = length pts1).
  { rewrite <- (length_fmap total pts2), <- (length_fmap total pts1).
    now rewrite (wt_total _ _ _ _ _ HJ2), (wt_total _ _ _ _ _ HJ1). }
  lia.
Qed.

Lemma waits_repeat (n : nat) : waits (repeat CallWait n) = true.
Proof. induction n; simpl; auto. Qed.

Lemma started_panicked (pid : nat) : os_start os = inr pid -> panicked (started os) = false.
Proof.
  intros Hs. unfold started, Start, Cmd_Start, Getpgid. simpl. rewrite Hs. simpl.
  destruct (os_getpgid os 0); reflexivity.
Qed.

Lemma waiting_invariant_initial (pid : nat) (ns : list nat) :
  os_start os = inr pid ->
  waiting_invariant os (0 :: 0 :: ns) false (started os) (initial (waiters ns)).
Proof.
  intros Hs. split.
  - eapply wait_invariant_initial; eauto.
  - eapply started_panicked; eauto.
  - discriminate.
  - intros [| [| i]] q Hq; simpl in Hq; try (injection Hq as <-; reflexivity).
    unfold waiters in Hq. rewrite !list_lookup_fmap in Hq.
    destruct (ns !! i) as [[| n] |]; simpl in Hq; try discriminate; injection Hq as <-.
    + reflexivity.
    + simpl. apply waits_repeat.
  - intros [| [| i]] q Hle Hq; try lia. simpl in Hq. rewrite list_lookup_fmap in Hq.
    destruct (waiters ns !! i) as [cs |]; [| discriminate]. injection Hq as <-.
    destruct cs as [| [] cs]; exact I.
  - unfold initial, waiters. simpl. f_equal. f_equal.
    induction ns as [| n ns IH]; [reflexivity |]. simpl. rewrite IH. f_equal.
    destruct n as [| n]; [reflexivity |]. unfold total. simpl. now rewrite repeat_length.
Qed.

Lemma all_equal (rs : list (option error)) (x : option error) :
  (forall r, In r rs -> r = x) -> rs = replicate (length rs) x.
Proof.
  induction rs as [| r rs IH]; intros H; [reflexivity |].
  simpl. rewrite (H r (or_introl eq_refl)). f_equal. apply IH. intros r' Hr. apply H. now right.
Qed.

Lemma Wait_returns (pid : nat) (ns : list nat) (es : list event) :
  os_start os = inr pid ->
  exists es', forall i n, ns !! i = Some n ->
    (run (es ++ Exit :: es') (started os, goroutines os (waiters ns))).2 !! (2 + i)
      = Some (Ret (replicate n (os_wait os))) /\
    (0 < n -> n_wait (run (es ++ Exit :: es') (started os, goroutines os (waiters ns))).1 = 1).
Proof.
  intros Hs. rewrite goroutines_code.
  destruct (run_invariant (waiting_invariant os (0 :: 0 :: ns) false)
              (waiting_next (0 :: 0 :: ns) false)
              (fun w pts d => waiting_view _ _ w (set_now (now w + d) w) pts eq_refl eq_refl
                                (fun H => H))
              (fun w pts => waiting_view _ _ w (set_exited true w) pts eq_refl eq_refl
                              (fun _ => eq_refl))
              (fun w pts => waiting_view _ _ w (set_ctx_done true w) pts eq_refl eq_refl
                              (fun H => H))
              es (started os) (initial (waiters ns)) (waiting_invariant_initial pid ns Hs))
    as (pts1 & E1 & HJ1).
  set (w1 := (run es (started os, code os <$> initial (waiters ns))).1) in *.
  assert (HJ2 : waiting_invariant os (0 :: 0 :: ns) true (set_exited true w1) pts1).
  { destruct HJ1 as [Hw Hp He Hc Hcs Ht]. split; auto.
    eapply wait_invariant_view; [| exact Hw]. reflexivity. }
  destruct (all_return _ _ _ HJ2) as (es' & w3 & pts3 & E3 & HJ3 & Hdone).
  exists es'. intros i n Hi.
  change (Exit :: es') with ([Exit] ++ es'). rewrite !run_app, E1.
  replace (run [Exit] (w1, code os <$> pts1)) with (set_exited true w1, code os <$> pts1)
    by (unfold run, step; simpl; now rewrite (wt_panicked _ _ _ _ _ HJ1)).
  rewrite E3. cbn [fst snd].
  assert (Ht : (total <$> pts3) !! (2 + i) = Some n).
  { rewrite (wt_total _ _ _ _ _ HJ3). exact Hi. }
  rewrite list_lookup_fmap in Ht.
  destruct (pts3 !! (2 + i)) as [q |] eqn:Hq; [| discriminate]. injection Ht as Ht.
  pose proof (Hdone _ _ Hq) as Hp.
  pose proof (wt_calm _ _ _ _ _ HJ3 _ _ Hq) as Hc.
  pose proof (wt_callers _ _ _ _ _ HJ3 (2 + i) q (Nat.le_add_r 2 i) Hq) as Hcaller.
  destruct (wi_local _ _ _ (wt_wait _ _ _ _ _ HJ3) _ _ Hq) as [_ Hres].
  destruct q as [rs cs [| wq | tq] | gq | kq]; simpl in Hp, Hc, Hcaller;
    try discriminate; try contradiction.
  unfold total in Ht. simpl in Ht, Hres. rewrite Nat.add_0_r in Ht. subst n.
  rewrite list_lookup_fmap.
  rewrite Hq. simpl. split.
  - f_equal. f_equal. apply all_equal. intros r Hr. apply Hres. exact Hr.
  - intros Hpos. destruct rs as [| r rs]; [simpl in Hpos; lia |].
    destruct (Hres r (or_introl eq_refl)) as [_ Hd].
    pose proof (wi_once _ _ _ (wt_wait _ _ _ _ _ HJ3)) as Ho.
    unfold once_state in Ho. rewrite Hd in Ho. tauto.
Qed.

(** C5. Around a started command, however the goroutines that call Wait()
    (any number of them, each any number of times, with Terminate() calls in
    between) are interleaved with each other, with the goroutine of Start()
    and with the environment: exec.Cmd.Wait is called at most once; as soon
    as one Wait() has returned it has been called exactly once; and every
    Wait() that has returned gave the result exec.Cmd.Wait reported. And
    Wait() does return: when the goroutines only call Wait(), the i-th of
    them [ns !! i] times, then from wherever a run has got to, once the
    process has exited the goroutines can go on so that every one of them has
    returned from every call of Wait(), each call with the result
    exec.Cmd.Wait reported, and exec.Cmd.Wait has been called exactly once. *)
Theorem Wait_once (pid : nat) (callers : list (list call)) (es : list event) :
  os_start os = inr pid ->
  n_wait (run es (started os, goroutines os callers)).1 <= 1 /\
  (forall i rs r,
     (run es (started os, goroutines os callers)).2 !! i = Some (Ret rs) ->
     In r rs ->
     r = os_wait os /\ n_wait (run es (started os, goroutines os callers)).1 = 1) /\
  (forall ns, callers = waiters ns ->
     exists es', forall i n, ns !! i = Some n ->
       (run (es ++ Exit :: es') (started os, goroutines os callers)).2 !! (2 + i)
         = Some (Ret (replicate n (os_wait os))) /\
       (0 < n ->
        n_wait (run (es ++ Exit :: es') (started os, goroutines os callers)).1 = 1)).
Proof.
  intros Hs. split; [| split].
  3: { intros ns ->. exact (Wait_returns pid ns es Hs). }
  all: rewrite goroutines_code;
    destruct (run_invariant (wait_invariant os) wait_invariant_next
                (fun w pts d => wait_invariant_view w (set_now (now w + d) w) pts eq_refl)
                (fun w pts => wait_invariant_view w (set_exited true w) pts eq_refl)
                (fun w pts => wait_invariant_view w (set_ctx_done true w) pts eq_refl)
                es (started os) (initial callers) (wait_invariant_initial pid callers Hs))
      as (pts' & E & HI).
  - eapply wait_invariant_n_wait; eauto.
  - intros i rs r Hi Hr. rewrite E in Hi. simpl in Hi.
    rewrite list_lookup_fmap in Hi.
    destruct (pts' !! i) as [q |] eqn:Hq; [| discriminate].
    injection Hi as Hc. apply code_returned in Hc. subst rs.
    destruct HI as [H1 H2 H3 H4]. destruct (H3 i q Hq) as [_ Hb].
    destruct (Hb r Hr) as [-> Hd]. split; [reflexivity |].
    unfold once_state in H2. rewrite Hd in H2. tauto.
Qed.

(** *** Signals *)

Lemma callback_inv_mono (kq : kpt) (ks : list (Z * Signal * nat)) (g : Z) (t t' d t1 : nat) :
  t <= t' -> callback_inv kq ks g t d t1 -> callback_inv kq ks g t' d t1.
Proof.
  intros Ht. destruct kq as [| | | sq | e |]; simpl; try tauto;
    try (intros [? ?]; split; [assumption | lia]).
  destruct sq; simpl; try tauto; intros [? ?]; split; (assumption || lia).
Qed.

Lemma signal_inv_at_mono (gq : gpt) (kq : kpt) (ks : list (Z * Signal * nat))
    (tm : option nat) (g : Z) (t t' : nat) (req req' : Prop) :
  t <= t' -> (req -> req') ->
  signal_inv_at os gq kq ks tm g t req -> signal_inv_at os gq kq ks tm g t' req'.
Proof.
  intros Ht Hreq.
  assert (Hwait : match tm with
      | None => kq = KTimer /\
          (ks = [] \/ (req /\ (0 <= g)%Z /\ os_kill os 0 <> None /\ exists t1, term_sent ks g t1))
      | Some d => req /\ (0 <= g)%Z /\ os_kill os 0 = None /\
          exists t1, t1 + grace <= d /\ callback_inv kq ks g t d t1
      end ->
      match tm with
      | None => kq = KTimer /\
          (ks = [] \/ (req' /\ (0 <= g)%Z /\ os_kill os 0 <> None /\ exists t1, term_sent ks g t1))
      | Some d => req' /\ (0 <= g)%Z /\ os_kill os 0 = None /\
          exists t1, t1 + grace <= d /\ callback_inv kq ks g t' d t1
      end).
  { destruct tm as [d |]; [| tauto].
    intros (? & ? & ? & t1 & ? & Hk). repeat split; auto.
    exists t1. split; [assumption |]. eapply callback_inv_mono; eauto. }
  destruct gq as [| | desc | sq | [e |] | wq |]; simpl; unfold before_signal;
    try exact Hwait; try tauto.
  - destruct sq; tauto.
  - intros (? & ? & ? & ? & ? & t1 & ? & ?). repeat split; auto.
    exists t1. split; [assumption | lia].
Qed.

Lemma signal_inv_frame (gq : gpt) (kq : kpt) (w w' : world) :
  kills w' = kills w -> timer w' = timer w -> pgid (cmd w') = pgid (cmd w) ->
  Process (cmd w') = Process (cmd w) -> now w <= now w' ->
  (requested w -> requested w') ->
  signal_inv os gq kq w -> signal_inv os gq kq w'.
Proof.
  intros E1 E2 E3 E4 Ht Hreq [HP HI]. split; [now rewrite E4 |].
  rewrite E1, E2, E3. eapply signal_inv_at_mono; eauto.
Qed.

Lemma wait_next_signals (q : wpt) (w w' : world) (res : wpt + option error) :
  wait_next os q w = Some (w', res) ->
  kills w' = kills w /\ timer w' = timer w /\ pgid (cmd w') = pgid (cmd w) /\
  Process (cmd w') = Process (cmd w) /\ now w' = now w /\
  terminateCh (cmd w') = terminateCh (cmd w) /\ ctx_done w' = ctx_done w.
Proof.
  destruct q; simpl; try discriminate.
  - destruct (waitOnce (cmd w)); try discriminate; intros E; injection E as <- <-; auto 10.
  - destruct (Process (cmd w)) eqn:EP;
      [destruct (0 <? n_wait w); [| destruct (exited w); [| discriminate]] |];
      intros E; injection E as <- <-; simpl; rewrite ?EP; auto 10.
  - intros E; injection E as <- <-; auto 10.
  - destruct (waitDoneCh (cmd w)); intros E; injection E as <- <-; auto 10.
  - intros E; injection E as <- <-; auto 10.
  - intros E; injection E as <- <-; auto 10.
Qed.

Lemma terminate_next_signals (q : tpt) (w w' : world) (res : tpt + unit) :
  terminate_next q w = Some (w', res) ->
  kills w' = kills w /\ timer w' = timer w /\ pgid (cmd w') = pgid (cmd w) /\
  Process (cmd w') = Process (cmd w) /\ now w' = now w /\
  (requested w -> requested w').
Proof.
  unfold requested.
  destruct q; simpl; try discriminate;
    destruct (terminateCh (cmd w)) eqn:Et; intros E; injection E as <- <-; simpl;
    rewrite ?Et; auto 10.
Qed.

Lemma signal_inv_caller (gq : gpt) (kq : kpt) (q q' : pt) (w w' : world) :
  is_caller q -> signal_inv os gq kq w -> next os q w = Some (w', q') ->
  is_caller q' /\ signal_inv os gq kq w'.
Proof.
  intros Hc HI Hn. destruct q as [results cs [| wq | tq] | |]; try destruct Hc; simpl in Hn.
  - discriminate.
  - destruct (wait_next os wq w) as [[w1 res] |] eqn:Hw; [| discriminate].
    apply wait_next_signals in Hw as (E1 & E2 & E3 & E4 & E5 & E6 & E7).
    assert (Hq' : is_caller q' /\ w' = w1).
    { destruct res; injection Hn as <- <-; split; auto; [exact I |].
      destruct cs as [| [] cs]; exact I. }
    destruct Hq' as [Hq' ->]. split; [exact Hq' |].
    apply (signal_inv_frame gq kq w); auto; [lia |].
    unfold requested. now rewrite E6, E7.
  - destruct (terminate_next tq w) as [[w1 res] |] eqn:Ht; [| discriminate].
    apply terminate_next_signals in Ht as (E1 & E2 & E3 & E4 & E5 & E6).
    assert (Hq' : is_caller q' /\ w' = w1).
    { destruct res; injection Hn as <- <-; split; auto; [exact I |].
      destruct cs as [| [] cs]; exact I. }
    destruct Hq' as [Hq' ->]. split; [exact Hq' |].
    apply (signal_inv_frame gq kq w); auto; lia.
Qed.

Lemma ready_requested (w : world) (d : trigger) :
  In d (ready w) -> d <> WaitDone -> requested w.
Proof.
  unfold ready, requested. rewrite !in_app_iff.
  destruct (waitDoneCh (cmd w)), (terminateCh (cmd w)), (ctx_done w); simpl;
    intuition congruence.
Qed.

Lemma signal_inv_watcher (gq : gpt) (kq : kpt) (w w' : world) (q' : pt) :
  signal_inv os gq kq w -> next os (PWatcher gq) w = Some (w', q') ->
  exists gq', q' = PWatcher gq' /\ signal_inv os gq' kq w'.
Proof.
  intros [HP HI] Hn.
  destruct gq as [| | desc | sq | [e |] | wq |];
    cbn -[Nat.modulo nth length ready wait_next signal_next] in Hn.
  - (* GStart *)
    destruct (go_watcher w); [| discriminate]. injection Hn as <- <-.
    exists GSelect. split; [reflexivity |]. split; auto.
  - (* GSelect *)
    destruct (ready w) as [| t ts] eqn:Er; [discriminate |].
    assert (Hin : In (nth (os_select os mod length (t :: ts)) (t :: ts) t) (ready w)).
    { rewrite Er. apply nth_In. apply Nat.mod_upper_bound. discriminate. }
    simpl in HI. destruct HI as (Hk & Ht & Hkq).
    destruct (nth (os_select os mod length (t :: ts)) (t :: ts) t) eqn:En;
      injection Hn as <- <-; eexists; (split; [reflexivity |]); split; auto; simpl;
      rewrite ?Ht; try tauto;
      unfold before_signal; repeat split; auto; eapply ready_requested; eauto; discriminate.
  - (* GRecord *)
    injection Hn as <- <-. exists (GSignal SProcess). split; [reflexivity |]. split; auto.
  - (* GSignal *)
    destruct sq; simpl in Hn, HI; unfold before_signal in HI.
    + destruct (Process (cmd w)) eqn:EP; [| congruence]. injection Hn as <- <-.
      exists (GSignal SPgid). split; [reflexivity |]. split; [congruence | exact HI].
    + destruct HI.
    + destruct (pgid (cmd w) <? 0)%Z eqn:Eg; injection Hn as <- <-;
        eexists; (split; [reflexivity |]); split; auto; simpl; unfold before_signal.
      split; [tauto | lia].
    + destruct (os_getpgid os (n_getpgid w)) as [e | g]; injection Hn as <- <-;
        eexists; (split; [reflexivity |]); split; auto; simpl; unfold before_signal; tauto.
    + injection Hn as <- <-.
      eexists; (split; [reflexivity |]); split; auto; simpl; unfold before_signal.
      split; [tauto | lia].
    + injection Hn as <- <-. destruct HI as ((Hk & Ht & Hkq & Hr) & Hg).
      rewrite Hk. simpl.
      eexists; (split; [reflexivity |]); split; auto; simpl.
      destruct (os_kill os 0) as [e |] eqn:Ek.
      * repeat split; auto. right. repeat split; auto. eexists. reflexivity.
      * repeat split; auto. eexists. split; [reflexivity | lia].
    + destruct HI.
  - (* GAfter (Some e) *)
    injection Hn as <- <-. exists (GWait WEnter). split; [reflexivity |]. split; auto.
    simpl in *. destruct HI as (Ht & Hkq & Hr & Hk). rewrite Ht. split; [assumption |].
    destruct Hk as [Hk | (Hg & Hf & t1 & Hk)]; [left; assumption | right].
    repeat split; auto; [congruence | eauto].
  - (* GAfter None *)
    injection Hn as <- <-. exists (GWait WEnter). split; [reflexivity |]. split; auto.
    simpl in *. destruct HI as (Ht & Hkq & Hr & Hg & Hf & t1 & Hk & Hle).
    repeat split; auto. exists t1. split; [lia |]. subst kq. exact Hk.
  - (* GWait *)
    destruct (wait_next os wq w) as [[w1 res] |] eqn:Hw; [| discriminate].
    apply wait_next_signals in Hw as (E1 & E2 & E3 & E4 & E5 & E6 & E7).
    assert (Hfr : signal_inv os (GWait wq) kq w1).
    { apply (signal_inv_frame _ kq w); auto; [lia | | split; auto].
      unfold requested. now rewrite E6, E7. }
    destruct res; injection Hn as <- <-; eexists; (split; [reflexivity |]); exact Hfr.
  - discriminate.
Qed.

Lemma signal_inv_callback (gq : gpt) (kq : kpt) (w w' : world) (q' : pt) :
  signal_inv os gq kq w -> next os (PCallback kq) w = Some (w', q') ->
  exists kq', q' = PCallback kq' /\ signal_inv os gq kq' w'.
Proof.
  intros [HP HI] Hn.
  assert (Hshape : kq = KTimer /\ timer w = None \/
    exists d t1, timer w = Some d /\
      requested w /\ (0 <= pgid (cmd w))%Z /\ os_kill os 0 = None /\ t1 + grace <= d /\
      callback_inv kq (kills w) (pgid (cmd w)) (now w) d t1 /\
      (forall kq' w2, Process (cmd w2) <> None -> timer w2 = Some d ->
         requested w2 -> pgid (cmd w2) = pgid (cmd w) ->
         callback_inv kq' (kills w2) (pgid (cmd w2)) (now w2) d t1 ->
         signal_inv os gq kq' w2)).
  { destruct gq as [| | desc | sq | [e |] | wq |]; simpl in HI; unfold before_signal in HI;
      try (left; tauto); try (destruct sq; left; tauto).
    - destruct (timer w) as [d |] eqn:Et; [| left; tauto].
      right. destruct HI as (Hr & Hg & Hf & t1 & Hle & Hk).
      exists d, t1. do 6 (split; [first [reflexivity | assumption] |]).
      intros kq' w2 HP2 Ht2 Hr2 Hg2 Hk2. split; auto. simpl. rewrite Ht2.
      split; [assumption |]. split; [lia |]. split; [assumption |].
      exists t1. split; auto.
    - destruct (timer w) as [d |] eqn:Et; [| left; tauto].
      right. destruct HI as (Hr & Hg & Hf & t1 & Hle & Hk).
      exists d, t1. do 6 (split; [first [reflexivity | assumption] |]).
      intros kq' w2 HP2 Ht2 Hr2 Hg2 Hk2. split; auto. simpl. rewrite Ht2.
      split; [assumption |]. split; [lia |]. split; [assumption |].
      exists t1. split; auto. }
  destruct Hshape as [[-> Ht] | (d & t1 & Ht & Hr & Hg & Hf & Hle & Hk & Hback)].
  { simpl in Hn. rewrite Ht in Hn. discriminate. }
  destruct kq as [| | | sq | e |]; simpl in Hn, Hk.
  - rewrite Ht in Hn. destruct (d <=? now w) eqn:Ed; [| discriminate].
    injection Hn as <- <-. exists KCheck. split; [reflexivity |].
    apply Hback; auto. simpl. split; [assumption |]. now apply Nat.leb_le.
  - destruct (waitDoneCh (cmd w)); injection Hn as <- <-; eexists; (split; [reflexivity |]);
      apply Hback; auto; simpl; tauto.
  - injection Hn as <- <-. eexists; (split; [reflexivity |]).
    apply Hback; auto.
  - destruct sq; simpl in Hn, Hk; try destruct Hk as [Hk Hd]; try contradiction.
    + destruct (Process (cmd w)) eqn:EP; [| congruence]. injection Hn as <- <-.
      eexists; (split; [reflexivity |]). apply Hback; auto; [congruence | simpl; auto].
    + destruct (pgid (cmd w) <? 0)%Z eqn:Eg; [lia |]. injection Hn as <- <-.
      eexists; (split; [reflexivity |]). apply Hback; auto; simpl; auto.
    + unfold term_sent in Hk.
      destruct (os_kill os (length (kills w))) as [e |]; injection Hn as <- <-;
        (eexists; (split; [reflexivity |]); apply Hback; auto; simpl;
         right; exists (now w); split; [| assumption]; unfold kill_sent; now rewrite Hk).
  - injection Hn as <- <-. eexists; (split; [reflexivity |]). apply Hback; auto.
  - discriminate.
Qed.

Lemma signal_invariant_next (w : world) (pts : list pt) (i : nat) (q : pt) (w' : world) (q' : pt) :
  signal_invariant os w pts -> pts !! i = Some q -> next os q w = Some (w', q') ->
  signal_invariant os w' (<[i := q']> pts).
Proof.
  intros [Hw Hc Hcallers Hinv] Hq Hn.
  destruct (pt_watcher pts) as [gq |] eqn:Eg; [| congruence].
  destruct (pt_callback pts) as [kq |] eqn:Ek; [| congruence].
  specialize (Hinv gq kq eq_refl eq_refl).
  unfold pt_watcher in Eg. unfold pt_callback in Ek.
  destruct (pts !! 0) as [[| gq0 |] |] eqn:E0; try discriminate. injection Eg as ->.
  destruct (pts !! 1) as [[| | kq1] |] eqn:E1; try discriminate. injection Ek as ->.
  destruct i as [| [| i]].
  - rewrite E0 in Hq. injection Hq as <-.
    destruct (signal_inv_watcher gq kq w w' q' Hinv Hn) as (gq' & -> & Hinv').
    assert (L0 : <[0 := PWatcher gq']> pts !! 0 = Some (PWatcher gq')).
    { apply list_lookup_insert_eq. apply lookup_lt_Some in E0. exact E0. }
    split; unfold pt_watcher, pt_callback.
    + rewrite L0. discriminate.
    + rewrite list_lookup_insert_ne, E1 by lia. discriminate.
    + intros j qj Hj Hl. rewrite list_lookup_insert_ne in Hl by lia. eapply Hcallers; eauto.
    + rewrite L0. rewrite list_lookup_insert_ne, E1 by lia.
      intros gq2 kq2 Ea Eb. injection Ea as <-. injection Eb as <-. exact Hinv'.
  - rewrite E1 in Hq. injection Hq as <-.
    destruct (signal_inv_callback gq kq w w' q' Hinv Hn) as (kq' & -> & Hinv').
    assert (L1 : <[1 := PCallback kq']> pts !! 1 = Some (PCallback kq')).
    { apply list_lookup_insert_eq. apply lookup_lt_Some in E1. exact E1. }
    split; unfold pt_watcher, pt_callback.
    + rewrite list_lookup_insert_ne, E0 by lia. discriminate.
    + rewrite L1. discriminate.
    + intros j qj Hj Hl. rewrite list_lookup_insert_ne in Hl by lia. eapply Hcallers; eauto.
    + rewrite L1. rewrite list_lookup_insert_ne, E0 by lia.
      intros gq2 kq2 Ea Eb. injection Ea as <-. injection Eb as <-. exact Hinv'.
  - assert (Hcq : is_caller q) by (apply (Hcallers (S (S i)) q); [lia | exact Hq]).
    destruct (signal_inv_caller gq kq q q' w w' Hcq Hinv Hn) as [Hcq' Hinv'].
    split; unfold pt_watcher, pt_callback.
    + rewrite list_lookup_insert_ne, E0 by lia. discriminate.
    + rewrite list_lookup_insert_ne, E1 by lia. discriminate.
    + intros j qj Hj Hl. apply list_lookup_insert_Some in Hl as [(<- & <- & _) | (Hne & Hl)];
        [exact Hcq' | eapply Hcallers; eauto].
    + rewrite !list_lookup_insert_ne, E0, E1 by lia.
      intros gq2 kq2 Ea Eb. injection Ea as <-. injection Eb as <-. exact Hinv'.
Qed.

Lemma signal_invariant_frame (w w' : world) (pts : list pt) :
  kills w' = kills w -> timer w' = timer w -> pgid (cmd w') = pgid (cmd w) ->
  Process (cmd w') = Process (cmd w) -> now w <= now w' ->
  (requested w -> requested w') ->
  signal_invariant os w pts -> signal_invariant os w' pts.
Proof.
  intros E1 E2 E3 E4 Ht Hreq [Hw Hc Hcallers Hinv]. split; auto.
  intros gq kq Ea Eb. apply (signal_inv_frame gq kq w); auto.
Qed.

Lemma is_caller_calls (results : list (option error)) (cs : list call) :
  is_caller (calls results cs).
Proof. destruct cs as [| [] cs]; exact I. Qed.

Lemma signal_invariant_initial (pid : nat) (callers : list (list call)) :
  os_start os = inr pid -> signal_invariant os (started os) (initial callers).
Proof.
  intros Hs. unfold started, Start, Cmd_Start, Getpgid. simpl. rewrite Hs. simpl.
  assert (Hcallers : forall i q, 2 <= i -> initial callers !! i = Some q -> is_caller q).
  { intros [| [| i]] q Hi Hq; try lia. unfold initial in Hq. simpl in Hq.
    rewrite list_lookup_fmap in Hq. destruct (callers !! i); [| discriminate].
    injection Hq as <-. apply is_caller_calls. }
  destruct (os_getpgid os 0) as [e | g]; simpl;
    (split; [discriminate | discriminate | exact Hcallers |];
     intros gq kq Ea Eb; injection Ea as <-; injection Eb as <-;
     split; simpl; [discriminate | auto]).
Qed.

(** In every run around a started command the signals sent are none,
    SIGTERM, or SIGTERM and then SIGKILL. *)
Lemma signals_of_run (pid : nat) (callers : list (list call)) (es : list event) :
  os_start os = inr pid ->
  signals_sent os (run es (started os, goroutines os callers)).1.
Proof.
  intros Hs. rewrite goroutines_code.
  destruct (run_invariant (signal_invariant os) signal_invariant_next) with
    (es := es) (w := started os) (pts := initial callers) as (pts' & E & [Hw Hc Hcallers Hinv]).
  - intros w pts d. apply signal_invariant_frame; simpl; auto. lia.
  - intros w pts. apply signal_invariant_frame; simpl; auto.
  - intros w pts. apply signal_invariant_frame; simpl; auto.
    unfold requested. simpl. tauto.
  - eapply signal_invariant_initial; eauto.
  - set (w := (run es (started os, code os <$> initial callers)).1) in *.
    destruct (pt_watcher pts') as [gq |] eqn:Eg; [| congruence].
    destruct (pt_callback pts') as [kq |] eqn:Ek; [| congruence].
    destruct (Hinv gq kq eq_refl eq_refl) as [HP HI].
    unfold signals_sent.
    assert (Hwait : match timer w with
      | None => kq = KTimer /\
          (kills w = [] \/ (requested w /\ (0 <= pgid (cmd w))%Z /\ os_kill os 0 <> None /\
             exists t1, term_sent (kills w) (pgid (cmd w)) t1))
      | Some d => requested w /\ (0 <= pgid (cmd w))%Z /\ os_kill os 0 = None /\
          exists t1, t1 + grace <= d /\ callback_inv kq (kills w) (pgid (cmd w)) (now w) d t1
      end -> signals_sent os w).
    { unfold signals_sent. destruct (timer w) as [d |].
      - intros (Hr & Hg & Hf & t1 & Hle & Hk). right. split; [assumption |]. split; [assumption |].
        exists t1.
        assert (Hcases : term_sent (kills w) (pgid (cmd w)) t1 \/
                  exists t2, kill_sent (kills w) (pgid (cmd w)) t1 t2 /\ d <= t2).
        { destruct kq as [| | | sq | e |]; simpl in Hk; try tauto.
          destruct sq; simpl in Hk; tauto. }
        destruct Hcases as [Hk1 | (t2 & Hk2 & Hd)]; [left; exact Hk1 | right].
        exists t2. repeat split; auto. lia.
      - intros (_ & [Hk | (Hr & Hg & Hf & t1 & Hk)]); [left; exact Hk | right].
        split; [assumption |]. split; [assumption |]. exists t1. left. exact Hk. }
    destruct gq as [| | desc | sq | [e |] | wq |]; simpl in HI; unfold before_signal in HI;
      try (apply Hwait; exact HI); try (left; tauto).
    + destruct sq; left; tauto.
    + destruct HI as (_ & _ & Hr & [Hk | (Hg & Hf & t1 & Hk)]); [left; exact Hk | right].
      split; [assumption |]. split; [assumption |]. exists t1. left. exact Hk.
    + destruct HI as (_ & _ & Hr & Hg & Hf & t1 & Hk & _). right.
      split; [assumption |]. split; [assumption |]. exists t1. left. exact Hk.
Qed.

(** signal(sig) alone: it never blocks; it sends [sig] to the group when
    the group id is known or can be resolved, and otherwise sends nothing and
    returns an error. *)
Lemma signal_spec (sig : Signal) (w : world) :
  Process (cmd w) <> None ->
  exists r w', exec (signal os sig) w = Some (r, w') /\
    timer w' = timer w /\ now w' = now w /\ activity w' = activity w /\
    match resolve_pgid os w with
    | inl e => r = Some ("could not get pgid: " +:+ e) /\ kills w' = kills w
    | inr g =>
        r = os_kill os (length (kills w)) /\
        kills w' = kills w ++ [((- g)%Z, sig, now w)] /\ pgid (cmd w') = g
    end.
Proof.
  intros HP. unfold signal, resolve_pgid, Getpgid, Kill. simpl.
  destruct (Process (cmd w)) as [pid |]; [| congruence]. simpl.
  destruct (pgid (cmd w) <? 0)%Z eqn:Eg; simpl.
  - destruct (os_getpgid os (n_getpgid w)) as [e | g]; simpl;
      eexists _, _; (split; [reflexivity |]); simpl; auto 10.
  - eexists _, _; (split; [reflexivity |]); simpl; auto 10.
Qed.

Lemma escalate_spec (desc : trigger) (w : world) :
  Process (cmd w) <> None ->
  exists w', exec (escalate os desc) w = Some (tt, w') /\
    match resolve_pgid os w with
    | inl e => kills w' = kills w /\ timer w' = timer w
    | inr g =>
        kills w' = kills w ++ [((- g)%Z, SIGTERM, now w)] /\ pgid (cmd w') = g /\
        timer w' = match os_kill os (length (kills w)) with
                   | None => Some (now w + grace)
                   | Some _ => timer w
                   end
    end.
Proof.
  intros HP. unfold escalate. rewrite exec_bind, exec_write. cbv beta iota.
  rewrite exec_bind.
  destruct (signal_spec SIGTERM (Record_ (RecSendingSIGTERM desc) w) HP)
    as (r & w1 & Hs & Ht & Hn & Ha & Hr).
  rewrite Hs. unfold resolve_pgid in *. simpl in *.
  destruct (pgid (cmd w) <? 0)%Z;
    [destruct (os_getpgid os (n_getpgid w)) as [e | g] |].
  - destruct Hr as [-> Hk]. simpl. eexists. split; [reflexivity |]. simpl. auto.
  - destruct Hr as (-> & Hk & Hg).
    destruct (os_kill os (length (kills w))); simpl;
      (eexists; split; [reflexivity |]); simpl; rewrite ?Hn; auto.
  - destruct Hr as (-> & Hk & Hg).
    destruct (os_kill os (length (kills w))); simpl;
      (eexists; split; [reflexivity |]); simpl; rewrite ?Hn; auto.
Qed.

Lemma select_spec (w : world) :
  waitDoneCh (cmd w) = false -> requested w ->
  exists desc, exec (select os) w = Some (desc, w) /\ desc <> WaitDone.
Proof.
  intros Hd Hr. unfold select. cbn -[Nat.modulo nth length ready].
  destruct (ready w) as [| t ts] eqn:Er.
  - exfalso. unfold ready, requested in *. rewrite Hd in Er.
    destruct Hr as [Hr | Hr]; rewrite Hr in Er;
      destruct (terminateCh (cmd w)); discriminate.
  - eexists. split; [reflexivity |].
    assert (Hin : In (nth (os_select os mod length (t :: ts)) (t :: ts) t) (ready w)).
    { rewrite Er. apply nth_In. apply Nat.mod_upper_bound. discriminate. }
    intros E. rewrite E in Hin. unfold ready in Hin. rewrite Hd in Hin.
    rewrite !in_app_iff in Hin.
    destruct (terminateCh (cmd w)), (ctx_done w); simpl in Hin; intuition congruence.
Qed.

Lemma callback_spec (w : world) (d : nat) :
  timer w = Some d -> d <= now w -> Process (cmd w) <> None ->
  waitDoneCh (cmd w) = false ->
  exists w', exec (callback os) w = Some (tt, w') /\
    match resolve_pgid os w with
    | inl e => kills w' = kills w
    | inr g => kills w' = kills w ++ [((- g)%Z, SIGKILL, now w)] /\ pgid (cmd w') = g
    end.
Proof.
  intros Ht Hd HP Hw. unfold callback, await. rewrite exec_bind. cbn [exec].
  rewrite Ht. apply Nat.leb_le in Hd. rewrite Hd. cbv beta iota.
  rewrite exec_bind, exec_read, Hw. cbv beta iota.
  rewrite exec_bind, exec_write. cbv beta iota. rewrite exec_bind.
  destruct (signal_spec SIGKILL (Record_ RecSendingSIGKILL w) HP)
    as (r & w1 & Hs & Ht1 & Hn & Ha & Hr).
  rewrite Hs. unfold resolve_pgid in *. simpl in *.
  destruct (pgid (cmd w) <? 0)%Z;
    [destruct (os_getpgid os (n_getpgid w)) as [e | g] |].
  - destruct Hr as [-> Hk]. simpl. eexists. split; [reflexivity |]. simpl. auto.
  - destruct Hr as (-> & Hk & Hg).
    destruct (os_kill os (length (kills w))); simpl;
      (eexists; split; [reflexivity |]); simpl; auto.
  - destruct Hr as (-> & Hk & Hg).
    destruct (os_kill os (length (kills w))); simpl;
      (eexists; split; [reflexivity |]); simpl; auto.
Qed.

Lemma callback_waits (w : world) :
  match timer w with Some d => now w < d | None => True end ->
  exec (callback os) w = None.
Proof.
  intros Ht. unfold callback, await. rewrite exec_bind. simpl.
  destruct (timer w) as [d |]; [| reflexivity].
  apply Nat.leb_gt in Ht. now rewrite Ht.
Qed.

Lemma callback_done (w : world) (d : nat) :
  timer w = Some d -> d <= now w -> waitDoneCh (cmd w) = true ->
  exec (callback os) w = Some (tt, w).
Proof.
  intros Ht Hd Hw. unfold callback, await. rewrite exec_bind. simpl.
  rewrite Ht. apply Nat.leb_le in Hd. rewrite Hd. simpl. now rewrite Hw.
Qed.

(** A goroutine that is scheduled several times in a row. *)
Lemma run_advance (n : nat) (i : nat) (q : pt) (w : world)
    (ps : list (prog world (list (option error)))) :
  ps !! i = Some (code os q) ->
  run (repeat (Sched i) n) (w, ps)
  = ((advance os n q w).1, <[i := code os (advance os n q w).2]> ps).
Proof.
  revert q w ps. induction n as [| n IH]; intros q w ps Hq.
  - simpl. now rewrite list_insert_id.
  - cbn [repeat advance]. change (Sched i :: repeat (Sched i) n) with ([Sched i] ++ repeat (Sched i) n).
    rewrite run_app. unfold run at 2. cbn [fold_left]. unfold step. cbn [fst snd].
    destruct (panicked w) eqn:Hp.
    + clear IH. induction n as [| n IHn]; simpl.
      * now rewrite list_insert_id.
      * unfold run in *. simpl. unfold step at 2. simpl. rewrite Hp. exact IHn.
    + unfold step_thread. cbn [fst snd]. rewrite Hq, code_step.
      destruct (next os q w) as [[w' q'] |] eqn:Hn.
      * rewrite (IH q' w' (<[i := code os q']> ps)).
        -- now rewrite list_insert_insert_eq.
        -- apply list_lookup_insert_eq. apply lookup_lt_Some in Hq. exact Hq.
      * apply IH. exact Hq.
Qed.

Lemma advance_S (n : nat) (q : pt) (w : world) (w' : world) (q' : pt) :
  panicked w = false -> next os q w = Some (w', q') ->
  advance os (S n) q w = advance os n q' w'.
Proof. intros Hp Hn. cbn [advance]. now rewrite Hp, Hn. Qed.

Lemma watching_escalates (w : world) :
  panicked w = false -> Process (cmd w) <> None ->
  waitDoneCh (cmd w) = false -> requested w ->
  exists desc n w', desc <> WaitDone /\
    advance os n (PWatcher GSelect) w = (w', PWatcher (GWait WEnter)) /\
    exec (escalate os desc) w = Some (tt, w').
Proof.
  intros Hp HP Hd Hr.
  destruct (select_spec w Hd Hr) as (desc & Hs & Hne). exists desc.
  unfold select in Hs. cbn -[Nat.modulo nth length ready] in Hs.
  assert (Hsel : next os (PWatcher GSelect) w = Some (w, PWatcher (GRecord desc))).
  { cbn -[Nat.modulo nth length ready].
    destruct (ready w) as [| t ts]; [discriminate |].
    set (d := nth (os_select os mod length (t :: ts)) (t :: ts) t) in *.
    assert (E : d = desc) by congruence. rewrite E.
    destruct desc; congruence. }
  clear Hs.
  destruct (Process (cmd w)) as [pid |] eqn:EP; [| congruence].
  unfold escalate, signal, Getpgid, Kill. simpl. rewrite EP. simpl.
  destruct (pgid (cmd w) <? 0)%Z eqn:Eg; simpl;
    [destruct (os_getpgid os (n_getpgid w)) as [e | g] eqn:Eo; simpl |];
    try (destruct (os_kill os (length (kills w))) as [e' |] eqn:Ek; simpl).
  1, 2, 5, 6: exists 6. 5, 6: exists 8.
  all: eexists; (split; [exact Hne |]); (split; [| reflexivity]).
  all: rewrite (advance_S _ _ _ _ _ Hp Hsel).
  all: repeat (erewrite advance_S;
               [| simpl; exact Hp | simpl; rewrite ?EP, ?Eg, ?Eo, ?Ek; reflexivity]).
  all: reflexivity.
Qed.

(** The goroutine of Start(), scheduled while termination is requested and
    Wait() has not completed, does what [escalate] does and gets to its
    final Wait(). *)
Lemma watcher_escalates (w : world) (p : prog world unit)
    (others : list (prog world (list (option error)))) :
  p = watcher os \/ p = watching os ->
  go_watcher w = true -> panicked w = false -> Process (cmd w) <> None ->
  waitDoneCh (cmd w) = false -> requested w ->
  exists desc n w',
    desc <> WaitDone /\
    exec (escalate os desc) w = Some (tt, w') /\
    run (repeat (Sched 0) n) (w, (do p ;; Ret [])%prog :: others)
    = (w', (do (_ <- Wait os ;; Ret tt) ;; Ret [])%prog :: others).
Proof.
  intros Hpq Hgo Hp HP Hd Hr.
  destruct (watching_escalates w Hp HP Hd Hr) as (desc & n & w' & Hne & Ha & He).
  exists desc.
  destruct Hpq as [-> | ->].
  - exists (S n), w'. split; [exact Hne |]. split; [exact He |].
    rewrite (run_advance (S n) 0 (PWatcher GStart)); [| reflexivity].
    rewrite (advance_S n (PWatcher GStart) w w (PWatcher GSelect) Hp);
      [| simpl; now rewrite Hgo].
    rewrite Ha. reflexivity.
  - exists n, w'. split; [exact Hne |]. split; [exact He |].
    rewrite (run_advance n 0 (PWatcher GSelect)); [| reflexivity].
    rewrite Ha. reflexivity.
Qed.

Lemma advance_stuck (n : nat) (q : pt) (w : world) :
  next os q w = None -> advance os n q w = (w, q).
Proof.
  intros Hn. induction n as [| n IH]; [reflexivity |].
  cbn [advance]. rewrite Hn, IH. now destruct (panicked w).
Qed.

Lemma callback_advance (w : world) (d : nat) :
  timer w = Some d -> d <= now w -> panicked w = false -> Process (cmd w) <> None ->
  waitDoneCh (cmd w) = false ->
  exists n w', advance os n (PCallback KTimer) w = (w', PCallback KReturn) /\
    exec (callback os) w = Some (tt, w').
Proof.
  intros Ht Hle Hp HP Hd. apply Nat.leb_le in Hle.
  destruct (Process (cmd w)) as [pid |] eqn:EP; [| congruence].
  unfold callback, await, signal, Getpgid, Kill. simpl. rewrite Ht, Hle. simpl.
  rewrite Hd. simpl. rewrite EP. simpl.
  destruct (pgid (cmd w) <? 0)%Z eqn:Eg; simpl;
    [destruct (os_getpgid os (n_getpgid w)) as [e | g] eqn:Eo; simpl |];
    try (destruct (os_kill os (length (kills w))) as [e' |] eqn:Ek; simpl).
  all: exists 9; eexists; (split; [| reflexivity]).
  all: repeat (erewrite advance_S;
               [| simpl; exact Hp
                | simpl; rewrite ?Ht, ?Hle, ?Hd, ?EP, ?Eg, ?Eo, ?Ek; reflexivity]).
  all: apply advance_stuck; reflexivity.
Qed.

(** The function of the timer, scheduled once the deadline has passed while
    Wait() has not completed, does what [callback] does and returns. *)
Lemma callback_fires (w : world) (d : nat) (p0 : prog world (list (option error)))
    (others : list (prog world (list (option error)))) :
  timer w = Some d -> d <= now w -> panicked w = false -> Process (cmd w) <> None ->
  waitDoneCh (cmd w) = false ->
  exists n w',
    exec (callback os) w = Some (tt, w') /\
    run (repeat (Sched 1) n) (w, p0 :: (do callback os ;; Ret [])%prog :: others)
    = (w', p0 :: Ret [] :: others).
Proof.
  intros Ht Hle Hp HP Hd.
  destruct (callback_advance w d Ht Hle Hp HP Hd) as (n & w' & Ha & He).
  exists n, w'. split; [exact He |].
  rewrite (run_advance n 1 (PCallback KTimer)); [| reflexivity].
  rewrite Ha. reflexivity.
Qed.

(** C4, as the code has it. When termination is requested (Terminate() or
    the cancelled context) before Wait() has completed, the select of the
    goroutine of Start() takes a termination case; the goroutine then calls
    signal(SIGTERM), which sends SIGTERM to the process group when the group
    id is known or can be resolved and sends nothing otherwise; only when
    SIGTERM was delivered is the timer armed, grace = 5000 ms later; when the
    timer has fired and Wait() has still not completed, its function sends
    SIGKILL to the same group, and it sends nothing when Wait() has completed.
    In every run of the goroutines around a started command the signals sent
    are none, SIGTERM alone, or SIGTERM followed at least 5000 ms later by
    SIGKILL to the same group, the latter only after a delivered SIGTERM.
    The goroutine of Start() does take these steps: standing at its
    beginning or in its select, with whatever goroutines beside it, in any
    state of a started command in which termination is requested, Wait() has
    not completed and nothing has panicked, it gets, when it is scheduled, to
    its final Wait() and has by then done what [escalate] does for a
    termination case. So does the function of the timer: scheduled when the
    deadline has passed and Wait() has not completed, it returns having done
    what [callback] does. *)
Theorem termination_signals :
  (forall pid callers es, os_start os = inr pid ->
     signals_sent os (run es (started os, goroutines os callers)).1) /\
  (forall w, waitDoneCh (cmd w) = false -> requested w ->
     exists desc, exec (select os) w = Some (desc, w) /\ desc <> WaitDone) /\
  (forall desc w, Process (cmd w) <> None ->
     exists w', exec (escalate os desc) w = Some (tt, w') /\
       match resolve_pgid os w with
       | inl e => kills w' = kills w /\ timer w' = timer w
       | inr g =>
           kills w' = kills w ++ [((- g)%Z, SIGTERM, now w)] /\ pgid (cmd w') = g /\
           timer w' = match os_kill os (length (kills w)) with
                      | None => Some (now w + grace)
                      | Some _ => timer w
                      end
       end) /\
  (forall w, match timer w with Some d => now w < d | None => True end ->
     exec (callback os) w = None) /\
  (forall w d, timer w = Some d -> d <= now w -> Process (cmd w) <> None ->
     if waitDoneCh (cmd w) then exec (callback os) w = Some (tt, w)
     else exists w', exec (callback os) w = Some (tt, w') /\
       match resolve_pgid os w with
       | inl e => kills w' = kills w
       | inr g => kills w' = kills w ++ [((- g)%Z, SIGKILL, now w)] /\ pgid (cmd w') = g
       end) /\
  (forall w p others, p = watcher os \/ p = watching os ->
     go_watcher w = true -> panicked w = false -> Process (cmd w) <> None ->
     waitDoneCh (cmd w) = false -> requested w ->
     exists desc n w',
       desc <> WaitDone /\
       exec (escalate os desc) w = Some (tt, w') /\
       run (repeat (Sched 0) n) (w, (do p ;; Ret [])%prog :: others)
       = (w', (do (_ <- Wait os ;; Ret tt) ;; Ret [])%prog :: others)) /\
  (forall w d p0 others, timer w = Some d -> d <= now w ->
     panicked w = false -> Process (cmd w) <> None -> waitDoneCh (cmd w) = false ->
     exists n w',
       exec (callback os) w = Some (tt, w') /\
       run (repeat (Sched 1) n) (w, p0 :: (do callback os ;; Ret [])%prog :: others)
       = (w', p0 :: Ret [] :: others)).
Proof.
  split; [exact signals_of_run |].
  split; [exact select_spec |].
  split; [exact escalate_spec |].
  split; [exact callback_waits |].
  split; [| split; [exact watcher_escalates | exact callback_fires]].
  intros w d Ht Hd HP. destruct (waitDoneCh (cmd w)) eqn:Hw.
  - eapply callback_done; eauto.
  - eapply callback_spec; eauto.
Qed.

End CommandFacts.

(** *** Runs of a command *)

Section CommandRuns.
Import Prog Command.

Example three_waiters_same_result :
  map returned three_waiters.2 =
    [Some []; None; Some [Some "exit status 1"]; Some [Some "exit status 1"];
     Some [Some "exit status 1"]] /\
  n_wait three_waiters.1 = 1.
Proof. split; vm_compute; reflexivity. Qed.

(** Three goroutines have called Wait() while the process runs. Once it has
    exited they can go on so that each has returned its result, and
    exec.Cmd.Wait has been called once. *)
Lemma Wait_once_witness :
  os_start os_42 = inr 42 /\
  n_wait (run [Sched 2; Sched 3; Sched 4]
            (started os_42, goroutines os_42 (waiters [1; 1; 1]))).1 <= 1 /\
  exists es',
    (run ([Sched 2; Sched 3; Sched 4] ++ Exit :: es')
         (started os_42, goroutines os_42 (waiters [1; 1; 1]))).2 !! 2
      = Some (Ret [Some "exit status 1"]) /\
    (run ([Sched 2; Sched 3; Sched 4] ++ Exit :: es')
         (started os_42, goroutines os_42 (waiters [1; 1; 1]))).2 !! 3
      = Some (Ret [Some "exit status 1"]) /\
    (run ([Sched 2; Sched 3; Sched 4] ++ Exit :: es')
         (started os_42, goroutines os_42 (waiters [1; 1; 1]))).2 !! 4
      = Some (Ret [Some "exit status 1"]) /\
    n_wait (run ([Sched 2; Sched 3; Sched 4] ++ Exit :: es')
              (started os_42, goroutines os_42 (waiters [1; 1; 1]))).1 = 1.
Proof.
  split; [reflexivity |].
  destruct (Wait_once os_42 42 (waiters [1; 1; 1]) [Sched 2; Sched 3; Sched 4] eq_refl)
    as (H1 & _ & H3).
  split; [exact H1 |].
  destruct (H3 [1; 1; 1] eq_refl) as [es' H].
  exists es'.
  destruct (H 0 1 eq_refl) as [R0 N0]. destruct (H 1 1 eq_refl) as [R1 _].
  destruct (H 2 1 eq_refl) as [R2 _].
  split; [exact R0 |]. split; [exact R1 |]. split; [exact R2 |]. apply N0. lia.
Defined.

Example escalation_signals :
  kills escalation.1 = [((-42)%Z, SIGTERM, 0); ((-42)%Z, SIGKILL, 5000)] /\
  activity escalation.1 = [RecSendingSIGTERM Cancelled; RecSendingSIGKILL] /\
  map returned escalation.2 = [Some []; Some []].
Proof. repeat split; vm_compute; reflexivity. Qed.

(** The context of a process with group 42 is cancelled while it runs: the
    goroutine of Start(), scheduled, sends SIGTERM to the group and arms the
    timer for 5000 ms later; and in the run in which the process ignores
    SIGTERM the signals are SIGTERM and then SIGKILL. *)
Lemma termination_signals_witness :
  signals_sent os_42 escalation.1 /\
  exists n w' ps,
    run (Cancel :: repeat (Sched 0) n) (started os_42, goroutines os_42 []) = (w', ps) /\
    kills w' = [((-42)%Z, SIGTERM, 0)] /\ timer w' = Some 5000.
Proof.
  destruct (termination_signals os_42) as (H1 & _ & H3 & _ & _ & H6 & _).
  split; [exact (H1 42 [] _ eq_refl) |].
  assert (HP : Process (cmd (set_ctx_done true (started os_42))) <> None) by discriminate.
  destruct (H6 (set_ctx_done true (started os_42)) (watcher os_42)
              [(do callback os_42 ;; Ret [])%prog] (or_introl eq_refl) eq_refl eq_refl HP
              eq_refl (or_intror eq_refl))
    as (desc & n & w' & Hne & He & Hrun).
  destruct (H3 desc (set_ctx_done true (started os_42)) HP) as (w2 & He2 & Hspec).
  rewrite He in He2. injection He2 as <-.
  exists n, w'. eexists. split; [exact Hrun |].
  destruct Hspec as (Hk & _ & Ht). split; [exact Hk | exact Ht].
Defined.

(** C4 as stated fails: termination was requested while the process was
    running, the process has not exited ten seconds later, no goroutine can
    take another step, and neither SIGTERM nor SIGKILL has been sent. *)
Lemma termination_without_signal :
  terminateCh (cmd unresolved_group.1) = true /\
  exited unresolved_group.1 = false /\
  now unresolved_group.1 = 5000 + 5000 /\
  Forall (fun p => pstep p unresolved_group.1 = None) unresolved_group.2 /\
  kills unresolved_group.1 = [] /\
  activity unresolved_group.1 =
    [RecNoPgid "no such process"; RecSendingSIGTERM Terminated;
     RecFailedSIGTERM "could not get pgid: no such process"].
Proof.
  split; [vm_compute; reflexivity |].
  split; [vm_compute; reflexivity |].
  split; [vm_compute; reflexivity |].
  split; [| split; vm_compute; reflexivity].
  apply forallb_blocked. vm_compute. reflexivity.
Qed.

End CommandRuns.

(** *** More on Start, signal, Terminate and Wait *)

Section CommandMore.
Import Prog Command.
Context (os : OS).

(** Start() on a command that has not been started, when exec.Cmd.Start
    succeeds: it returns nil, has set the process, has started its goroutine
    and has neither waited nor sent a signal. The process group is the one
    syscall.Getpgid answers; when that fails the group stays as it was, the
    failure is recorded and Start() still returns nil. *)
Theorem Start_captures_the_group (w : world) (pid : nat) :
  Process (cmd w) = None -> os_start os = inr pid ->
  exists w1, exec (Start os) w = Some (None, w1) /\
    Process (cmd w1) = Some pid /\ go_watcher w1 = true /\
    n_wait w1 = n_wait w /\ kills w1 = kills w /\
    match os_getpgid os (n_getpgid w) with
    | inr g => pgid (cmd w1) = Z.of_nat g /\ activity w1 = activity w
    | inl e => pgid (cmd w1) = pgid (cmd w) /\ activity w1 = activity w ++ [RecNoPgid e]
    end.
Proof.
  intros HP Hs. unfold Start, Cmd_Start, Getpgid. simpl. rewrite HP, Hs. simpl.
  destruct (os_getpgid os (n_getpgid w)) as [e | g]; simpl;
    (eexists; split; [reflexivity |]); simpl; auto 10.
Qed.

(** signal on a command that has no process panics: the call never
    returns and sends nothing, and the panic stops the program. Whatever
    other goroutines there are, once a goroutine that calls signal has taken
    its two steps the program has panicked, the others stand where they
    stood, and no event changes anything any more: no goroutine takes another
    step. *)
Theorem signal_before_Start_panics (sig : Signal) (w : world)
    (others : list (prog world (list (option error)))) :
  Process (cmd w) = None -> panicked w = false ->
  exec (signal os sig) w = None /\
  panicked (run [Sched 0; Sched 0] (w, (do signal os sig ;; Ret [])%prog :: others)).1 = true /\
  kills (run [Sched 0; Sched 0] (w, (do signal os sig ;; Ret [])%prog :: others)).1 = kills w /\
  tail (run [Sched 0; Sched 0] (w, (do signal os sig ;; Ret [])%prog :: others)).2 = others /\
  forall more, run more (run [Sched 0; Sched 0] (w, (do signal os sig ;; Ret [])%prog :: others))
               = run [Sched 0; Sched 0] (w, (do signal os sig ;; Ret [])%prog :: others).
Proof.
  intros HP Hp.
  assert (E : exists p, run [Sched 0; Sched 0] (w, (do signal os sig ;; Ret [])%prog :: others)
                        = (set_panicked w, p :: others)).
  { unfold run, step, step_thread, signal, panic, stuck. simpl. rewrite Hp. simpl.
    rewrite HP. simpl. rewrite Hp. simpl. eexists. reflexivity. }
  destruct E as [p E]. rewrite E.
  split; [unfold signal; simpl; now rewrite HP |].
  split; [reflexivity |]. split; [reflexivity |]. split; [reflexivity |].
  intros more. induction more as [| e more IH]; [reflexivity |].
  unfold run in *. simpl. exact IH.
Qed.

(** Terminate() called by one goroutine: it closes the channel, never
    panics, and a second call changes nothing. *)
Theorem Terminate_twice (w : world) :
  exists w1, exec Terminate w = Some (tt, w1) /\
    terminateCh (cmd w1) = true /\ panicked w1 = panicked w /\
    waitDoneCh (cmd w1) = waitDoneCh (cmd w) /\ kills w1 = kills w /\
    exec Terminate w1 = Some (tt, w1).
Proof.
  unfold Terminate, close. simpl.
  destruct (terminateCh (cmd w)) eqn:Ht; simpl.
  - exists w. rewrite Ht. simpl. auto 10.
  - rewrite Ht. simpl. eexists. split; [reflexivity |]. simpl. auto 10.
Qed.

(** Terminate() called by two goroutines at once: when both find the channel
    open before either closes it, the second close is the close of a closed
    channel, which panics. *)
Theorem concurrent_Terminate_panics (w : world) :
  terminateCh (cmd w) = false ->
  panicked (run_pool [0; 1; 0; 1] (w, [Terminate; Terminate])).1 = true /\
  map returned (run_pool [0; 1; 0; 1] (w, [Terminate; Terminate])).2 = [Some tt; None].
Proof.
  intros Ht. unfold run_pool, step_thread, Terminate, close. simpl. rewrite Ht. simpl.
  rewrite Ht. simpl. split; reflexivity.
Qed.

(** Wait() on a started command that nobody has waited for: it does not
    return while the process runs; once the process has exited it returns
    what exec.Cmd.Wait reports, has called it once and has closed
    waitDoneCh; and a second Wait() returns the same without another call. *)
Theorem Wait_blocks_until_exit (w : world) (pid : nat) :
  Process (cmd w) = Some pid -> waitOnce (cmd w) = OnceNew -> n_wait w = 0 ->
  waitDoneCh (cmd w) = false ->
  (exited w = false -> exec (Wait os) w = None) /\
  (exited w = true ->
   exists w1, exec (Wait os) w = Some (os_wait os, w1) /\
     waitDoneCh (cmd w1) = true /\ n_wait w1 = 1 /\ panicked w1 = panicked w /\
     exec (Wait os) w1 = Some (os_wait os, w1)).
Proof.
  intros HP Ho Hn Hd. unfold Wait, Once_Do, Cmd_Wait, close. simpl.
  rewrite Ho. simpl. rewrite HP, Hn. simpl. split; intros He; rewrite He; [reflexivity |].
  simpl. rewrite Hd. simpl. eexists. split; [reflexivity |].
  simpl. auto 10.
Qed.

End CommandMore.

(** ** The kubernetes pod entry: Exec *)

Section PodFacts.
Import Prog Pod.

(** What the goroutine of Exec leaves when the stream has ended. *)
Lemma streaming_spec (k : Cluster) (s : session) :
  started s = true ->
  exec (streaming k) s =
  Some (tt,
    match stream k with
    | Some (ExitError status) =>
        close_stderr None (close_stdout None (set_err None (set_exitcode status (set_err (stream k) s))))
    | e => close_stderr e (close_stdout e (set_err e s))
    end).
Proof.
  intros Hs. unfold streaming, await. rewrite exec_bind. cbn [exec]. rewrite Hs.
  cbv beta iota.
  destruct (stream k) as [[status | msg | cause msg] |] eqn:E; simpl; rewrite ?E; reflexivity.
Qed.

(** C6, as the code has it. The exit-code callback always returns a nil
    error. Once the stream has ended it returns the exit status carried by an
    ExitError, and that error is not passed on to the sinks; after any other
    stream failure it returns exit code 0 with a nil error, and the failure
    is what both output sinks are closed with. *)
Theorem exit_code_callback (k : Cluster) :
  (forall s, exec ExitCodeCB s = Some ((exitcode s, None), s)) /\
  (new_executor k = None ->
   exists s, exec (exit_code_after_stream k) fresh =
     Some ((match stream k with Some (ExitError status) => status | _ => 0%Z end, None), s) /\
     stdout_closed s = [match stream k with Some (ExitError _) => None | e => e end] /\
     stderr_closed s = [match stream k with Some (ExitError _) => None | e => e end]).
Proof.
  split; [reflexivity |].
  intros Hk. unfold exit_code_after_stream. rewrite exec_bind.
  assert (HE : exec (Exec k) fresh =
               Some (None, set_started (set_exitcode 0%Z (set_err None fresh)))).
  { unfold Exec. simpl. rewrite Hk. reflexivity. }
  rewrite HE. cbv beta iota.
  rewrite exec_bind, streaming_spec by reflexivity.
  destruct (stream k) as [[status | msg | cause msg] |]; simpl;
    eexists; split; reflexivity || (split; reflexivity).
Qed.

Lemma exit_code_callback_witness :
  new_executor reset_cluster = None /\
  exists s, exec (exit_code_after_stream reset_cluster) fresh = Some ((0%Z, None), s) /\
    stdout_closed s = [Some (OtherError "connection reset by peer")] /\
    stderr_closed s = [Some (OtherError "connection reset by peer")].
Proof.
  split; [reflexivity |].
  exact (proj2 (exit_code_callback reset_cluster) eq_refl).
Defined.

(** C6 as stated fails: the stream ended with a connection reset, and the
    callback invoked afterwards returns exit code 0 and no error. *)
Lemma stream_failure_not_returned :
  stream reset_cluster = Some (OtherError "connection reset by peer") /\
  (fst <$> exec (exit_code_after_stream reset_cluster) fresh) = Some (0%Z, None).
Proof. split; reflexivity. Qed.

End PodFacts.

(** *** More on Exec *)

Section PodMore.
Import Prog Pod.

(** When the executor cannot be made, Exec returns its error wrapped with
    "kubernetes.pod.Exec request"; the goroutine is not started, so nothing
    is streamed and no sink is ever closed. *)
Theorem Exec_executor_error (k : Cluster) (s : session) (cause : error) :
  new_executor k = Some cause -> started s = false ->
  exists s', exec (Exec k) s = Some (Some (Wrap cause "kubernetes.pod.Exec request"), s') /\
    started s' = false /\ exitcode s' = exitcode s /\
    stdout_closed s' = stdout_closed s /\ stderr_closed s' = stderr_closed s /\
    exec (streaming k) s' = None.
Proof.
  intros Hk Hs. unfold Exec. simpl. rewrite Hk. eexists. split; [reflexivity |].
  simpl. rewrite Hs. auto 10.
Qed.

(** The exit code is that of the remote command only once the stream has
    ended: the callback invoked right after Exec has returned gives 0 and no
    error whatever the command will exit with, and the same callback invoked
    after the goroutine is done gives the exit status. *)
Theorem exit_code_is_zero_until_the_stream_ends (k : Cluster) (status : Z) :
  new_executor k = None -> stream k = Some (ExitError status) ->
  exists s, exec (Exec k) fresh = Some (None, s) /\
    exec ExitCodeCB s = Some ((0%Z, None), s) /\
    exists s', exec (streaming k) s = Some (tt, s') /\
      exec ExitCodeCB s' = Some ((status, None), s').
Proof.
  intros Hk Hs.
  exists (set_started (set_exitcode 0%Z (set_err None fresh))).
  split; [unfold Exec; simpl; now rewrite Hk |]. split; [reflexivity |].
  rewrite streaming_spec by reflexivity. rewrite Hs. eexists. split; reflexivity.
Qed.

End PodMore.

(** ** The kubernetes pvc entry *)

Section PvcFacts.
Import Prog Pvc.
Context (k : Collaborators).

Lemma exec_ret {W R : Type} (r : R) (w : W) : exec (Ret r) w = Some (r, w).
Proof. reflexivity. Qed.

Lemma exec_defer {R : Type} (f : prog world unit) (body : prog world R) (w : world) :
  exec (defer f body) w =
  match exec body w with
  | Some (r, w1) =>
      match exec f w1 with
      | Some (_, w2) => Some (r, w2)
      | None => None
      end
  | None => None
  end.
Proof.
  unfold defer. rewrite exec_bind. destruct (exec body w) as [[r w1] |]; [| reflexivity].
  rewrite exec_bind. destruct (exec f w1) as [[[] w2] |]; reflexivity.
Qed.

Lemma sleep_sleep (a b : N) (w : world) : sleep b (sleep a w) = sleep (a + b) w.
Proof. unfold sleep. simpl. f_equal. lia. Qed.

(** *** waitForPod *)

Lemma exec_receive (pid : string) (ch : list (N * item)) (w : world) :
  exec (receive pid ch) w = Some ((received pid ch).1, sleep (received pid ch).2 w).
Proof.
  revert w. induction ch as [| [gap e] ch IH]; intros w; [reflexivity |].
  cbn [receive received]. destruct (timeout <=? gap)%N; [reflexivity |].
  rewrite exec_bind, exec_write. cbv beta iota.
  destruct e as [| | [] | | |]; try reflexivity; rewrite IH; cbn [fst snd];
    now rewrite sleep_sleep.
Qed.

Lemma exec_waitForPod (pid : string) (w : world) :
  exec (waitForPod k pid) w = Some (watched k pid, after_watch k pid w).
Proof.
  unfold waitForPod, watched, after_watch. rewrite exec_bind, exec_atomic. cbv beta iota.
  destruct (k_Watch k pid) as [e |]; [reflexivity |].
  rewrite exec_defer, exec_receive, exec_write. reflexivity.
Qed.

Lemma after_watch_calls (pid : string) (w : world) :
  exists mid, calls (after_watch k pid w) = calls w ++ mid /\ forallb watch_or_logs mid = true /\
    (k_Watch k pid = None -> mid = [PodWatch pid; WatchStop pid]).
Proof.
  unfold after_watch. destruct (k_Watch k pid); simpl.
  - exists [PodWatch pid]. repeat split. discriminate.
  - exists [PodWatch pid; WatchStop pid]. rewrite <- app_assoc. repeat split.
Qed.

Lemma after_watch_same (pid : string) (w : world) :
  heap (after_watch k pid w) = heap w /\ types (after_watch k pid w) = types w /\
  cache (after_watch k pid w) = cache w /\ locks (after_watch k pid w) = locks w /\
  (clock w <= clock (after_watch k pid w))%N.
Proof.
  unfold after_watch. destruct (k_Watch k pid); simpl; repeat split; lia.
Qed.

(** A channel that is quiet until the timeout makes the loop time out. *)
Lemma quiet_received (pid : string) (ch : list (N * item)) :
  quiet ch = true -> (received pid ch).1 = Some (TimedOut pid).
Proof.
  induction ch as [| [gap e] ch IH]; [reflexivity |].
  cbn [quiet received]. destruct (timeout <=? gap)%N; [reflexivity |].
  destruct e as [| | [] | | |]; try discriminate; exact IH.
Qed.

(** The loop returns within the sum of the gaps it saw plus one timeout, and
    never takes less than what it waited for. *)
Lemma received_timed_out (pid : string) (ch : list (N * item)) :
  (received pid ch).1 = Some (TimedOut pid) -> (timeout <= (received pid ch).2)%N.
Proof.
  induction ch as [| [gap e] ch IH]; [cbn; lia |].
  cbn [received]. destruct (timeout <=? gap)%N; [cbn; lia |].
  destruct e as [| | [] | | |]; cbn [fst snd]; try discriminate;
    intros H; specialize (IH H); lia.
Qed.

(** *** The keys of the locks *)

Lemma string_length_app (s1 s2 : string) :
  String.length (s1 +:+ s2) = String.length s1 + String.length s2.
Proof. induction s1 as [| c s1 IH]; simpl; [reflexivity | now rewrite IH]. Qed.

Lemma ancestors_length (done rest x : string) :
  In x (ancestors done rest) -> String.length done <= String.length x.
Proof.
  revert done. induction rest as [| c rest IH]; intros done; simpl.
  - intros [<- | []]. lia.
  - rewrite in_app_iff. intros [H | H].
    + destruct (Ascii.eqb c (Ascii.ascii_of_nat 47)); [| destruct H].
      destruct H as [<- | []]. lia.
    + apply IH in H. rewrite string_length_app in H. simpl in H. lia.
Qed.

Lemma ancestors_NoDup (done rest : string) : List.NoDup (ancestors done rest).
Proof.
  revert done. induction rest as [| c rest IH]; intros done; simpl.
  - constructor; [intros [] | constructor].
  - destruct (Ascii.eqb c (Ascii.ascii_of_nat 47)); simpl; [| apply IH].
    constructor; [| apply IH].
    intros H. apply ancestors_length in H. rewrite string_length_app in H. simpl in H. lia.
Qed.

Lemma string_app_String (c : Ascii.ascii) (s t : string) :
  String c s +:+ t = String c (s +:+ t).
Proof. reflexivity. Qed.

Lemma string_app_empty (s : string) : s +:+ "" = s.
Proof.
  induction s as [| c s IH]; [reflexivity |]. rewrite string_app_String. now f_equal.
Qed.

Lemma string_app_cons (s : string) (c : Ascii.ascii) (t : string) :
  (s +:+ String c "") +:+ t = s +:+ String c t.
Proof.
  induction s as [| d s IH]; [reflexivity |]. rewrite !string_app_String. now f_equal.
Qed.

Lemma ancestors_last (done rest : string) : In (done +:+ rest) (ancestors done rest).
Proof.
  revert done. induction rest as [| c rest IH]; intros done; simpl.
  - left. symmetry. apply string_app_empty.
  - rewrite in_app_iff. right. rewrite <- string_app_cons. apply IH.
Qed.

Lemma string_app_inv_head (s x y : string) : s +:+ x = s +:+ y -> x = y.
Proof. apply String.app_inj. Qed.

Lemma string_app_inv_tail (x y s : string) : x +:+ s = y +:+ s -> x = y.
Proof.
  revert y. induction x as [| c x IH]; intros [| d y] E.
  - reflexivity.
  - exfalso. apply (f_equal String.length) in E.
    rewrite !string_length_app in E. simpl in E. lia.
  - exfalso. apply (f_equal String.length) in E.
    rewrite !string_length_app in E. simpl in E. lia.
  - rewrite !string_app_String in E. injection E as -> E. f_equal. apply IH, E.
Qed.

(** The keys of an entry are distinct, and the key of the entry itself is
    one of them. *)
Lemma Keys_NoDup (base path suffix : string) : List.NoDup (Keys base path suffix).
Proof.
  unfold Keys. apply Finite.Injective_map_NoDup; [| apply ancestors_NoDup].
  intros x y E. apply string_app_inv_head in E. apply string_app_inv_tail in E. exact E.
Qed.

Lemma Keys_own (base path suffix : string) :
  In (base +:+ path +:+ suffix) (Keys base path suffix).
Proof.
  unfold Keys. apply in_map_iff. exists path. split; [reflexivity |].
  apply (ancestors_last "" path).
Qed.

(** *** Locks *)

Lemma exec_with_locks {R : Type} (ls : list string) (body : prog world R) (w : world) :
  List.NoDup ls -> (forall l, In l ls -> l ∉ locks w) ->
  exec (with_locks ls body) w =
  match exec body (set_locks (list_to_set ls ∪ locks w) w) with
  | Some (r, w1) => Some (r, set_locks (locks w1 ∖ list_to_set ls) w1)
  | None => None
  end.
Proof.
  revert w. induction ls as [| l ls IH]; intros w Hnd Hfree.
  - cbn [with_locks]. simpl.
    replace (set_locks (∅ ∪ locks w) w) with w.
    2:{ destruct w. unfold set_locks. simpl. f_equal. set_solver. }
    destruct (exec body w) as [[r w1] |]; [| reflexivity].
    f_equal. f_equal. destruct w1. unfold set_locks. simpl. f_equal. set_solver.
  - cbn [with_locks]. unfold Lock, Unlock, await. rewrite exec_bind. cbn [exec].
    rewrite bool_decide_eq_true_2 by (apply Hfree; left; reflexivity).
    cbv beta iota. rewrite exec_bind.
    inversion Hnd as [| ? ? Hl Hnd']; subst.
    rewrite IH; [| exact Hnd' |].
    2:{ intros l' Hl'. simpl. intros Hin. apply elem_of_union in Hin as [Hin | Hin].
        - apply elem_of_singleton in Hin. subst. contradiction.
        - apply (Hfree l'); [right; exact Hl' | exact Hin]. }
    simpl.
    replace (set_locks (list_to_set ls ∪ ({[l]} ∪ locks w)) (set_locks ({[l]} ∪ locks w) w))
      with (set_locks ({[l]} ∪ list_to_set ls ∪ locks w) w).
    2:{ unfold set_locks. simpl. f_equal. set_solver. }
    destruct (exec body _) as [[r w1] |]; [| reflexivity].
    f_equal. f_equal. unfold set_locks. simpl. f_equal. set_solver.
Qed.

(** *** The pvc objects are not written *)

Ltac steps_with leaf :=
  repeat first
    [ apply steps_ret
    | leaf
    | apply steps_in_bind
    | apply steps_in_read; intros; reflexivity
    | apply steps_in_write; intros; reflexivity
    | apply steps_in_atomic; intros; try reflexivity
    | intros ?
    | match goal with |- steps_in _ (match ?x with _ => _ end) => destruct x end
    | match goal with |- steps_in _ (if ?x then _ else _) => destruct x end ].

Ltac steps := steps_with fail.

Lemma receive_keeps_heap (pid : string) (ch : list (N * item)) :
  steps_in keeps_heap (receive pid ch).
Proof.
  induction ch as [| [gap e] ch IH]; cbn [receive]; [steps |].
  destruct (timeout <=? gap)%N; [steps |].
  apply steps_in_bind; [steps |]. intros _.
  destruct e as [| | [] | | |]; try apply steps_ret; exact IH.
Qed.

Lemma waitForPod_keeps_heap (pid : string) : steps_in keeps_heap (waitForPod k pid).
Proof.
  unfold waitForPod, defer. steps_with ltac:(apply receive_keeps_heap).
Qed.

Lemma cache_all_keeps_heap (cli : nat) (dirs : list (string * AttrMap)) (err : option error) :
  steps_in keeps_heap (cache_all k cli dirs err).
Proof.
  revert err. induction dirs as [| [dir attrmap] dirs IH]; intros err; cbn [cache_all]; [steps |].
  unfold cache_SetAny. steps_with ltac:(apply IH).
  unfold keeps_heap. destruct (gob_Encode k attrmap); reflexivity.
Qed.

Lemma with_locks_keeps_heap {R : Type} (ls : list string) (body : prog world R) :
  steps_in keeps_heap body -> steps_in keeps_heap (with_locks ls body).
Proof.
  intros Hb. induction ls as [| l ls IH]; cbn [with_locks]; [exact Hb |].
  unfold Lock, Unlock. apply steps_in_bind; [apply steps_in_await; reflexivity |].
  intros _. apply steps_in_bind; [exact IH |]. steps.
Qed.


Lemma cachedAttributes_keeps_heap (cli : nat) : steps_in keeps_heap (cachedAttributes k cli).
Proof.
  unfold cachedAttributes. apply steps_in_bind; [steps |]. intros keys.
  apply with_locks_keeps_heap.
  unfold cachedAttributes_locked, cache_Get, createPod, defer.
  steps_with ltac:(first [apply waitForPod_keeps_heap | apply cache_all_keeps_heap]).
Qed.


(** *** Running a call to its end *)

Ltac exec_norm :=
  repeat first
    [ rewrite exec_bind | rewrite exec_ret | rewrite exec_atomic | rewrite exec_read
    | rewrite exec_write | rewrite exec_defer | rewrite exec_waitForPod
    | progress cbv beta iota
    | progress cbn [fst snd] ].

Ltac exec_case :=
  match goal with
  | |- context [exec (match ?x with _ => _ end) _] => destruct x eqn:?
  | |- context [exec (if ?x then _ else _) _] => destruct x eqn:?
  end.

Ltac exec_run := exec_norm; repeat (exec_case; exec_norm).

Lemma job_calls_app (ns claim : string) (args : list string) (pid : string)
    (mid rest : list call) :
  forallb watch_or_logs mid = true -> forallb watch_or_logs rest = true ->
  job_calls (PodCreate ns claim args (inr pid) :: mid ++ rest ++ [PodDelete pid]).
Proof.
  intros Hm Hr. rewrite app_assoc. constructor. rewrite forallb_app, Hm, Hr. reflexivity.
Qed.

Ltac job_shape mid Hok :=
  split;
  [ rewrite <- !app_assoc; simpl; reflexivity
  | first
      [ apply (job_calls_app _ _ _ _ mid []); [exact Hok | reflexivity]
      | apply (job_calls_app _ _ _ _ mid [_]); [exact Hok | reflexivity]
      | apply (job_calls_app _ _ _ _ mid [_; _]); [exact Hok | reflexivity] ] ].

(** cachedContent always returns, and the calls it makes are those of one
    job. *)
Lemma cachedContent_calls (cli : nat) (w : world) :
  exists r w' l, exec (cachedContent k cli) w = Some (r, w') /\
    calls w' = calls w ++ l /\ job_calls l.
Proof.
  unfold cachedContent, cache_Get, createPod, cache_SetSlow.
  exec_norm. exec_case; exec_norm.
  { eexists _, _, []. split; [reflexivity |]. split; [now rewrite app_nil_r | constructor]. }
  exec_case; exec_norm.
  { eexists _, _, [_]. split; [reflexivity |]. split; [reflexivity | constructor]. }
  match goal with
  | |- context [after_watch k ?p ?w0] =>
      destruct (after_watch_calls p w0) as (mid & Hmid & Hok & _);
      set (w1 := after_watch k p w0) in *
  end.
  simpl in Hmid.
  exec_run;
    (eexists _, _, _; split; [reflexivity |]; simpl; rewrite ?Hmid; job_shape mid Hok).
Qed.

(** *** The steps of a job *)

Lemma job_step_refl (w : world) : job_step w w.
Proof. unfold job_step. repeat split. exists []. now rewrite app_nil_r. Qed.

Lemma job_step_trans (a b c : world) : job_step a b -> job_step b c -> job_step a c.
Proof.
  intros (H1 & H2 & H3 & l1 & H4) (H5 & H6 & H7 & l2 & H8). unfold job_step.
  rewrite H5, H6, H7, H8, H4, <- app_assoc. repeat split; try assumption. now exists (l1 ++ l2).
Qed.

Lemma names_alter (t : N) (i : nat) (tys : list resourcetype) :
  client_Name <$> alter (set_updated t) i tys = client_Name <$> tys.
Proof.
  revert i. induction tys as [| r tys IH]; intros [| i]; simpl; try reflexivity.
  f_equal. apply IH.
Qed.

Ltac job_leaf :=
  unfold job_step; simpl; rewrite ?names_alter;
  repeat split;
  first [ exists []; now rewrite app_nil_r | eexists; reflexivity ].

Ltac job_steps leaf :=
  repeat first
    [ apply steps_ret
    | leaf
    | apply steps_in_bind
    | apply steps_in_read; intros; apply job_step_refl
    | apply steps_in_write; intros; job_leaf
    | apply steps_in_atomic; intros; job_leaf
    | intros ?
    | match goal with |- steps_in _ (match ?x with _ => _ end) => destruct x end
    | match goal with |- steps_in _ (if ?x then _ else _) => destruct x end ].

Lemma receive_job_step (pid : string) (ch : list (N * item)) :
  steps_in job_step (receive pid ch).
Proof.
  induction ch as [| [gap e] ch IH]; cbn [receive]; [job_steps fail |].
  destruct (timeout <=? gap)%N; [job_steps fail |].
  apply steps_in_bind; [job_steps fail |]. intros _.
  destruct e as [| | [] | | |]; try apply steps_ret; exact IH.
Qed.

Lemma waitForPod_job_step (pid : string) : steps_in job_step (waitForPod k pid).
Proof.
  unfold waitForPod, defer. job_steps ltac:(apply receive_job_step).
Qed.

Lemma cache_all_job_step (cli : nat) (dirs : list (string * AttrMap)) (err : option error) :
  steps_in job_step (cache_all k cli dirs err).
Proof.
  revert err. induction dirs as [| [dir attrmap] dirs IH]; intros err; cbn [cache_all];
    [job_steps fail |].
  unfold cache_SetAny. apply steps_in_bind; [job_steps fail |]. intros key.
  apply steps_in_bind; [| intros e; apply IH].
  apply steps_in_atomic. intros w. destruct (gob_Encode k attrmap); job_leaf.
Qed.

Lemma cachedAttributes_locked_job_step (cli : nat) :
  steps_in job_step (cachedAttributes_locked k cli).
Proof.
  unfold cachedAttributes_locked, cache_Get, createPod, defer.
  job_steps ltac:(first [apply waitForPod_job_step | apply cache_all_job_step]).
Qed.

Lemma cachedContent_job_step (cli : nat) : steps_in job_step (cachedContent k cli).
Proof.
  unfold cachedContent, cache_Get, createPod, defer, cache_SetSlow.
  job_steps ltac:(apply waitForPod_job_step).
Qed.

Lemma job_step_exec {R : Type} (p : prog world R) (w : world) (r : R) (w' : world) :
  steps_in job_step p -> exec p w = Some (r, w') -> job_step w w'.
Proof.
  intros Hp. apply (steps_in_exec job_step p);
    [apply job_step_refl | apply job_step_trans | exact Hp].
Qed.

(** The names of an entry and its keys are read from what a job leaves as
    it is. *)
Lemma job_step_baseID (w w' : world) (cli : nat) :
  job_step w w' -> baseID w' cli = baseID w cli /\ deref w' cli = deref w cli.
Proof.
  intros (Hh & Ht & _). unfold baseID, deref_type, deref. rewrite Hh. split; [| reflexivity].
  do 1 f_equal.
  assert (E : client_Name <$> (types w' !! resourcetype_ (default nil_pvc (heap w !! cli)))
            = client_Name <$> (types w !! resourcetype_ (default nil_pvc (heap w !! cli)))).
  { rewrite <- !list_lookup_fmap. now rewrite Ht. }
  destruct (types w' !! _), (types w !! _); simpl in *; congruence.
Qed.

(** *** cachedAttributes, once the locks are taken *)

Lemma exec_cachedAttributes (cli : nat) (w : world) :
  unlocked w cli ->
  exec (cachedAttributes k cli) w =
  match exec (cachedAttributes_locked k cli)
             (lock_all (Keys (baseID w cli) (path (deref w cli)) "/list") w) with
  | Some (r, w1) => Some (r, set_locks (locks w) w1)
  | None => None
  end.
Proof.
  intros Hfree. unfold cachedAttributes, LocksForKeys. rewrite exec_bind, exec_read.
  cbv beta iota. rewrite exec_with_locks; [| apply Keys_NoDup | exact Hfree].
  unfold lock_all.
  destruct (exec _ _) as [[r w1] |] eqn:E; [| reflexivity].
  apply job_step_exec in E; [| apply cachedAttributes_locked_job_step].
  destruct E as (_ & _ & Hl & _). simpl in Hl.
  f_equal. f_equal. unfold set_locks. f_equal. rewrite Hl.
  apply set_eq. intros x. rewrite elem_of_difference, elem_of_union, elem_of_list_to_set.
  split; [intros [[H | H] Hn]; [contradiction | exact H] |].
  intros H. split; [right; exact H |]. intros Hin. apply (Hfree x); [| exact H].
  apply list_elem_of_In. exact Hin.
Qed.

Lemma list_key_inj (base d d' : string) :
  base +:+ d +:+ "/list" = base +:+ d' +:+ "/list" -> d = d'.
Proof. intros E. apply string_app_inv_head in E. apply string_app_inv_tail in E. exact E. Qed.

(** The loop that caches the directories always ends; it writes the
    listing of every directory whose listing gob can encode under the key
    of that directory, and no other entry of the cache. *)
Lemma exec_cache_all (cli : nat) (dirs : list (string * AttrMap)) (err : option error)
    (w : world) :
  exists err' c', exec (cache_all k cli dirs err) w = Some (err', set_cache c' w) /\
    ((forall d m, In (d, m) dirs -> exists bits, gob_Encode k m = inr bits) ->
       err' = match dirs with [] => err | _ => None end) /\
    (forall key, (forall d, In d dirs.*1 -> key <> baseID w cli +:+ d +:+ "/list") ->
       c' !! key = cache w !! key) /\
    (forall d bits, In d dirs.*1 ->
       (forall m, In (d, m) dirs -> gob_Encode k m = inr bits) ->
       c' !! (baseID w cli +:+ d +:+ "/list") = Some bits).
Proof.
  revert err w. induction dirs as [| [dir attrmap] dirs IH]; intros err w.
  - exists err, (cache w). split; [now destruct w |]. split; [reflexivity |].
    split; [reflexivity |]. intros d bits [].
  - cbn [cache_all]. unfold cache_SetAny.
    rewrite exec_bind, exec_read. cbv beta iota. rewrite exec_bind, exec_atomic.
    destruct (gob_Encode k attrmap) as [e | b] eqn:Henc; cbv beta iota.
    + destruct (IH (Some e) w) as (err' & c' & E & Herr & Hout & Hin).
      exists err', c'. split; [exact E |]. split; [| split].
      * intros Hall. destruct (Hall dir attrmap (or_introl eq_refl)) as [bits Hb]. congruence.
      * intros key Hk. apply Hout. intros d Hd. apply Hk. right. exact Hd.
      * intros d bits Hd Hall.
        destruct (decide (d ∈ dirs.*1)) as [Hd' | Hd']; rewrite list_elem_of_In in Hd'.
        -- apply Hin; [exact Hd' |]. intros m Hm. apply Hall. right. exact Hm.
        -- destruct Hd as [Hd | Hd]; [| contradiction]. simpl in Hd. subst d.
           specialize (Hall attrmap (or_introl eq_refl)). congruence.
    + set (w1 := set_cache (<[baseID w cli +:+ dir +:+ "/list" := b]> (cache w)) w).
      destruct (IH None w1) as (err' & c' & E & Herr & Hout & Hin).
      exists err', c'. split; [exact E |]. split; [| split].
      * intros Hall. rewrite Herr.
        -- now destruct dirs.
        -- intros d m Hm. apply (Hall d m). right. exact Hm.
      * intros key Hk. rewrite Hout.
        -- unfold w1. simpl. apply lookup_insert_ne. intros Heq. apply (Hk dir); [left; reflexivity |].
           now symmetry.
        -- intros d Hd. apply Hk. right. exact Hd.
      * intros d bits Hd Hall.
        destruct (decide (d ∈ dirs.*1)) as [Hd' | Hd']; rewrite list_elem_of_In in Hd'.
        -- apply Hin; [exact Hd' |]. intros m Hm. apply Hall. right. exact Hm.
        -- destruct Hd as [Hd | Hd]; [| contradiction]. simpl in Hd. subst d.
           specialize (Hall attrmap (or_introl eq_refl)).
           rewrite Hout.
           ++ unfold w1. simpl. rewrite lookup_insert_eq. congruence.
           ++ intros d Hd Heq. apply list_key_inj in Heq. subst d. contradiction.
Qed.

Ltac exec_loop :=
  match goal with
  | |- context [exec (cache_all k ?c ?d ?e) ?w] =>
      let E := fresh "E" in
      destruct (exec_cache_all c d e w) as (? & ? & E & _); rewrite E; clear E
  end.

Ltac exec_all := exec_norm; repeat (first [exec_loop | exec_case]; exec_norm).

(** The locked part of cachedAttributes always returns, and the calls it
    makes are those of one job. *)
Lemma cachedAttributes_locked_calls (cli : nat) (w : world) :
  exists r w' l, exec (cachedAttributes_locked k cli) w = Some (r, w') /\
    calls w' = calls w ++ l /\ job_calls l.
Proof.
  unfold cachedAttributes_locked, cache_Get, createPod.
  exec_norm. exec_case; exec_norm.
  { exec_case; exec_norm;
      (eexists _, _, []; split; [reflexivity |]; split; [now rewrite app_nil_r | constructor]). }
  exec_case; exec_norm.
  { eexists _, _, [_]. split; [reflexivity |]. split; [reflexivity | constructor]. }
  match goal with
  | |- context [after_watch k ?p ?w0] =>
      destruct (after_watch_calls p w0) as (mid & Hmid & Hok & _);
      set (w1 := after_watch k p w0) in *
  end.
  simpl in Hmid.
  exec_all;
    (eexists _, _, _; split; [reflexivity |]; simpl; rewrite ?Hmid; job_shape mid Hok).
Qed.

Lemma job_calls_deleted_last (l : list call) : job_calls l -> deleted_last l.
Proof.
  intros [| ns claim args e | ns claim args pid mid Hmid] ns' claim' args' pid' Hin.
  - destruct Hin.
  - destruct Hin as [Hin | []]. discriminate.
  - assert (Hnone : forall c, In c mid -> watch_or_logs c = true).
    { intros c Hc. rewrite forallb_forall in Hmid. apply Hmid, Hc. }
    assert (pid' = pid) as ->.
    { destruct Hin as [Hin | Hin]; [congruence |].
      apply in_app_iff in Hin as [Hin | [Hin | []]]; [| discriminate].
      apply Hnone in Hin. discriminate. }
    split.
    + change (PodCreate ns claim args (inr pid) :: mid ++ [PodDelete pid])
        with ((PodCreate ns claim args (inr pid) :: mid) ++ [PodDelete pid]).
      apply last_snoc.
    + rewrite filter_cons_False by (simpl; discriminate).
      rewrite filter_app, length_app.
      assert (E : filter (fun c => is_delete pid c = true) mid = []).
      { clear Hmid Hin. induction mid as [| c mid IH]; [reflexivity |].
        rewrite filter_cons_False.
        - apply IH. intros c' Hc'. apply Hnone. right. exact Hc'.
        - specialize (Hnone c (or_introl eq_refl)). destruct c; simpl in *; congruence. }
      rewrite E. rewrite filter_cons_True by (simpl; apply String.eqb_refl). reflexivity.
Qed.

(** The paths on which waiting for the pod fails with another error than
    [errPodTerminated]. *)
Lemma cachedAttributes_locked_wait_error (cli : nat) (w : world) (pid : string) (e : error) :
  cache w !! (String_ w cli +:+ "/list") = None ->
  k_Create k (next_pod w) = inr pid ->
  watched k pid = Some e -> is_errPodTerminated (Some e) = false ->
  exec (cachedAttributes_locked k cli) w =
  Some ((None, Some e),
        called (PodDelete pid)
          (after_watch k pid
            (called (PodCreate (ns (deref w cli)) (name (deref w cli)) (StatCmd k mountpoint)
                               (inr pid)) w))).
Proof.
  intros Hmiss Hcreate Hwatch Hother. unfold next_pod in Hcreate.
  unfold cachedAttributes_locked, cache_Get, createPod.
  exec_norm. rewrite Hmiss. exec_norm. rewrite Hcreate. exec_norm.
  rewrite Hwatch, Hother. exec_norm. reflexivity.
Qed.

Lemma cachedContent_wait_error (cli : nat) (w : world) (pid : string) (e : error) :
  cache w !! (String_ w cli +:+ "/content") = None ->
  k_Create k (next_pod w) = inr pid ->
  watched k pid = Some e -> is_errPodTerminated (Some e) = false ->
  exec (cachedContent k cli) w =
  Some ((None, Some e),
        called (PodDelete pid)
          (after_watch k pid
            (called (PodCreate (ns (deref w cli)) (name (deref w cli))
                               ["cat"; mountpoint +:+ path (deref w cli)] (inr pid)) w))).
Proof.
  intros Hmiss Hcreate Hwatch Hother. unfold next_pod in Hcreate.
  unfold cachedContent, cache_Get, createPod.
  exec_norm. rewrite Hmiss. exec_norm. rewrite Hcreate. exec_norm.
  rewrite Hwatch, Hother. exec_norm. reflexivity.
Qed.



Lemma after_watch_calls_eq (pid : string) (w : world) :
  calls (after_watch k pid w) = calls w ++ watch_calls k pid.
Proof.
  unfold after_watch, watch_calls. destruct (k_Watch k pid); simpl; [reflexivity |].
  now rewrite <- app_assoc.
Qed.

Lemma after_watch_cache (pid : string) (w : world) :
  cache (after_watch k pid w) = cache w.
Proof. unfold after_watch. now destruct (k_Watch k pid). Qed.

Lemma after_watch_baseID (pid : string) (w : world) (cli : nat) :
  baseID (after_watch k pid w) cli = baseID w cli /\
  deref (after_watch k pid w) cli = deref w cli.
Proof. unfold after_watch. now destruct (k_Watch k pid). Qed.

Lemma deref_set_types t w cli : deref (set_types t w) cli = deref w cli.
Proof. reflexivity. Qed.
Lemma deref_set_cache c w cli : deref (set_cache c w) cli = deref w cli.
Proof. reflexivity. Qed.
Lemma deref_set_locks l w cli : deref (set_locks l w) cli = deref w cli.
Proof. reflexivity. Qed.
Lemma deref_called c w cli : deref (called c w) cli = deref w cli.
Proof. reflexivity. Qed.
Lemma deref_after_watch pid w cli : deref (after_watch k pid w) cli = deref w cli.
Proof. apply after_watch_baseID. Qed.
Lemma baseID_set_cache c w cli : baseID (set_cache c w) cli = baseID w cli.
Proof. reflexivity. Qed.
Lemma baseID_set_locks l w cli : baseID (set_locks l w) cli = baseID w cli.
Proof. reflexivity. Qed.
Lemma baseID_called c w cli : baseID (called c w) cli = baseID w cli.
Proof. reflexivity. Qed.
Lemma baseID_after_watch pid w cli : baseID (after_watch k pid w) cli = baseID w cli.
Proof. apply after_watch_baseID. Qed.

Ltac same_entry :=
  repeat first
    [ rewrite deref_set_types | rewrite deref_set_cache | rewrite deref_set_locks
    | rewrite deref_called | rewrite deref_after_watch | rewrite baseID_set_cache
    | rewrite baseID_set_locks | rewrite baseID_called | rewrite baseID_after_watch ].

(** The paths on which the pod succeeded. *)
Lemma cachedContent_succeeded (cli : nat) (w : world) (pid : string) (bits : list byte) :
  cache w !! (String_ w cli +:+ "/content") = None ->
  k_Create k (next_pod w) = inr pid ->
  watched k pid = None -> k_GetLogs k pid = inr (bits, None) ->
  exists w', exec (cachedContent k cli) w = Some ((Some bits, None), w') /\
    cache w' = <[String_ w cli +:+ "/content" := bits]> (cache w) /\
    calls w' = calls w ++
      PodCreate (ns (deref w cli)) (name (deref w cli))
                ["cat"; mountpoint +:+ path (deref w cli)] (inr pid)
      :: watch_calls k pid ++ [PodGetLogs pid; LogsClose pid; PodDelete pid].
Proof.
  intros Hmiss Hcreate Hwatch Hlogs. unfold next_pod in Hcreate.
  unfold cachedContent, cache_Get, createPod, cache_SetSlow.
  exec_norm. rewrite Hmiss. exec_norm. rewrite Hcreate. exec_norm.
  rewrite Hwatch. cbn [is_errPodTerminated negb]. exec_norm. rewrite Hlogs. exec_norm.
  eexists. split; [reflexivity |]. split.
  - simpl. now rewrite after_watch_cache.
  - simpl. rewrite after_watch_calls_eq. simpl. rewrite <- !app_assoc. reflexivity.
Qed.

Lemma cachedAttributes_locked_succeeded (cli : nat) (w : world) (pid : string) (out : reader)
    (attrs : DirMap) :
  cache w !! (String_ w cli +:+ "/list") = None ->
  k_Create k (next_pod w) = inr pid ->
  watched k pid = None -> k_GetLogs k pid = inr out ->
  StatParseAll k out mountpoint = inr attrs ->
  exists err' w',
    exec (cachedAttributes_locked k cli) w = Some ((attrs !! path (deref w cli), err'), w') /\
    calls w' = calls w ++
      PodCreate (ns (deref w cli)) (name (deref w cli)) (StatCmd k mountpoint) (inr pid)
      :: watch_calls k pid ++ [PodGetLogs pid; LogsClose pid; PodDelete pid] /\
    ((forall d m, In (d, m) (range_dirs k attrs) -> exists b, gob_Encode k m = inr b) ->
       err' = None) /\
    (forall key,
       (forall d, In d (range_dirs k attrs).*1 -> key <> baseID w cli +:+ d +:+ "/list") ->
       cache w' !! key = cache w !! key) /\
    (forall d bits, In d (range_dirs k attrs).*1 ->
       (forall m, In (d, m) (range_dirs k attrs) -> gob_Encode k m = inr bits) ->
       cache w' !! (baseID w cli +:+ d +:+ "/list") = Some bits).
Proof.
  intros Hmiss Hcreate Hwatch Hlogs Hparse. unfold next_pod in Hcreate.
  unfold cachedAttributes_locked, cache_Get, createPod.
  exec_norm. rewrite Hmiss. exec_norm. rewrite Hcreate. exec_norm.
  rewrite Hwatch. cbn [is_errPodTerminated negb]. exec_norm. rewrite Hlogs. exec_norm.
  cbv beta iota. rewrite Hparse. exec_norm.
  match goal with
  | |- context [exec (cache_all k ?c ?d ?e) ?w0] =>
      destruct (exec_cache_all c d e w0) as (err' & c' & E & Herr & Hout & Hin); rewrite E
  end.
  exec_norm. same_entry.
  eexists err', _. split; [reflexivity |].
  revert Hout Hin. same_entry. intros Hout Hin.
  cbn [calls cache called set_types set_cache] in *.
  rewrite after_watch_calls_eq, after_watch_cache in *.
  cbn [calls cache called] in *.
  split; [rewrite <- !app_assoc; reflexivity |].
  split; [intros Hall; rewrite Herr; [now destruct (range_dirs k attrs) | exact Hall] |].
  split; [exact Hout | exact Hin].
Qed.

(** *** cachedAttributes with its locks *)

Lemma unlock_all (keys : list string) (w : world) : set_locks (locks w) (lock_all keys w) = w.
Proof. now destruct w. Qed.

Lemma cachedAttributes_of_locked (cli : nat) (w : world)
    (r : option AttrMap * option error) (w1 : world) :
  unlocked w cli ->
  exec (cachedAttributes_locked k cli)
       (lock_all (Keys (baseID w cli) (path (deref w cli)) "/list") w) = Some (r, w1) ->
  exec (cachedAttributes k cli) w = Some (r, set_locks (locks w) w1).
Proof. intros Hfree E. rewrite exec_cachedAttributes by exact Hfree. now rewrite E. Qed.

(** With the locks of its keys free, cachedAttributes returns; it leaves
    the locks free, and the world changes as by the steps of a job. *)
Lemma cachedAttributes_returns (cli : nat) (w : world) :
  unlocked w cli ->
  exists r w' l, exec (cachedAttributes k cli) w = Some (r, w') /\
    job_step w w' /\ calls w' = calls w ++ l /\ job_calls l.
Proof.
  intros Hfree.
  destruct (cachedAttributes_locked_calls cli
              (lock_all (Keys (baseID w cli) (path (deref w cli)) "/list") w))
    as (r & w1 & l & E & Hc & Hj).
  exists r, (set_locks (locks w) w1), l.
  split; [apply cachedAttributes_of_locked; assumption |].
  apply job_step_exec in E as (Hh & Ht & _ & _); [| apply cachedAttributes_locked_job_step].
  split; [| split; [exact Hc | exact Hj]].
  unfold job_step. simpl in *. rewrite Hh, Ht, Hc. repeat split. now exists l.
Qed.

Lemma watched_quiet (pid : string) :
  k_Watch k pid = None -> quiet (k_ResultChan k pid) = true ->
  watched k pid = Some (TimedOut pid) /\ watch_calls k pid = [PodWatch pid; WatchStop pid].
Proof.
  intros Hw Hq. unfold watched, watch_calls. rewrite Hw. split; [| reflexivity].
  apply quiet_received, Hq.
Qed.

(** C2. Every call of cachedAttributes (the locks of its keys being free)
    and every call of cachedContent returns, and the calls it made to the
    cluster are those of one job: none; or a Create that failed; or a Create
    that gave a pod, calls that watch the pod and read its log, and then
    the Delete of that pod, which is the last call and the only Delete.
    This covers every exit path. In particular, when the cache has no entry,
    the pod is created, the watch is established and no terminal event
    arrives within the timeout, the call returns the timeout error and has
    called Create, Watch, Stop and Delete, in this order. *)
Theorem job_deleted_on_every_path (cli : nat) (w : world) :
  unlocked w cli ->
  (exists r w' l, exec (cachedAttributes k cli) w = Some (r, w') /\
     calls w' = calls w ++ l /\ job_calls l /\ deleted_last l) /\
  (exists r w' l, exec (cachedContent k cli) w = Some (r, w') /\
     calls w' = calls w ++ l /\ job_calls l /\ deleted_last l) /\
  (forall pid,
     k_Create k (next_pod w) = inr pid -> k_Watch k pid = None ->
     quiet (k_ResultChan k pid) = true ->
     (cache w !! (String_ w cli +:+ "/list") = None ->
      exists w', exec (cachedAttributes k cli) w = Some ((None, Some (TimedOut pid)), w') /\
        calls w' = calls w ++
          [PodCreate (ns (deref w cli)) (name (deref w cli)) (StatCmd k mountpoint) (inr pid);
           PodWatch pid; WatchStop pid; PodDelete pid]) /\
     (cache w !! (String_ w cli +:+ "/content") = None ->
      exists w', exec (cachedContent k cli) w = Some ((None, Some (TimedOut pid)), w') /\
        calls w' = calls w ++
          [PodCreate (ns (deref w cli)) (name (deref w cli))
                     ["cat"; mountpoint +:+ path (deref w cli)] (inr pid);
           PodWatch pid; WatchStop pid; PodDelete pid])).
Proof.
  intros Hfree. split; [| split].
  - destruct (cachedAttributes_returns cli w Hfree) as (r & w' & l & E & _ & Hc & Hj).
    exists r, w', l. auto using job_calls_deleted_last.
  - destruct (cachedContent_calls cli w) as (r & w' & l & E & Hc & Hj).
    exists r, w', l. auto using job_calls_deleted_last.
  - intros pid Hcreate Hwatch Hquiet.
    destruct (watched_quiet pid Hwatch Hquiet) as [Hw Hcalls]. split; intros Hmiss.
    + eexists. split.
      * apply cachedAttributes_of_locked; [exact Hfree |].
        apply (cachedAttributes_locked_wait_error cli _ pid (TimedOut pid));
          [exact Hmiss | exact Hcreate | exact Hw | reflexivity].
      * simpl. rewrite after_watch_calls_eq, Hcalls. simpl. rewrite <- !app_assoc. reflexivity.
    + eexists. split.
      * apply (cachedContent_wait_error cli _ pid (TimedOut pid));
          [exact Hmiss | exact Hcreate | exact Hw | reflexivity].
      * simpl. rewrite after_watch_calls_eq, Hcalls. simpl. rewrite <- !app_assoc. reflexivity.
Qed.

(** C8, as the code has it. A stored entry of the listing that gob cannot decode is
    not a miss: with the locks of its keys free, cachedAttributes returns
    the error of the decoder and a nil map, and leaves the world as it
    found it: no call is made to the cluster and the entry stays in the
    cache. *)
Theorem decode_failure_is_returned (cli : nat) (w : world) (bits : list byte) (e : error) :
  unlocked w cli ->
  cache w !! (String_ w cli +:+ "/list") = Some bits ->
  gob_Decode k bits = inl e ->
  exec (cachedAttributes k cli) w = Some ((None, Some e), w).
Proof.
  intros Hfree Hhit Hdec.
  rewrite <- (unlock_all (Keys (baseID w cli) (path (deref w cli)) "/list") w) at 2.
  apply cachedAttributes_of_locked; [exact Hfree |].
  unfold cachedAttributes_locked, cache_Get. exec_norm.
  cbn [cache lock_all set_locks]. same_entry.
  change (String_ (lock_all ?ks w) cli) with (String_ w cli).
  rewrite Hhit. exec_norm. rewrite Hdec. reflexivity.
Qed.

(** A stored entry that gob decodes is returned, and nothing else happens. *)
Lemma cachedAttributes_hit (cli : nat) (w : world) (bits : list byte) (m : AttrMap) :
  unlocked w cli ->
  cache w !! (String_ w cli +:+ "/list") = Some bits ->
  gob_Decode k bits = inr m ->
  exec (cachedAttributes k cli) w = Some ((Some m, None), w).
Proof.
  intros Hfree Hhit Hdec.
  rewrite <- (unlock_all (Keys (baseID w cli) (path (deref w cli)) "/list") w) at 2.
  apply cachedAttributes_of_locked; [exact Hfree |].
  unfold cachedAttributes_locked, cache_Get. exec_norm.
  change (String_ (lock_all ?ks w) cli) with (String_ w cli).
  cbn [cache lock_all set_locks].
  rewrite Hhit. exec_norm. rewrite Hdec. reflexivity.
Qed.



(** *** The entries *)



Lemma deref_extended (w : world) (cli : nat) (new : list pvc) :
  cli < length (heap w) -> deref (set_heap (heap w ++ new) w) cli = deref w cli.
Proof. intros H. unfold deref. simpl. now rewrite lookup_app_l. Qed.

Lemma exec_List_entries (cli : nat) (attrs : list (string * Attributes)) (entries : list Node)
    (w : world) :
  cli < length (heap w) ->
  exec (List_entries cli attrs entries) w =
  Some (entries ++ imap (fun i ea => node_of ea.2 (length (heap w) + i)) attrs,
        set_heap (heap w ++ map (fun ea => child (deref w cli) ea.1 ea.2) attrs) w).
Proof.
  revert entries w. induction attrs as [| [entry a] attrs IH]; intros entries w Hcli.
  - simpl. rewrite !app_nil_r. now destruct w.
  - cbn [List_entries]. unfold new_child. rewrite exec_bind, exec_atomic. cbv beta iota.
    cbn [fst snd]. rewrite IH by (simpl; rewrite length_app; lia).
    rewrite deref_extended by exact Hcli.
    cbn [heap set_heap fst snd map imap]. f_equal. f_equal.
    + rewrite <- app_assoc. simpl. rewrite Nat.add_0_r. do 2 f_equal.
      apply imap_ext. intros i x _. simpl. rewrite length_app. simpl. f_equal. lia.
    + unfold set_heap. simpl. f_equal. now rewrite <- app_assoc.
Qed.


(** *** Concurrent calls of cachedAttributes on one entry *)

Lemma holder_step_refl (key : string) (w : world) : holder_step key w w.
Proof. unfold holder_step. repeat split; auto. exists []. now rewrite app_nil_r. Qed.

Lemma holder_step_trans (key : string) (a b c : world) :
  holder_step key a b -> holder_step key b c -> holder_step key a c.
Proof.
  intros (H1 & H2 & (l1 & H3) & H4) (H5 & H6 & (l2 & H7) & H8). unfold holder_step.
  rewrite H5, H6, H7, H3, <- app_assoc. repeat split; auto. now exists (l1 ++ l2).
Qed.

Lemma job_step_holder (key : string) (w w' : world) : job_step w w' -> holder_step key w w'.
Proof.
  intros (H1 & H2 & H3 & H4). unfold holder_step. rewrite H3. repeat split; auto.
Qed.

Lemma with_locks_holder_step {R : Type} (key : string) (ls : list string) (body : prog world R) :
  ~ In key ls -> steps_in (holder_step key) body ->
  steps_in (holder_step key) (with_locks ls body).
Proof.
  intros Hnot Hb. induction ls as [| l ls IH]; cbn [with_locks]; [exact Hb |].
  assert (Hl : l <> key) by (intros ->; apply Hnot; left; reflexivity).
  unfold Lock, Unlock. apply steps_in_bind.
  { apply steps_in_await. intros w _. unfold holder_step. simpl. repeat split.
    - exists []. now rewrite app_nil_r.
    - intros H. apply elem_of_union. right. exact H. }
  intros _. apply steps_in_bind; [apply IH; intros H; apply Hnot; right; exact H |].
  intros r. apply steps_in_bind; [| intros _; apply steps_ret].
  apply steps_in_write. intros w. unfold holder_step. simpl. repeat split.
  - exists []. now rewrite app_nil_r.
  - intros H. apply elem_of_difference. split; [exact H |].
    intros Hin. apply elem_of_singleton in Hin. congruence.
Qed.

Lemma same_entries_keys (w0 w : world) (cli : nat) :
  same_entries w0 w -> baseID w cli = baseID w0 cli /\ deref w cli = deref w0 cli.
Proof.
  intros [Hh Ht]. unfold baseID, deref_type, deref. rewrite Hh. split; [| reflexivity].
  do 1 f_equal.
  assert (E : client_Name <$> (types w !! resourcetype_ (default nil_pvc (heap w0 !! cli)))
            = client_Name <$> (types w0 !! resourcetype_ (default nil_pvc (heap w0 !! cli)))).
  { rewrite <- !list_lookup_fmap. now rewrite Ht. }
  destruct (types w !! _), (types w0 !! _); simpl in *; congruence.
Qed.

Lemma same_entries_holder (key : string) (w0 w w' : world) :
  same_entries w0 w -> holder_step key w w' -> same_entries w0 w'.
Proof. intros [H1 H2] (H3 & H4 & _). unfold same_entries. now rewrite H3, H4. Qed.

Lemma string_app_assoc (a b c : string) : (a +:+ b) +:+ c = a +:+ b +:+ c.
Proof.
  induction a as [| x a IH]; [reflexivity |]. rewrite !string_app_String. now f_equal.
Qed.



(** One caller after the other, on pvc objects that have the key of [cli].
    The first job succeeds and its listing holds the directory of the
    entry: the first call stores the listing, every later call finds it. *)
Section Once.
Variables (cli : nat) (w0 : world) (pid : string) (out : reader) (attrs : DirMap).
Variables (v : AttrMap) (b : list byte).
Hypothesis create_ok : k_Create k (next_pod w0) = inr pid.
Hypothesis pod_succeeded : watched k pid = None.
Hypothesis logs_ok : k_GetLogs k pid = inr out.
Hypothesis parse_ok : StatParseAll k out mountpoint = inr attrs.
Hypothesis range_ok : forall d m, In (d, m) (range_dirs k attrs) <-> attrs !! d = Some m.
Hypothesis encode_ok : forall d m, attrs !! d = Some m -> exists bits, gob_Encode k m = inr bits.
Hypothesis listed : attrs !! path (deref w0 cli) = Some v.
Hypothesis encoded : gob_Encode k v = inr b.
Hypothesis decoded : gob_Decode k b = inr v.



Lemma Keys_first (base p suffix : string) :
  exists key keys, Keys base p suffix = key :: keys /\ ~ In key keys /\ List.NoDup keys.
Proof.
  pose proof (Keys_NoDup base p suffix) as Hnd. pose proof (Keys_own base p suffix) as Hin.
  destruct (Keys base p suffix) as [| key keys]; [destruct Hin |].
  exists key, keys. inversion Hnd; subst. auto.
Qed.

Lemma with_locks_critical {R : Type} (key : string) (keys : list string) (body : prog world R) :
  with_locks (key :: keys) body
  = critical (is_free key) (take key) (give key) (with_locks keys body).
Proof. reflexivity. Qed.

Lemma pstep_cachedAttributes (c : nat) (w : world) :
  pstep (cachedAttributes k c) w
  = Some (w, with_locks (Keys (baseID w c) (path (deref w c)) "/list")
                        (cachedAttributes_locked k c)).
Proof. reflexivity. Qed.



End Once.

(** *** Concurrent calls of Open on two objects of one file *)

Lemma deref_set_mux (b : bool) (e e' : nat) (w : world) :
  exists m, deref (set_heap (alter (set_mux b) e (heap w)) w) e' = set_mux m (deref w e').
Proof.
  unfold deref. simpl. destruct (decide (e = e')) as [<- | Hne].
  - destruct (heap w !! e) as [p |] eqn:Hp.
    + exists b. erewrite list_lookup_alter_eq. rewrite Hp. reflexivity.
    + exists false. rewrite list_lookup_alter_eq, Hp. reflexivity.
  - rewrite list_lookup_alter_ne by exact Hne.
    exists (mux (default nil_pvc (heap w !! e'))). now destruct (default nil_pvc (heap w !! e')).
Qed.

Lemma String_set_mux (b : bool) (e e' : nat) (w : world) :
  String_ (set_heap (alter (set_mux b) e (heap w)) w) e' = String_ w e'.
Proof.
  unfold String_, baseID, deref_type. cbn [types set_heap].
  destruct (deref_set_mux b e e' w) as [m ->]. reflexivity.
Qed.

Lemma entry_set_mux (b : bool) (e e' : nat) (w : world) :
  ns (deref (set_heap (alter (set_mux b) e (heap w)) w) e') = ns (deref w e') /\
  name (deref (set_heap (alter (set_mux b) e (heap w)) w) e') = name (deref w e') /\
  path (deref (set_heap (alter (set_mux b) e (heap w)) w) e') = path (deref w e').
Proof. destruct (deref_set_mux b e e' w) as [m ->]. auto. Qed.

Lemma deref_locked_other (w : world) (e1 e2 : nat) (b : bool) :
  e1 <> e2 -> deref (set_heap (alter (set_mux b) e1 (heap w)) w) e2 = deref w e2.
Proof. intros H. unfold deref. simpl. now rewrite list_lookup_alter_ne. Qed.

Ltac pool_step tac :=
  rewrite run_pool_cons;
  erewrite step_thread_at;
  [ | reflexivity | cbn [pstep bind]; tac; reflexivity ];
  cbn [insert list_insert].

(** C7, as the code has it. Two pvc objects [e1] and [e2] stand for the
    same file (Find makes a new object at every lookup), their mutexes are
    free and the cache has no content for the file. When
    two goroutines call Open, one on each object, and take their steps in
    turn, both find the cache empty and both create a pod: after five steps
    of each, two Creates have been made to the cluster for the same content
    key and no Delete. Neither caller waits for the other, because the mutex
    of Open belongs to the object and cachedContent takes no lock of the
    key. *)
Theorem concurrent_opens_start_two_jobs (w : world) (e1 e2 : nat) :
  e1 <> e2 -> mux (deref w e1) = false -> mux (deref w e2) = false ->
  String_ w e1 = String_ w e2 ->
  cache w !! (String_ w e1 +:+ "/content") = None ->
  calls (run_pool [0; 1; 0; 1; 0; 1; 0; 1; 0; 1] (w, [Open k e1; Open k e2])).1
  = calls w ++
    [PodCreate (ns (deref w e1)) (name (deref w e1))
               ["cat"; mountpoint +:+ path (deref w e1)] (k_Create k (next_pod w));
     PodCreate (ns (deref w e2)) (name (deref w e2))
               ["cat"; mountpoint +:+ path (deref w e2)] (k_Create k (next_pod w + 1))].
Proof.
  intros Hne Hm1 Hm2 Hsame Hc.
  unfold Open, await, defer, cachedContent, cache_Get, createPod, read, atomic.
  pool_step ltac:(rewrite Hm1; cbn [negb]).
  pool_step ltac:(rewrite deref_locked_other by exact Hne; rewrite Hm2; cbn [negb]).
  pool_step idtac.
  pool_step idtac.
  pool_step ltac:(cbn [cache set_heap]; rewrite !String_set_mux, Hc).
  pool_step ltac:(cbn [cache set_heap]; rewrite !String_set_mux, <- Hsame, Hc).
  pool_step idtac.
  pool_step idtac.
  pool_step idtac.
  pool_step idtac.
  cbn [run_pool fold_left fst calls called set_heap].
  destruct (entry_set_mux true e1 e1 w) as (Hn1 & Hna1 & Hp1).
  destruct (entry_set_mux true e1 e2 w) as (Hn2 & Hna2 & Hp2).
  destruct (entry_set_mux true e2 e1 (set_heap (alter (set_mux true) e1 (heap w)) w))
    as (Hn3 & Hna3 & Hp3).
  destruct (entry_set_mux true e2 e2 (set_heap (alter (set_mux true) e1 (heap w)) w))
    as (Hn4 & Hna4 & Hp4).
  cbn [heap set_heap] in *.
  change (deref (called ?c ?x) ?e) with (deref x e).
  rewrite Hn3, Hna3, Hp3, Hn4, Hna4, Hp4, Hn1, Hna1, Hp1, Hn2, Hna2, Hp2.
  rewrite <- app_assoc. cbn [app]. unfold next_pod.
  rewrite filter_app, length_app. reflexivity.
Qed.

(** *** More on waitForPod *)

Lemma received_app (pid : string) (pre ch : list (N * item)) :
  forallb passed_over pre = true ->
  received pid (pre ++ ch) = ((received pid ch).1, (elapsed pre + (received pid ch).2)%N).
Proof.
  induction pre as [| [gap e] pre IH]; intros H.
  - simpl. now destruct (received pid ch).
  - cbn [forallb] in H. apply andb_prop in H as [H1 H2]. unfold passed_over in H1.
    apply andb_prop in H1 as [Hgap He]. cbn [fst snd] in *.
    apply N.ltb_lt in Hgap. cbn [app received elapsed foldr fst snd].
    destruct (timeout <=? gap)%N eqn:Hle; [apply N.leb_le in Hle; lia |].
    rewrite (IH H2). cbn [fst snd].
    destruct e as [| | [] | | |]; try discriminate; f_equal; unfold elapsed; lia.
Qed.

(** Whatever waitForPod returns, it has stopped its watch by then
    ([defer watch.Stop()]), and it leaves the cache, the locks and the
    entries as they are. When the watch cannot be established it returns the
    error of Watch and has called nothing else; otherwise its calls are the
    Watch and, last, the Stop of that watch. *)
Theorem waitForPod_stops_its_watch (pid : string) (w : world)
    (r : option error) (w' : world) :
  exec (waitForPod k pid) w = Some (r, w') ->
  heap w' = heap w /\ cache w' = cache w /\ locks w' = locks w /\
  match k_Watch k pid with
  | Some e => r = Some e /\ calls w' = calls w ++ [PodWatch pid] /\ clock w' = clock w
  | None => calls w' = calls w ++ [PodWatch pid; WatchStop pid] /\ (clock w <= clock w')%N
  end.
Proof.
  rewrite exec_waitForPod. intros E. injection E as <- <-.
  destruct (after_watch_same pid w) as (Hh & _ & Hc & Hl & Ht).
  split; [exact Hh |]. split; [exact Hc |]. split; [exact Hl |].
  rewrite after_watch_calls_eq. unfold watched, watch_calls, after_watch in *.
  destruct (k_Watch k pid); auto.
Qed.

(** The first item that the loop of waitForPod does not pass over decides
    what it returns: nil for the phase Succeeded, [errPodTerminated] for
    Failed, an error for a closed channel or an error event, and the timeout
    error when the item takes the timeout or longer to arrive. The timeout
    starts anew with every item: the items passed over before may together
    have taken any time. *)
Theorem waitForPod_first_terminal_item (pid : string) (w : world)
    (pre : list (N * item)) (gap : N) (e : item) (rest : list (N * item)) :
  k_Watch k pid = None ->
  k_ResultChan k pid = pre ++ (gap, e) :: rest ->
  forallb passed_over pre = true ->
  exists r w', exec (waitForPod k pid) w = Some (r, w') /\
    if (timeout <=? gap)%N
    then r = Some (TimedOut pid) /\ clock w' = (clock w + (elapsed pre + timeout))%N
    else match e with
         | Modified PodSucceeded => r = None /\ clock w' = (clock w + (elapsed pre + gap))%N
         | Modified PodFailed =>
             r = Some errPodTerminated /\ clock w' = (clock w + (elapsed pre + gap))%N
         | Closed => r = Some (ChannelError pid) /\ clock w' = (clock w + (elapsed pre + gap))%N
         | ErrorEvent obj =>
             r = Some (PodErrored pid obj) /\ clock w' = (clock w + (elapsed pre + gap))%N
         | _ => (clock w + (elapsed pre + gap) <= clock w')%N
         end.
Proof.
  intros Hw Hch Hpre. exists (watched k pid), (after_watch k pid w).
  split; [apply exec_waitForPod |].
  unfold watched, after_watch. rewrite Hw, Hch, (received_app pid pre _ Hpre).
  cbn [received fst snd clock called sleep].
  destruct (timeout <=? gap)%N; [split; reflexivity |].
  destruct e as [| | [] | | |]; cbn [fst snd]; try (split; reflexivity); lia.
Qed.

(** *** More on the locks of cachedAttributes *)

Lemma exec_with_locks_blocked {R : Type} (ls : list string) (body : prog world R)
    (w : world) (key : string) :
  In key ls -> key ∈ locks w -> exec (with_locks ls body) w = None.
Proof.
  revert w. induction ls as [| l ls IH]; intros w Hin Hheld; [destruct Hin |].
  cbn [with_locks]. unfold Lock, await. rewrite exec_bind. cbn [exec].
  destruct (bool_decide (l ∉ locks w)) eqn:Hl; [| reflexivity].
  apply bool_decide_eq_true in Hl. cbv beta iota. rewrite exec_bind.
  rewrite IH; [reflexivity | |].
  - destruct Hin as [-> | Hin]; [contradiction | exact Hin].
  - simpl. apply elem_of_union. right. exact Hheld.
Qed.

(** While the lock of its own key or of the key of an ancestor directory is
    held, cachedAttributes does not return. *)
Theorem cachedAttributes_waits_for_locked_key (cli : nat) (w : world) (key : string) :
  In key (Keys (baseID w cli) (path (deref w cli)) "/list") -> key ∈ locks w ->
  exec (cachedAttributes k cli) w = None.
Proof.
  intros Hin Hheld. unfold cachedAttributes, LocksForKeys. rewrite exec_bind, exec_read.
  cbv beta iota. eapply exec_with_locks_blocked; eassumption.
Qed.

(** With the locks of its keys free, cachedAttributes returns on every
    path with every lock released: the locks held afterwards are those held
    before. *)
Theorem cachedAttributes_releases_its_locks (cli : nat) (w : world) :
  unlocked w cli ->
  exists r w', exec (cachedAttributes k cli) w = Some (r, w') /\ locks w' = locks w.
Proof.
  intros Hfree.
  destruct (cachedAttributes_returns cli w Hfree) as (r & w' & l & E & (_ & _ & Hl & _) & _).
  exists r, w'. auto.
Qed.

(** *** What is stored in the cache *)

Lemma cachedAttributes_locked_failure_not_cached (cli : nat) (w : world) :
  match k_Create k (next_pod w) with
  | inl _ => True
  | inr pid => watched k pid <> None
  end ->
  match exec (cachedAttributes_locked k cli) w with
  | Some (r, w') => cache w' = cache w
  | None => True
  end.
Proof.
  unfold next_pod, cachedAttributes_locked, cache_Get, createPod.
  intros H. revert H. exec_all; intros H;
    repeat match goal with
           | E : context [watched k ?p] |- _ => destruct (watched k p) as [[] |]; simpl in E
           end;
    try discriminate; try (exfalso; apply H; reflexivity);
    cbn [cache called set_types set_cache]; rewrite ?after_watch_cache; reflexivity.
Qed.

Lemma cachedContent_failure_not_cached (cli : nat) (w : world) :
  match k_Create k (next_pod w) with
  | inl _ => True
  | inr pid => watched k pid <> None
  end ->
  match exec (cachedContent k cli) w with
  | Some (r, w') => cache w' = cache w
  | None => True
  end.
Proof.
  unfold next_pod, cachedContent, cache_Get, createPod, cache_SetSlow.
  intros H. revert H. exec_all; intros H;
    repeat match goal with
           | E : context [watched k ?p] |- _ => destruct (watched k p) as [[] |]; simpl in E
           end;
    try discriminate; try (exfalso; apply H; reflexivity);
    cbn [cache called set_types set_cache]; rewrite ?after_watch_cache; reflexivity.
Qed.

(** A job that does not succeed stores nothing: when the pod cannot be
    created, or waitForPod returns an error for it (the pod failed, the
    watch failed or timed out), cachedAttributes and cachedContent leave
    the cache as it was, so that the next call runs a job again. *)
Theorem failed_job_is_not_cached (cli : nat) (w : world) :
  unlocked w cli ->
  match k_Create k (next_pod w) with
  | inl _ => True
  | inr pid => watched k pid <> None
  end ->
  (exists r w', exec (cachedAttributes k cli) w = Some (r, w') /\ cache w' = cache w) /\
  (exists r w', exec (cachedContent k cli) w = Some (r, w') /\ cache w' = cache w).
Proof.
  intros Hfree Hfail. split.
  - destruct (cachedAttributes_returns cli w Hfree) as (r & w' & l & E & _).
    exists r, w'. split; [exact E |].
    rewrite exec_cachedAttributes in E by exact Hfree.
    pose proof (cachedAttributes_locked_failure_not_cached cli
                  (lock_all (Keys (baseID w cli) (path (deref w cli)) "/list") w) Hfail) as H.
    destruct (exec (cachedAttributes_locked k cli) _) as [[r1 w1] |]; [| discriminate].
    injection E as _ <-. exact H.
  - destruct (cachedContent_calls cli w) as (r & w' & l & E & _).
    exists r, w'. split; [exact E |].
    pose proof (cachedContent_failure_not_cached cli w Hfail) as H.
    now rewrite E in H.
Qed.

(** The content of a file is read by one job: when the cache has no entry,
    the pod succeeds and its log is read to the end, cachedContent returns
    the bytes of the log and stores them, and the next call returns the same
    bytes from the cache, makes no call to the cluster and changes nothing. *)
Theorem content_is_read_once (cli : nat) (w : world) (pid : string) (bits : list byte) :
  cache w !! (String_ w cli +:+ "/content") = None ->
  k_Create k (next_pod w) = inr pid ->
  watched k pid = None -> k_GetLogs k pid = inr (bits, None) ->
  exists w', exec (cachedContent k cli) w = Some ((Some bits, None), w') /\
             exec (cachedContent k cli) w' = Some ((Some bits, None), w').
Proof.
  intros Hmiss Hcreate Hw Hlogs.
  destruct (cachedContent_succeeded cli w pid bits Hmiss Hcreate Hw Hlogs) as (w' & E & Hc & _).
  exists w'. split; [exact E |].
  pose proof E as Hstep. apply job_step_exec in Hstep; [| apply cachedContent_job_step].
  destruct (job_step_baseID w w' cli Hstep) as [Hb Hd].
  unfold cachedContent, cache_Get. exec_norm.
  unfold String_ at 1. rewrite Hb, Hd. fold (String_ w cli).
  rewrite Hc, lookup_insert_eq. reflexivity.
Qed.

(** One job lists the whole volume: when the job of an entry succeeds, the
    listing of every directory that the parser returned is stored under the
    key of that directory. Another entry of the same volume whose path is
    such a directory (the entry itself, or a subdirectory found later) then
    gets its listing from the cache: no second job is run. *)
Theorem subdirectory_listing_is_cached (cli sub : nat) (w : world) (pid : string)
    (out : reader) (attrs : DirMap) (m : AttrMap) (bm : list byte) :
  unlocked w cli -> unlocked w sub ->
  cache w !! (String_ w cli +:+ "/list") = None ->
  k_Create k (next_pod w) = inr pid -> watched k pid = None ->
  k_GetLogs k pid = inr out -> StatParseAll k out mountpoint = inr attrs ->
  (forall d m', In (d, m') (range_dirs k attrs) <-> attrs !! d = Some m') ->
  baseID w sub = baseID w cli ->
  attrs !! path (deref w sub) = Some m -> gob_Encode k m = inr bm -> gob_Decode k bm = inr m ->
  exists r w1, exec (cachedAttributes k cli) w = Some (r, w1) /\
    calls w1 = calls w ++
      PodCreate (ns (deref w cli)) (name (deref w cli)) (StatCmd k mountpoint) (inr pid)
      :: watch_calls k pid ++ [PodGetLogs pid; LogsClose pid; PodDelete pid] /\
    exec (cachedAttributes k sub) w1 = Some ((Some m, None), w1).
Proof.
  intros Hfree Hfree' Hmiss Hcreate Hw Hlogs Hparse Hrange Hbase Hlisted Henc Hdec.
  destruct (cachedAttributes_locked_succeeded cli
              (lock_all (Keys (baseID w cli) (path (deref w cli)) "/list") w)
              pid out attrs Hmiss Hcreate Hw Hlogs Hparse)
    as (err' & w1 & E & Hc & _ & _ & Hin).
  pose proof E as Hstep.
  apply job_step_exec in Hstep; [| apply cachedAttributes_locked_job_step].
  exists (attrs !! path (deref w cli), err'), (set_locks (locks w) w1).
  split; [apply cachedAttributes_of_locked; assumption |].
  split; [exact Hc |].
  assert (Hsame : job_step w (set_locks (locks w) w1)).
  { destruct Hstep as (H1 & H2 & H3 & l & H4). unfold job_step. simpl in *.
    rewrite H1, H2, H4. repeat split. now exists l. }
  destruct (job_step_baseID _ _ sub Hsame) as [Hb Hd].
  apply (cachedAttributes_hit sub _ bm m).
  - unfold unlocked. rewrite Hb, Hd. exact Hfree'.
  - unfold String_. rewrite Hb, Hd, Hbase, string_app_assoc. simpl.
    revert Hin. same_entry. intros Hin. apply Hin.
    + apply in_map_iff. exists (path (deref w sub), m). split; [reflexivity |].
      apply Hrange, Hlisted.
    + intros m' Hm'. apply Hrange in Hm'. rewrite Hlisted in Hm'. injection Hm' as <-.
      exact Henc.
  - exact Hdec.
Qed.

Lemma exec_cache_all_last (cli : nat) (pre : list (string * AttrMap)) (d : string)
    (m : AttrMap) (e : error) (err : option error) (w : world) :
  gob_Encode k m = inl e ->
  exists c', exec (cache_all k cli (pre ++ [(d, m)]) err) w = Some (Some e, set_cache c' w).
Proof.
  intros Henc. revert err w. induction pre as [| [d' m'] pre IH]; intros err w.
  - cbn [app cache_all]. unfold cache_SetAny. exec_norm. rewrite Henc. exec_norm.
    exists (cache w). now destruct w.
  - cbn [app cache_all]. unfold cache_SetAny. exec_norm.
    destruct (gob_Encode k m'); cbv beta iota; [apply IH |].
    match goal with |- context [exec _ ?w1] => destruct (IH None w1) as [c' ->] end.
    exists c'. reflexivity.
Qed.

(** The error of the last cache write is the error of the listing: when the
    job succeeds and its log is parsed, but gob does not encode the listing
    of the directory that [range] visits last, cachedAttributes returns the
    listing of the entry together with that error, and List returns the
    error and no nodes. *)
Theorem last_cache_write_error_is_returned (cli : nat) (w : world) (pid : string)
    (out : reader) (attrs : DirMap) (pre : list (string * AttrMap)) (d : string)
    (m : AttrMap) (e : error) :
  unlocked w cli ->
  cache w !! (String_ w cli +:+ "/list") = None ->
  k_Create k (next_pod w) = inr pid -> watched k pid = None ->
  k_GetLogs k pid = inr out -> StatParseAll k out mountpoint = inr attrs ->
  range_dirs k attrs = pre ++ [(d, m)] -> gob_Encode k m = inl e ->
  (exists w', exec (cachedAttributes k cli) w
              = Some ((attrs !! path (deref w cli), Some e), w')) /\
  (exists w', exec (List k cli) w = Some ((None, Some e), w')).
Proof.
  intros Hfree Hmiss Hcreate Hw Hlogs Hparse Hrange Henc.
  assert (H : exists w', exec (cachedAttributes k cli) w
                         = Some ((attrs !! path (deref w cli), Some e), w')).
  { assert (HL : exists w1,
              exec (cachedAttributes_locked k cli)
                   (lock_all (Keys (baseID w cli) (path (deref w cli)) "/list") w)
              = Some ((attrs !! path (deref w cli), Some e), w1)).
    { unfold next_pod in Hcreate. unfold cachedAttributes_locked, cache_Get, createPod.
      exec_norm. change (cache (lock_all ?ks w)) with (cache w).
      change (String_ (lock_all ?ks w) cli) with (String_ w cli). rewrite Hmiss. exec_norm.
      change (calls (lock_all ?ks w)) with (calls w). rewrite Hcreate. exec_norm.
      rewrite Hw. cbn [is_errPodTerminated negb]. exec_norm. rewrite Hlogs. exec_norm.
      cbv beta iota. rewrite Hparse. exec_norm. rewrite Hrange.
      match goal with
      | |- context [exec (cache_all k ?c (pre ++ [(d, m)]) ?er) ?w0] =>
          destruct (exec_cache_all_last c pre d m e er w0 Henc) as [c' ->]
      end.
      exec_norm. same_entry. eexists. reflexivity. }
    destruct HL as [w1 HL]. exists (set_locks (locks w) w1).
    apply cachedAttributes_of_locked; assumption. }
  split; [exact H |]. destruct H as [w' E].
  exists w'. unfold List. rewrite exec_bind, E. reflexivity.
Qed.

(** *** More on Find and List *)

Lemma child_path_not_empty (p name : string) : String.eqb (p +:+ "/" +:+ name) "" = false.
Proof.
  apply String.eqb_neq. intros H. apply (f_equal String.length) in H.
  rewrite !string_length_app in H. simpl in H. lia.
Qed.

Lemma cachedAttributes_result (cli : nat) (w : world)
    (r : option AttrMap * option error) (w1 : world) :
  unlocked w cli -> exec (cachedAttributes k cli) w = Some (r, w1) -> job_step w w1.
Proof.
  intros Hfree E.
  destruct (cachedAttributes_returns cli w Hfree) as (r' & w' & l & E' & Hstep & _).
  rewrite E in E'. now injection E' as _ ->.
Qed.

(** The node Find returns for a name of the listing is a new object, the
    last of the heap, with a free mutex; its String() is that of the parent
    followed by a slash and the name, so that the keys of the parent are
    among its keys; Attr on it returns the attributes the listing has for
    the name, at any later time; and it is a directory node exactly when the
    mode of these attributes has the directory bit. *)
Theorem Find_makes_child (cli : nat) (w : world) (entry : string) (a : Attributes)
    (attrs : AttrMap) (w1 : world) :
  cli < length (heap w) -> unlocked w cli ->
  exec (cachedAttributes k cli) w = Some ((Some attrs, None), w1) ->
  attrs !! entry = Some a ->
  exists w2,
    exec (Find k cli entry) w
    = Some ((Some (if N.testbit (Mode a) 31 then NewDir (length (heap w))
                   else NewFile (length (heap w))), None), w2) /\
    heap w2 = heap w ++ [child (deref w cli) entry a] /\
    String_ w2 (length (heap w)) = String_ w cli +:+ "/" +:+ entry /\
    mux (deref w2 (length (heap w))) = false /\
    forall t, exec (Attr (length (heap w))) (sleep t w2) = Some (a, sleep t w2).
Proof.
  intros Hcli Hfree E Ha.
  pose proof (cachedAttributes_result cli w _ w1 Hfree E) as Hstep.
  destruct (job_step_baseID w w1 cli Hstep) as [Hb Hd].
  destruct Hstep as (Hh & Ht & _).
  eexists. split.
  { unfold Find. rewrite exec_bind, E. cbv beta iota. change (default ∅ (Some attrs)) with attrs. rewrite Ha.
    unfold new_child. rewrite exec_bind, exec_atomic. cbv beta iota. cbn [fst snd].
    rewrite Hh, Hd. reflexivity. }
  assert (Hnew : deref (set_heap (heap w ++ [child (deref w cli) entry a]) w1) (length (heap w))
                 = child (deref w cli) entry a).
  { unfold deref. cbn [heap set_heap]. rewrite lookup_app_r by lia.
    now rewrite Nat.sub_diag. }
  split; [reflexivity |].
  split.
  { unfold String_, baseID, deref_type. rewrite Hnew. cbn [types set_heap child path name ns
      resourcetype_].
    rewrite <- !string_app_assoc. do 3 f_equal.
    assert (Ety : client_Name <$> (types w1 !! resourcetype_ (deref w cli))
                = client_Name <$> (types w !! resourcetype_ (deref w cli))).
    { rewrite <- !list_lookup_fmap. now rewrite Ht. }
    destruct (types w1 !! _), (types w !! _); simpl in *; congruence. }
  split; [now rewrite Hnew |].
  intros t. unfold Attr. rewrite exec_read.
  change (deref (sleep t ?x) ?e) with (deref x e). rewrite Hnew.
  cbn [path child attr]. now rewrite child_path_not_empty.
Qed.

(** Find makes no object when it returns no node: a name that the listing
    does not have gives ENOENT, and an error of cachedAttributes is passed
    on, also when cachedAttributes returned a listing with it; List passes
    that error on as well. *)
Theorem Find_without_node (cli : nat) (w : world) (name : string)
    (attrs : option AttrMap) (err : option error) (w1 : world) :
  exec (cachedAttributes k cli) w = Some ((attrs, err), w1) ->
  match err with
  | Some e =>
      exec (Find k cli name) w = Some ((None, Some e), w1) /\
      exec (List k cli) w = Some ((None, Some e), w1)
  | None =>
      default ∅ attrs !! name = None ->
      exec (Find k cli name) w = Some ((None, Some ENOENT), w1)
  end.
Proof.
  intros E. unfold Find, List. rewrite !exec_bind, E.
  destruct err as [e |]; cbv beta iota; [split; reflexivity |].
  intros ->. reflexivity.
Qed.

(** List returns one node for every entry of the listing, in the order in
    which [range] walks the map: the i-th node is a new object, the i-th
    after the objects that existed, for the child path of the i-th name with
    the attributes of the listing; a nil listing gives no nodes and no
    error. *)
Theorem List_one_node_per_entry (cli : nat) (w : world) (attrs : option AttrMap) (w1 : world) :
  cli < length (heap w) -> unlocked w cli ->
  exec (cachedAttributes k cli) w = Some ((attrs, None), w1) ->
  exists nodes w2,
    exec (List k cli) w = Some ((Some nodes, None), w2) /\
    length nodes = length (range_attrs k (default ∅ attrs)) /\
    length (heap w2) = length (heap w) + length nodes /\
    forall i name a, range_attrs k (default ∅ attrs) !! i = Some (name, a) ->
      nodes !! i = Some (node_of a (length (heap w) + i)) /\
      heap w2 !! (length (heap w) + i) = Some (child (deref w cli) name a).
Proof.
  intros Hcli Hfree E.
  pose proof (cachedAttributes_result cli w _ w1 Hfree E) as Hstep.
  destruct (job_step_baseID w w1 cli Hstep) as [Hb Hd].
  destruct Hstep as (Hh & _).
  eexists _, _. split.
  { unfold List. rewrite exec_bind, E. cbv beta iota.
    rewrite exec_bind, exec_List_entries by (rewrite Hh; exact Hcli). reflexivity. }
  cbn [app heap set_heap]. rewrite Hh, Hd.
  split; [apply length_imap |].
  split; [rewrite length_app, length_map, length_imap; reflexivity |].
  intros i name a Hi. split.
  - rewrite list_lookup_imap, Hi. reflexivity.
  - rewrite lookup_app_r by lia.
    replace (length (heap w) + i - length (heap w)) with i by lia.
    rewrite list_lookup_fmap, Hi. reflexivity.
Qed.

Lemma Split_file_no_slash (cur s : string) : no_slash s = true -> Split_file cur s = cur +:+ s.
Proof.
  revert cur. induction s as [| c s IH]; intros cur H; simpl in *.
  - symmetry. apply string_app_empty.
  - apply andb_prop in H as [Hc Hs]. apply negb_true_iff in Hc. rewrite Hc.
    rewrite IH by exact Hs. apply string_app_cons.
Qed.

Lemma Split_file_after_slash (cur p s : string) :
  no_slash s = true -> Split_file cur (p +:+ "/" +:+ s) = s.
Proof.
  intros Hs. revert cur. induction p as [| c p IH]; intros cur.
  - change ("" +:+ "/" +:+ s) with (String (Ascii.ascii_of_nat 47) s).
    cbn [Split_file]. rewrite Ascii.eqb_refl. now rewrite Split_file_no_slash.
  - rewrite string_app_String. cbn [Split_file].
    destruct (Ascii.eqb c (Ascii.ascii_of_nat 47)); apply IH.
Qed.

(** Name() of the root entry is the name of the claim; Name() of an entry
    that Find or List made for a name without a slash is that name, whatever
    the path of the parent. *)
Theorem Name_of_child (w : world) (cli : nat) (c : pvc) (entry : string) (a : Attributes) :
  (path (deref w cli) = "" -> Name w cli = name (deref w cli)) /\
  (no_slash entry = true -> deref w cli = child c entry a -> Name w cli = entry).
Proof.
  unfold Name. split.
  - intros ->. reflexivity.
  - intros Hs ->. cbn [path child]. rewrite child_path_not_empty.
    apply Split_file_after_slash, Hs.
Qed.

(** *** One job at a time *)

Lemma pods_created_app (l1 l2 : list call) :
  pods_created (l1 ++ l2) = pods_created l1 + pods_created l2.
Proof. unfold pods_created. now rewrite filter_app, length_app. Qed.

Lemma pods_deleted_app (l1 l2 : list call) :
  pods_deleted (l1 ++ l2) = pods_deleted l1 + pods_deleted l2.
Proof. unfold pods_deleted. now rewrite filter_app, length_app. Qed.

Lemma watch_or_logs_counts (mid : list call) :
  forallb watch_or_logs mid = true -> pods_created mid = 0 /\ pods_deleted mid = 0.
Proof.
  induction mid as [| c mid IH]; [auto |]. cbn [forallb]. intros H.
  apply andb_prop in H as [Hc Hmid]. destruct (IH Hmid) as [H1 H2].
  change (c :: mid) with ([c] ++ mid). rewrite pods_created_app, pods_deleted_app, H1, H2.
  destruct c; try discriminate; auto.
Qed.

Lemma job_calls_counts (l : list call) :
  job_calls l ->
  pods_created l = pods_deleted l /\ pods_created l <= 1 /\
  (pods_deleted l = 1 -> exists c l', l = c :: l' /\ is_created c = true).
Proof.
  intros [| ns claim args e | ns claim args pid mid Hmid].
  - split; [reflexivity |]. split; [unfold pods_created; simpl; lia |]. discriminate.
  - split; [reflexivity |]. split; [unfold pods_created; simpl; lia |]. discriminate.
  - destruct (watch_or_logs_counts mid Hmid) as [H1 H2].
    change (PodCreate ns claim args (inr pid) :: mid ++ [PodDelete pid])
      with ([PodCreate ns claim args (inr pid)] ++ mid ++ [PodDelete pid]).
    rewrite !pods_created_app, !pods_deleted_app, H1, H2.
    split; [reflexivity |]. split; [unfold pods_created; simpl; lia |].
    intros _. eexists _, _. split; reflexivity.
Qed.

Lemma job_calls_prefix (l1 l2 : list call) :
  job_calls (l1 ++ l2) -> pods_deleted l1 <= pods_created l1 <= pods_deleted l1 + 1.
Proof.
  intros H. destruct (job_calls_counts _ H) as (Heq & Hle & Hhead).
  rewrite pods_created_app, pods_deleted_app in *.
  destruct l1 as [| c l1]; [unfold pods_created, pods_deleted; simpl; lia |].
  destruct (is_created c) eqn:Hc.
  - assert (1 <= pods_created (c :: l1)).
    { unfold pods_created. rewrite filter_cons_True by exact Hc. simpl. lia. }
    lia.
  - assert (Hd : pods_deleted ((c :: l1) ++ l2) = 0 \/ pods_deleted ((c :: l1) ++ l2) = 1).
    { rewrite pods_deleted_app. lia. }
    destruct Hd as [Hd | Hd]; rewrite pods_deleted_app in Hd; [lia |].
    destruct Hhead as (c' & l' & E & Hc'); [lia |].
    injection E as <- _. congruence.
Qed.

Lemma one_at_a_time_between (ws w w1 : world) (l1 l2 l : list call) :
  pods_created (calls ws) = pods_deleted (calls ws) ->
  calls w = calls ws ++ l1 -> calls w1 = calls w ++ l2 -> calls w1 = calls ws ++ l ->
  job_calls l -> one_at_a_time (calls w).
Proof.
  intros Hb H1 H2 H3 Hj. rewrite H1, <- app_assoc in H2. rewrite H2 in H3.
  apply app_inv_head in H3. subst l. apply job_calls_prefix in Hj.
  unfold one_at_a_time. rewrite H1, pods_created_app, pods_deleted_app. lia.
Qed.

(** Callers of cachedAttributes on one entry never have two pods at a time,
    whatever the cluster, gob and the parser answer: in every interleaving
    of any number of callers, at every moment, the pods created are those
    deleted and at most one more. *)
Theorem one_listing_job_at_a_time (cli : nat) (w0 : world) (n : nat) (schedule : list nat) :
  unlocked w0 cli -> pods_created (calls w0) = pods_deleted (calls w0) ->
  one_at_a_time (calls (run_pool schedule (w0, replicate n (cachedAttributes k cli))).1).
Proof.
  intros Hfree Hbal.
  destruct (Keys_first (baseID w0 cli) (path (deref w0 cli)) "/list")
    as (key & keys & Hkeys & Hnot & Hnd).
  set (Q := fun w : world => unlocked w cli /\ pods_created (calls w) = pods_deleted (calls w)).
  set (Post := fun (ws : world) (r : option AttrMap * option error) (w1 : world) =>
                 (exists l, calls w1 = calls ws ++ l /\ job_calls l) /\
                 pods_created (calls ws) = pods_deleted (calls ws) /\
                 unlocked (give key w1) cli).
  assert (Hstep0 : forall w, same_entries w0 w ->
            pstep (cachedAttributes k cli) w
            = Some (w, critical (is_free key) (take key) (give key)
                                (with_locks keys (cachedAttributes_locked k cli)))).
  { intros w Hw. rewrite pstep_cachedAttributes.
    destruct (same_entries_keys w0 w cli Hw) as [-> ->]. now rewrite Hkeys. }
  assert (HS : same_entries w0 (run_pool schedule (w0, replicate n (cachedAttributes k cli))).1 /\
          serial (fun _ : unit => True) (is_free key) (give key)
            (fun _ => cachedAttributes k cli)
            (fun _ => critical (is_free key) (take key) (give key)
                        (with_locks keys (cachedAttributes_locked k cli)))
            (holder_step key) Q (fun _ => True) (fun _ => True) Post
            (run_pool schedule (w0, replicate n (cachedAttributes k cli)))).
  { apply (serial_run (fun _ : unit => True) (is_free key) (take key) (give key)
             (fun _ => cachedAttributes k cli)
             (fun _ => with_locks keys (cachedAttributes_locked k cli))
             (same_entries w0) Q (fun _ => True) (holder_step key) (fun _ => True) Post).
    - apply holder_step_refl.
    - apply holder_step_trans.
    - intros w w'. apply same_entries_holder.
    - intros w Hw _. exact Hw.
    - intros w Hw. exact Hw.
    - intros w _. unfold is_free, take. simpl. apply bool_decide_eq_false. set_solver.
    - intros w _. unfold is_free, give. simpl. apply bool_decide_eq_true. set_solver.
    - intros w w' (_ & _ & _ & Hk) Hheld. unfold is_free in *.
      apply bool_decide_eq_false in Hheld. apply bool_decide_eq_false.
      intros Hn. apply Hheld. intros Hin. apply Hn, Hk, Hin.
    - intros _ w _. apply Hstep0.
    - intros _ _. apply with_locks_holder_step; [exact Hnot |].
      eapply steps_in_mono; [apply job_step_holder | apply cachedAttributes_locked_job_step].
    - intros _ w _ Hw [HQ1 HQ2] Hf.
      destruct (cachedAttributes_returns cli w HQ1) as (r & w' & l & E & Hjs & Hc & Hj).
      rewrite (exec_pstep _ _ _ _ (Hstep0 w Hw)), exec_critical, Hf, exec_holding in E.
      destruct (exec _ (take key w)) as [[r1 w1] |]; [| discriminate].
      injection E as -> <-. exists r, w1. split; [reflexivity |].
      split; [exists l; split; [exact Hc | exact Hj] |]. split; [exact HQ2 |].
      destruct (job_step_baseID _ _ cli Hjs) as [Hb Hd]. destruct Hjs as (_ & _ & Hl & _).
      unfold unlocked. rewrite Hb, Hd, Hl. exact HQ1.
    - intros ws r w1 ((l & Hl & Hj) & Hbal' & Hu). split; [| split; exact I].
      split; [exact Hu |].
      change (calls (give key w1)) with (calls w1).
      rewrite Hl, pods_created_app, pods_deleted_app.
      destruct (job_calls_counts l Hj) as (-> & _). lia.
    - split; [split; reflexivity |].
      apply (serial_initial (fun _ : unit => True)) with (A := same_entries w0) (a := tt).
      + intros _ w _. apply Hstep0.
      + exact I.
      + split; reflexivity.
      + unfold is_free. apply bool_decide_eq_true. apply Hfree. rewrite Hkeys. left. reflexivity.
      + split; assumption. }
  destruct HS as [_ HS].
  apply serial_world in HS; [| apply holder_step_refl | apply holder_step_trans].
  destruct HS as [[_ HQ] | (ws & r & w1 & (_ & _ & (l1 & Hl1) & _) & (_ & _ & (l2 & Hl2) & _)
                            & ((l & Hl & Hj) & Hbal' & _))].
  - unfold one_at_a_time. lia.
  - eapply one_at_a_time_between; eassumption.
Qed.

Lemma Open_critical (cli : nat) :
  Open k cli
  = critical (fun w => negb (mux (deref w cli)))
             (fun w => set_heap (alter (set_mux true) cli (heap w)) w)
             (fun w => set_heap (alter (set_mux false) cli (heap w)) w)
             (cachedContent k cli).
Proof. reflexivity. Qed.

Lemma deref_alter_mux (b : bool) (cli : nat) (w : world) :
  cli < length (heap w) ->
  mux (deref (set_heap (alter (set_mux b) cli (heap w)) w) cli) = b.
Proof.
  intros H. unfold deref. simpl. rewrite list_lookup_alter_eq.
  destruct (lookup_lt_is_Some_2 _ _ H) as [p ->]. reflexivity.
Qed.

(** Callers of Open on one and the same object run their jobs one after the
    other: the mutex of the object is held from before the cache is read
    until after the job is deleted. In every interleaving of any number of
    callers, at every moment, the pods created are those deleted and at
    most one more. *)
Theorem one_content_job_per_object (cli : nat) (w0 : world) (n : nat) (schedule : list nat) :
  cli < length (heap w0) -> mux (deref w0 cli) = false ->
  pods_created (calls w0) = pods_deleted (calls w0) ->
  one_at_a_time (calls (run_pool schedule (w0, replicate n (Open k cli))).1).
Proof.
  intros Hcli Hmux Hbal.
  set (free := fun w : world => negb (mux (deref w cli))).
  set (acq := fun w : world => set_heap (alter (set_mux true) cli (heap w)) w).
  set (rel := fun w : world => set_heap (alter (set_mux false) cli (heap w)) w).
  set (T0 := bind (read (fun _ : world => tt)) (fun _ => Open k cli)).
  set (Q := fun w : world => pods_created (calls w) = pods_deleted (calls w)).
  set (Post := fun (ws : world) (r : option (list byte) * option error) (w1 : world) =>
                 (exists l, calls w1 = calls ws ++ l /\ job_calls l) /\
                 pods_created (calls ws) = pods_deleted (calls ws)).
  assert (HS : cli < length (heap (run_pool schedule (w0, replicate n (Open k cli))).1) /\
          serial (fun _ : unit => True) free rel (fun _ => T0)
            (fun _ => critical free acq rel (cachedContent k cli))
            job_step Q (fun _ => True) (fun _ => True) Post
            (run_pool schedule (w0, replicate n (Open k cli)))).
  { apply (serial_run (fun _ : unit => True) free acq rel (fun _ => T0)
             (fun _ => cachedContent k cli)
             (fun w => cli < length (heap w)) Q (fun _ => True) job_step (fun _ => True) Post).
    - apply job_step_refl.
    - apply job_step_trans.
    - intros w w' Hw (Hh & _). now rewrite Hh.
    - intros w Hw _. unfold acq. simpl. now rewrite length_alter.
    - intros w Hw. unfold rel. simpl. now rewrite length_alter.
    - intros w Hw. unfold free, acq. now rewrite deref_alter_mux.
    - intros w Hw. unfold free, rel. now rewrite deref_alter_mux.
    - intros w w' (Hh & _) Hheld. unfold free, deref in *. now rewrite Hh.
    - intros _ w _ _. reflexivity.
    - intros _ _. apply cachedContent_job_step.
    - intros _ w _ Hw HQ Hf.
      destruct (cachedContent_calls cli (acq w)) as (r & w1 & l & E & Hc & Hj).
      exists r, w1. split; [exact E |]. split; [exists l; auto | exact HQ].
    - intros ws r w1 ((l & Hl & Hj) & Hbal'). split; [| split; exact I].
      unfold Q. change (calls (rel w1)) with (calls w1).
      rewrite Hl, pods_created_app, pods_deleted_app.
      destruct (job_calls_counts l Hj) as (-> & _). unfold Q in *. lia.
    - split; [exact Hcli |]. left. cbn [fst snd].
      split; [unfold free; now rewrite Hmux |]. split; [exact Hbal |].
      split; [| intros; exact I].
      intros j p Hj. apply lookup_replicate in Hj as [-> _]. left. exists tt.
      split; [exact I |]. right. apply Open_critical. }
  destruct HS as [_ HS].
  apply serial_world in HS; [| apply job_step_refl | apply job_step_trans].
  destruct HS as [HQ | (ws & r & w1 & (_ & _ & _ & (l1 & Hl1)) & (_ & _ & _ & (l2 & Hl2))
                        & ((l & Hl & Hj) & Hbal'))].
  - unfold one_at_a_time, Q in *. lia.
  - eapply one_at_a_time_between; eassumption.
Qed.

End PvcFacts.
(** *** Runs of the pvc entry *)

Section PvcRuns.
Import Prog Pvc.

Lemma cold_unlocked (cli : nat) : unlocked cold cli.
Proof. intros key _. apply not_elem_of_empty. Qed.

Lemma corrupt_unlocked (cli : nat) : unlocked corrupt cli.
Proof. intros key _. apply not_elem_of_empty. Qed.

Lemma volume_range (d : string) (m : AttrMap) :
  In (d, m) (map_to_list volume) <-> volume !! d = Some m.
Proof. rewrite <- list_elem_of_In. apply elem_of_map_to_list. Qed.





(** The pod is still running when the timeout passes. *)
Lemma job_deleted_on_every_path_witness :
  unlocked cold 0 /\
  exists w',
    exec (cachedAttributes (cluster silent (inr (stat_output, None))) 0) cold
    = Some ((None, Some (TimedOut "wash0")), w') /\
    calls w' = [PodCreate "default" "data" ["find"; "/mnt"; "-exec"; "stat"] (inr "wash0");
                PodWatch "wash0"; WatchStop "wash0"; PodDelete "wash0"].
Proof.
  split; [apply cold_unlocked |].
  destruct (job_deleted_on_every_path (cluster silent (inr (stat_output, None))) 0 cold
              (cold_unlocked 0)) as (_ & _ & H).
  apply (H "wash0"); reflexivity.
Defined.



(** The cache holds bytes that gob cannot decode. *)
Lemma decode_failure_is_returned_witness :
  unlocked corrupt 0 /\
  exec (cachedAttributes (cluster succeeding (inr (stat_output, None))) 0) corrupt
  = Some ((None, Some (External "unexpected EOF")), corrupt).
Proof.
  split; [apply corrupt_unlocked |].
  apply (decode_failure_is_returned (cluster succeeding (inr (stat_output, None))) 0 corrupt
           garbage (External "unexpected EOF")).
  - apply corrupt_unlocked.
  - vm_compute. reflexivity.
  - vm_compute. reflexivity.
Defined.

(** C8 as stated fails: the entry of the listing cannot be decoded, the
    cluster would run the job, and cachedAttributes returns the error of the
    decoder without any call to the cluster. *)
Lemma corrupt_entry_is_not_a_miss :
  cache corrupt !! "kube/default/pvc/data/list" = Some garbage /\
  ((fun rw => (rw.1.2, calls rw.2)) <$>
     exec (cachedAttributes (cluster succeeding (inr (stat_output, None))) 0) corrupt)
  = Some (Some (External "unexpected EOF"), []).
Proof. split; vm_compute; reflexivity. Qed.


(** The timestamp that [cli.updated = time.Now()] writes is kept in the
    resourcetype behind the pointer the entries embed, not in a pvc object:
    after a cold listing of the root it holds the time of the call, and (by
    the theorem above) the pvc objects are as before. *)
Lemma listing_writes_updated :
  updated (deref_type cold 0) = 0%N /\
  ((fun rw => updated (deref_type rw.2 0)) <$>
     exec (cachedAttributes (cluster succeeding (inr (stat_output, None))) 0) cold)
  = Some 2600%N.
Proof. split; vm_compute; reflexivity. Qed.

(** Two entries of the file a.txt are opened at the same time. *)
Lemma concurrent_opens_start_two_jobs_witness :
  String_ two_handles 1 = String_ two_handles 2 /\
  calls (run_pool (in_turn 2 5)
           (two_handles, [Open (cluster succeeding (inr (stat_output, None))) 1;
                          Open (cluster succeeding (inr (stat_output, None))) 2])).1
  = [PodCreate "default" "data" ["cat"; "/mnt/a.txt"] (inr "wash0");
     PodCreate "default" "data" ["cat"; "/mnt/a.txt"] (inr "wash1")].
Proof.
  split; [reflexivity |].
  apply (concurrent_opens_start_two_jobs (cluster succeeding (inr (stat_output, None)))
           two_handles 1 2).
  - discriminate.
  - reflexivity.
  - reflexivity.
  - reflexivity.
  - vm_compute. reflexivity.
Defined.

End PvcRuns.

(** *** More runs *)

Section MoreRuns.
Import Prog.

Lemma Start_captures_the_group_witness :
  Command.Process (Command.cmd Command.NewCommand) = None /\
  exists w1, exec (Command.Start os_42) Command.NewCommand = Some (None, w1) /\
    Command.Process (Command.cmd w1) = Some 42 /\ Command.pgid (Command.cmd w1) = 42%Z.
Proof.
  split; [reflexivity |].
  destruct (Start_captures_the_group os_42 Command.NewCommand 42 eq_refl eq_refl)
    as (w1 & E & HP & _ & _ & _ & Hg & _).
  exists w1. auto.
Defined.

(** A goroutine signals a command that was never started while another is
    about to call Terminate(): the program panics and Terminate() is not run. *)
Lemma signal_before_Start_panics_witness :
  Command.Process (Command.cmd Command.NewCommand) = None /\
  exec (Command.signal os_42 Command.SIGTERM) Command.NewCommand = None /\
  Command.run [Command.Sched 0; Command.Sched 0; Command.Sched 1; Command.Sched 1]
    (Command.NewCommand,
     [(do Command.signal os_42 Command.SIGTERM ;; Ret [])%prog;
      Command.caller os_42 [] [Command.CallTerminate]])
  = Command.run [Command.Sched 0; Command.Sched 0]
      (Command.NewCommand,
       [(do Command.signal os_42 Command.SIGTERM ;; Ret [])%prog;
        Command.caller os_42 [] [Command.CallTerminate]]).
Proof.
  split; [reflexivity |].
  destruct (signal_before_Start_panics os_42 Command.SIGTERM Command.NewCommand
              [Command.caller os_42 [] [Command.CallTerminate]] eq_refl eq_refl)
    as (H1 & _ & _ & _ & H5).
  split; [exact H1 |].
  exact (H5 [Command.Sched 1; Command.Sched 1]).
Defined.

Lemma concurrent_Terminate_panics_witness :
  Command.terminateCh (Command.cmd (Command.started os_42)) = false /\
  Command.panicked
    (run_pool [0; 1; 0; 1]
       (Command.started os_42, [Command.Terminate; Command.Terminate])).1 = true.
Proof.
  split; [reflexivity |].
  exact (proj1 (concurrent_Terminate_panics (Command.started os_42) eq_refl)).
Defined.

Lemma Wait_blocks_until_exit_witness :
  Command.exited (Command.started os_42) = false /\
  exec (Command.Wait os_42) (Command.started os_42) = None /\
  exists w1,
    exec (Command.Wait os_42) (Command.set_exited true (Command.started os_42))
    = Some (Some "exit status 1", w1) /\
    Command.n_wait w1 = 1.
Proof.
  split; [reflexivity |].
  split; [exact (proj1 (Wait_blocks_until_exit os_42 (Command.started os_42) 42
                          eq_refl eq_refl eq_refl eq_refl) eq_refl) |].
  destruct (proj2 (Wait_blocks_until_exit os_42
                     (Command.set_exited true (Command.started os_42)) 42
                     eq_refl eq_refl eq_refl eq_refl) eq_refl)
    as (w1 & E & _ & Hn & _).
  exists w1. auto.
Defined.

Lemma Exec_executor_error_witness :
  Pod.new_executor refused_cluster = Some (Pod.OtherError "dial tcp: connection refused") /\
  exists s',
    exec (Pod.Exec refused_cluster) Pod.fresh
    = Some (Some (Pod.Wrap (Pod.OtherError "dial tcp: connection refused")
                           "kubernetes.pod.Exec request"), s') /\
    exec (Pod.streaming refused_cluster) s' = None.
Proof.
  split; [reflexivity |].
  destruct (Exec_executor_error refused_cluster Pod.fresh _ eq_refl eq_refl)
    as (s' & E & _ & _ & _ & _ & Hs).
  exists s'. auto.
Defined.

Lemma exit_code_is_zero_until_the_stream_ends_witness :
  Pod.stream exit3_cluster = Some (Pod.ExitError 3) /\
  exists s, exec (Pod.Exec exit3_cluster) Pod.fresh = Some (None, s) /\
    exec Pod.ExitCodeCB s = Some ((0%Z, None), s) /\
    exists s', exec (Pod.streaming exit3_cluster) s = Some (tt, s') /\
      exec Pod.ExitCodeCB s' = Some ((3%Z, None), s').
Proof.
  split; [reflexivity |].
  exact (exit_code_is_zero_until_the_stream_ends exit3_cluster 3 eq_refl eq_refl).
Defined.

End MoreRuns.

Section MorePvcRuns.
Import Prog Pvc.

Lemma with_logs_unlocked (cli : nat) : unlocked with_logs cli.
Proof. intros key _. apply not_elem_of_empty. Qed.

Lemma two_handles_unlocked (cli : nat) : unlocked two_handles cli.
Proof. intros key _. apply not_elem_of_empty. Qed.

(** The pod succeeds after 2.6 seconds: waitForPod has called Watch and
    then Stop. *)
Lemma waitForPod_stops_its_watch_witness :
  exists w', exec (waitForPod (cluster succeeding (inr (stat_output, None))) "wash0") cold
             = Some (None, w') /\
    heap w' = heap cold /\ calls w' = [PodWatch "wash0"; WatchStop "wash0"].
Proof.
  eexists. split; [vm_compute; reflexivity |].
  destruct (waitForPod_stops_its_watch (cluster succeeding (inr (stat_output, None)))
              "wash0" cold _ _ eq_refl) as (Hh & _ & _ & Hc & _).
  exact (conj Hh Hc).
Defined.

(** The pod reports Running twice, 29 seconds apart, and then succeeds:
    waitForPod returns nil after 59 seconds. *)
Lemma waitForPod_first_terminal_item_witness :
  exists w', exec (waitForPod (cluster slow (inr (stat_output, None))) "wash0") cold
             = Some (None, w') /\ clock w' = 59000%N.
Proof.
  destruct (waitForPod_first_terminal_item (cluster slow (inr (stat_output, None))) "wash0" cold
              [(29000%N, Modified PodRunning); (29000%N, Modified PodRunning)]
              1000%N (Modified PodSucceeded) [] eq_refl eq_refl eq_refl)
    as (r & w' & E & H).
  cbv beta iota in H. change (timeout <=? 1000)%N with false in H. cbv iota in H.
  destruct H as [-> Hc]. exists w'. split; [exact E |]. rewrite Hc. reflexivity.
Defined.

Lemma cachedAttributes_waits_for_locked_key_witness :
  "kube/default/pvc/data/list" ∈ locks root_locked /\
  exec (cachedAttributes (cluster succeeding (inr (stat_output, None))) 0) root_locked = None.
Proof.
  assert (H : "kube/default/pvc/data/list" ∈ locks root_locked).
  { unfold root_locked. cbn [locks set_locks]. apply elem_of_singleton_2. reflexivity. }
  split; [exact H |].
  apply (cachedAttributes_waits_for_locked_key _ 0 root_locked "kube/default/pvc/data/list");
    [left; reflexivity | exact H].
Defined.

Lemma cachedAttributes_releases_its_locks_witness :
  unlocked cold 0 /\
  exists r w', exec (cachedAttributes (cluster succeeding (inr (stat_output, None))) 0) cold
               = Some (r, w') /\ locks w' = locks cold.
Proof.
  split; [apply cold_unlocked |].
  apply cachedAttributes_releases_its_locks, cold_unlocked.
Defined.

Lemma failed_job_is_not_cached_witness :
  watched (cluster failing (inr (garbage, None))) "wash0" = Some errPodTerminated /\
  exists r w', exec (cachedAttributes (cluster failing (inr (garbage, None))) 0) cold
               = Some (r, w') /\ cache w' = cache cold.
Proof.
  split; [reflexivity |].
  apply (failed_job_is_not_cached (cluster failing (inr (garbage, None))) 0 cold).
  - apply cold_unlocked.
  - discriminate.
Defined.

Lemma content_is_read_once_witness :
  cache two_handles !! "kube/default/pvc/data/a.txt/content" = None /\
  exists w',
    exec (cachedContent (cluster succeeding (inr (stat_output, None))) 1) two_handles
    = Some ((Some stat_output, None), w') /\
    exec (cachedContent (cluster succeeding (inr (stat_output, None))) 1) w'
    = Some ((Some stat_output, None), w').
Proof.
  split; [reflexivity |].
  apply (content_is_read_once (cluster succeeding (inr (stat_output, None))) 1 two_handles
           "wash0" stat_output); reflexivity.
Defined.

(** The root is listed, and then its directory logs: one pod. *)
Lemma subdirectory_listing_is_cached_witness :
  path (deref with_logs 1) = "/logs" /\
  exists r w1,
    exec (cachedAttributes (cluster succeeding (inr (stat_output, None))) 0) with_logs
    = Some (r, w1) /\
    map is_create (calls w1) = [true; false; false; false; false; false] /\
    exec (cachedAttributes (cluster succeeding (inr (stat_output, None))) 1) w1
    = Some ((Some logs_listing, None), w1).
Proof.
  split; [reflexivity |].
  destruct (subdirectory_listing_is_cached (cluster succeeding (inr (stat_output, None)))
              0 1 with_logs "wash0" (stat_output, None) volume logs_listing
              (String.list_byte_of_string "logs"))
    as (r & w1 & E & Hc & E').
  - apply with_logs_unlocked.
  - apply with_logs_unlocked.
  - reflexivity.
  - reflexivity.
  - reflexivity.
  - reflexivity.
  - reflexivity.
  - apply volume_range.
  - reflexivity.
  - vm_compute. reflexivity.
  - vm_compute. reflexivity.
  - vm_compute. reflexivity.
  - exists r, w1. split; [exact E |]. split; [| exact E']. rewrite Hc. reflexivity.
Defined.

Lemma last_cache_write_error_is_returned_witness :
  gob_Encode empty_logs ∅ = inl (External "gob: type not registered") /\
  (exists w', exec (cachedAttributes empty_logs 0) cold
              = Some ((Some root_listing, Some (External "gob: type not registered")), w')) /\
  (exists w', exec (List empty_logs 0) cold
              = Some ((None, Some (External "gob: type not registered")), w')).
Proof.
  split; [reflexivity |].
  assert (Hl : ({[ "" := root_listing; "/logs" := (∅ : AttrMap) ]} : DirMap)
               !! path (deref cold 0) = Some root_listing).
  { vm_compute. reflexivity. }
  rewrite <- Hl.
  apply (last_cache_write_error_is_returned empty_logs 0 cold "wash0" (stat_output, None)
           {[ "" := root_listing; "/logs" := (∅ : AttrMap) ]} [("", root_listing)] "/logs" ∅
           (External "gob: type not registered")).
  - apply cold_unlocked.
  - reflexivity.
  - reflexivity.
  - reflexivity.
  - reflexivity.
  - reflexivity.
  - reflexivity.
  - reflexivity.
Defined.

Lemma cold_listing :
  exists w1, exec (cachedAttributes (cluster succeeding (inr (stat_output, None))) 0) cold
             = Some ((Some root_listing, None), w1).
Proof.
  destruct (exec (cachedAttributes (cluster succeeding (inr (stat_output, None))) 0) cold)
    as [[r w1] |] eqn:E.
  - assert (H : fst <$> exec (cachedAttributes (cluster succeeding (inr (stat_output, None))) 0)
                             cold = Some (Some root_listing, None)).
    { vm_compute. reflexivity. }
    rewrite E in H. injection H as ->. exists w1. reflexivity.
  - exfalso.
    assert (H : is_Some (exec (cachedAttributes (cluster succeeding (inr (stat_output, None))) 0)
                              cold)).
    { vm_compute. eexists. reflexivity. }
    rewrite E in H. destruct H as [x H]. discriminate.
Qed.

Lemma failing_listing :
  exists w1, exec (cachedAttributes (cluster failing (inr (garbage, None))) 0) cold
             = Some ((None, Some (New "cannot open /mnt")), w1).
Proof.
  destruct (exec (cachedAttributes (cluster failing (inr (garbage, None))) 0) cold)
    as [[r w1] |] eqn:E.
  - assert (H : fst <$> exec (cachedAttributes (cluster failing (inr (garbage, None))) 0) cold
                = Some (None, Some (New "cannot open /mnt"))).
    { vm_compute. reflexivity. }
    rewrite E in H. injection H as ->. exists w1. reflexivity.
  - exfalso.
    assert (H : is_Some (exec (cachedAttributes (cluster failing (inr (garbage, None))) 0)
                              cold)).
    { vm_compute. eexists. reflexivity. }
    rewrite E in H. destruct H as [x H]. discriminate.
Qed.

(** The directory logs is looked up in the root. *)
Lemma Find_makes_child_witness :
  root_listing !! "logs" = Some dir_attr /\
  exists w2,
    exec (Find (cluster succeeding (inr (stat_output, None))) 0 "logs") cold
    = Some ((Some (NewDir 1), None), w2) /\
    heap w2 = [root_entry; child root_entry "logs" dir_attr] /\
    String_ w2 1 = "kube/default/pvc/data/logs".
Proof.
  split; [vm_compute; reflexivity |].
  destruct cold_listing as [w1 E].
  destruct (Find_makes_child (cluster succeeding (inr (stat_output, None))) 0 cold "logs"
              dir_attr root_listing w1) as (w2 & EF & Hh & Hs & _).
  - repeat constructor.
  - apply cold_unlocked.
  - exact E.
  - vm_compute. reflexivity.
  - exists w2. split; [exact EF |]. split; [exact Hh |].
    change (length (heap cold)) with 1 in Hs. rewrite Hs. reflexivity.
Defined.

(** The pod fails: Find and List return what it logged as the error. *)
Lemma Find_without_node_witness :
  exists w1,
    exec (Find (cluster failing (inr (garbage, None))) 0 "logs") cold
    = Some ((None, Some (New "cannot open /mnt")), w1) /\
    exec (List (cluster failing (inr (garbage, None))) 0) cold
    = Some ((None, Some (New "cannot open /mnt")), w1).
Proof.
  destruct failing_listing as [w1 E]. exists w1.
  exact (Find_without_node (cluster failing (inr (garbage, None))) 0 cold "logs" None
           (Some (New "cannot open /mnt")) w1 E).
Defined.

(** The root is listed: two nodes, a file and a directory. *)
Lemma List_one_node_per_entry_witness :
  unlocked cold 0 /\
  exists nodes w2,
    exec (List (cluster succeeding (inr (stat_output, None))) 0) cold
    = Some ((Some nodes, None), w2) /\
    length nodes = 2 /\ length (heap w2) = 3.
Proof.
  split; [apply cold_unlocked |].
  destruct cold_listing as [w1 E].
  destruct (List_one_node_per_entry (cluster succeeding (inr (stat_output, None))) 0 cold
              (Some root_listing) w1) as (nodes & w2 & EL & Hn & Hh & _).
  - repeat constructor.
  - apply cold_unlocked.
  - exact E.
  - exists nodes, w2. split; [exact EL |].
    assert (H2 : length (range_attrs (cluster succeeding (inr (stat_output, None)))
                           (default ∅ (Some root_listing))) = 2).
    { vm_compute. reflexivity. }
    rewrite H2 in Hn. rewrite Hn in Hh. auto.
Defined.

(** Three callers list the root at the same time; the pod fails. *)
Lemma one_listing_job_at_a_time_witness :
  unlocked cold 0 /\
  one_at_a_time
    (calls (run_pool (in_turn 3 20)
              (cold, replicate 3 (cachedAttributes (cluster failing (inr (garbage, None))) 0))).1).
Proof.
  split; [apply cold_unlocked |].
  apply one_listing_job_at_a_time; [apply cold_unlocked | reflexivity].
Defined.

(** Two callers open one entry of a.txt at the same time. *)
Lemma one_content_job_per_object_witness :
  mux (deref two_handles 1) = false /\
  one_at_a_time
    (calls (run_pool (in_turn 2 20)
              (two_handles,
               replicate 2 (Open (cluster succeeding (inr (stat_output, None))) 1))).1).
Proof.
  split; [reflexivity |].
  apply one_content_job_per_object; [repeat constructor | reflexivity | reflexivity].
Defined.

Lemma Name_of_child_witness :
  no_slash "a.txt" = true /\ Name two_handles 1 = "a.txt" /\ Name two_handles 0 = "data".
Proof.
  split; [reflexivity |].
  split.
  - exact (proj2 (Name_of_child two_handles 1 root_entry "a.txt" file_attr) eq_refl eq_refl).
  - exact (proj1 (Name_of_child two_handles 0 root_entry "a.txt" file_attr) eq_refl).
Defined.

End MorePvcRuns.
